(** * OpenBlok playfield engine: shallow embedding of [Well] and [PieceQueue]

    The development follows [src/game/components/Well.cpp] and
    [src/game/PieceQueue.cpp].  Integers of the program are modelled as [Z]:
    [unsigned] values live in [0, 2^32) and every unsigned operation is
    reduced with [wrapu]; [int] values are left unreduced (signed overflow is
    undefined behaviour in C++ and positions stay near the board).  A fault
    of the program ([std::out_of_range] thrown by [.at()], a null piece
    dereferenced, an unchecked index outside its array, a loop that does not
    end) is the result [None]; [assert]s are those of a release build, that
    is, they compile to nothing and appear here as hypotheses of theorems. *)

From Stdlib Require Import ZArith Lia.
From stdpp Require Import base option list sorting gmap.

Local Open Scope Z_scope.

(** ** Integers *)

Definition UINT_MAX : Z := 4294967295.

(** Reduction of an unsigned result modulo [2^32]. *)
Definition wrapu (z : Z) : Z := z mod 4294967296.

(** ** Piece types, minos, cells *)

Module PieceType.
(** [Piece::Type]: the seven tetrominoes. *)
Inductive t := I | J | L | O | S | T | Z.

#[global] Instance eq_dec : EqDecision t.
Proof. solve_decision. Defined.

(** [Piece::allTypes]. *)
Definition allTypes : list t := [I; J; L; O; S; T; Z].
End PieceType.

(** A [Mino] is the visual of one cell; the board and the piece grids hold
    [std::unique_ptr<Mino>], where [nullptr] is [None]. *)
Record Mino := mkMino { mino_type : PieceType.t }.

#[global] Instance Mino_eq_dec : EqDecision Mino.
Proof. solve_decision. Defined.

Abbreviation Cell := (option Mino).

(** [unique_ptr::operator bool]. *)
Definition has_mino (c : Cell) : bool :=
  match c with Some _ => true | None => false end.

(** ** [std::array<T, 4>] *)

Record Arr4 (A : Type) := mk4 { e0 : A; e1 : A; e2 : A; e3 : A }.
Arguments mk4 {A} _ _ _ _.
Arguments e0 {A} _.
Arguments e1 {A} _.
Arguments e2 {A} _.
Arguments e3 {A} _.

(** [a.at(i)]: [None] stands for [std::out_of_range]. *)
Definition at4 {A} (a : Arr4 A) (i : nat) : option A :=
  match i with
  | 0%nat => Some (e0 a)
  | 1%nat => Some (e1 a)
  | 2%nat => Some (e2 a)
  | 3%nat => Some (e3 a)
  | _ => None
  end.

(** [a[i] = v] for [i < 4]. *)
Definition set4 {A} (a : Arr4 A) (i : nat) (v : A) : Arr4 A :=
  match i with
  | 0%nat => mk4 v (e1 a) (e2 a) (e3 a)
  | 1%nat => mk4 (e0 a) v (e2 a) (e3 a)
  | 2%nat => mk4 (e0 a) (e1 a) v (e3 a)
  | 3%nat => mk4 (e0 a) (e1 a) (e2 a) v
  | _ => a
  end.

(** The 4x4 grid of one rotation frame of a piece. *)
Abbreviation Grid := (Arr4 (Arr4 Cell)).

Definition grid_at (g : Grid) (gy gx : nat) : option Cell :=
  r ← at4 g gy; at4 r gx.

(** The mask cell at [(i, j)], empty outside the 4x4 grid. *)
Definition mask (g : Grid) (i j : nat) : Cell :=
  default None (grid_at g i j).

(** ** Pieces *)

(** Modelled from the spec: the class [Piece] (Piece.h, Piece.cpp) is not
    part of the sources at hand.  Section 3 describes a piece as a type tag,
    a current rotation state (0-3) and one 4x4 occupancy mask per rotation;
    [rotateCW] and [rotateCCW] step the rotation state forwards and
    backwards. *)
Inductive Rotation := R0 | R1 | R2 | R3.

#[global] Instance Rotation_eq_dec : EqDecision Rotation.
Proof. solve_decision. Defined.

Record Piece := mkPiece {
  piece_type : PieceType.t;
  current_rotation : Rotation;
  frames : Arr4 Grid
}.

Definition rot_index (r : Rotation) : nat :=
  match r with R0 => 0 | R1 => 1 | R2 => 2 | R3 => 3 end%nat.

Definition currentGrid (p : Piece) : Grid :=
  match current_rotation p with
  | R0 => e0 (frames p)
  | R1 => e1 (frames p)
  | R2 => e2 (frames p)
  | R3 => e3 (frames p)
  end.

Definition rotateCW (p : Piece) : Piece :=
  mkPiece (piece_type p)
          (match current_rotation p with R0 => R1 | R1 => R2 | R2 => R3 | R3 => R0 end)
          (frames p).

Definition rotateCCW (p : Piece) : Piece :=
  mkPiece (piece_type p)
          (match current_rotation p with R0 => R3 | R1 => R0 | R2 => R1 | R3 => R2 end)
          (frames p).

(** [currentGridMut()[row][cell] = v]. *)
Definition set_currentGrid (p : Piece) (g : Grid) : Piece :=
  mkPiece (piece_type p) (current_rotation p)
          (set4 (frames p) (rot_index (current_rotation p)) g).

(** ** The board buffer *)

(** [matrix]: rows of cells, row 0 on top.  Well.h, which fixes the two
    dimensions of the [std::array], is not part of the sources at hand; the
    dimensions are those of the value, and [rectangular] says what the array
    type guarantees. *)
Abbreviation Matrix := (list (list Cell)).

(** [matrix.size()]. *)
Definition height (m : Matrix) : Z := Z.of_nat (length m).

(** [matrix[0].size()]. *)
Definition width (m : Matrix) : Z :=
  match m with
  | [] => 0
  | r :: _ => Z.of_nat (length r)
  end.

Definition rectangular (m : Matrix) : Prop :=
  Forall (λ r : list Cell, Z.of_nat (length r) = width m) m.

(** [matrix.at(row).at(cell)]. *)
Definition matrix_at (m : Matrix) (row cell : Z) : option Cell :=
  if (row <? 0) || (cell <? 0) then None
  else r ← m !! Z.to_nat row; r !! Z.to_nat cell.

(** The board cell at [(row, cell)], empty outside the buffer. *)
Definition board (m : Matrix) (row cell : Z) : Cell :=
  default None (matrix_at m row cell).

(** ** Collision test: [Well::hasCollisionAt] *)

Section Collision.
Variable m : Matrix.

(** The grid of the active piece, [None] when [active_piece] is null: the
    pointer is dereferenced in the body of the inner loop only. *)
Variable g : option Grid.

(** The body of the inner loop up to the test: [board_has_mino_here] is
    true outside the buffer. *)
Definition board_has_mino_here (row cell : Z) : option bool :=
  if (row <? height m) && (0 <=? cell) && (cell <? width m)
  then has_mino <$> matrix_at m row cell
  else Some true.

(** [for (int cell = offset_x; cell <= offset_x + 3; cell++)].  The
    counter [k] is [4 - piece_gridx]: with the grid's four columns used up,
    a further iteration throws at [.at(piece_gridx)].  [Some true] is
    [return true], [Some false] the end of the loop. *)
Fixpoint cells_loop (k : nat) (offset_x row cell : Z) (piece_gridy piece_gridx : nat)
  : option bool :=
  if cell <=? offset_x + 3 then
    match k with
    | O => None
    | S k' =>
        board_has ← board_has_mino_here row cell;
        piece_cell ← (grid ← g; grid_at grid piece_gridy piece_gridx);
        if has_mino piece_cell && board_has then Some true
        else cells_loop k' offset_x row (cell + 1) piece_gridy (S piece_gridx)
    end
  else Some false.

(** [for (unsigned row = offset_y; row <= offset_y + 3; row++)], with the
    unsigned sum and increment reduced; [k] is [4 - piece_gridy]. *)
Fixpoint rows_loop (k : nat) (offset_x offset_y row : Z) (piece_gridy : nat)
  : option bool :=
  if row <=? wrapu (offset_y + 3) then
    match k with
    | O => None
    | S k' =>
        found ← cells_loop 4 offset_x row offset_x piece_gridy 0;
        if found : bool then Some true
        else rows_loop k' offset_x offset_y (wrapu (row + 1)) (S piece_gridy)
    end
  else Some false.

Definition collides (offset_x offset_y : Z) : option bool :=
  rows_loop 4 offset_x offset_y offset_y 0.
End Collision.

(** ** Rows of the board: locking, clearing, compaction *)

(** [matrix[row][cell] = v], unchecked. *)
Definition matrix_set (m : Matrix) (row cell : Z) (v : Cell) : Matrix :=
  match m !! Z.to_nat row with
  | Some r => <[Z.to_nat row := <[Z.to_nat cell := v]> r]> m
  | None => m
  end.

(** [matrix[i].swap(matrix[j])], unchecked: [None] outside the array. *)
Definition swap_rows (m : Matrix) (i j : nat) : option Matrix :=
  ri ← m !! i; rj ← m !! j; Some (<[j := ri]> (<[i := rj]> m)).

(** The test of [checkLineclear]: no cell of the row is null. *)
Definition row_filled (r : list Cell) : bool := forallb has_mino r.

(** [for (auto& cell : matrix[row]) cell = nullptr]. *)
Definition clear_row (m : Matrix) (row : nat) : option Matrix :=
  r ← m !! row; Some (<[row := replicate (length r) None]> m).

(** The first loop of [checkLineclear]: full rows join the pending set. *)
Definition insert_if_filled (m : Matrix) (P : gset nat) (row : nat) : gset nat :=
  match m !! row with
  | Some r => if row_filled r then {[row]} ∪ P else P
  | None => P
  end.

Definition scan_filled (m : Matrix) (P : gset nat) : gset nat :=
  foldl (insert_if_filled m) P (seq 0 (length m)).

(** Iteration over a [std::set]: ascending. *)
Definition ascending (P : gset nat) : list nat :=
  merge_sort Nat.le (elements P).

(** [while (pending_cleared_rows.count(next_filled_row)) next_filled_row--],
    started at [k]; [None] is the exit with [next_filled_row = -1].
    Modelled from the spec: the element type of the set is declared in
    Well.h, which is not at hand; the set holds row indices (Section 3), so
    [-1] is not counted as a member. *)
Fixpoint next_filled_row (P : gset nat) (k : nat) : option nat :=
  if bool_decide (k ∈ P) then
    match k with
    | O => None
    | S k' => next_filled_row P k'
    end
  else Some k.

(** [for (int row = ...; row >= 0; row--)] of [removeEmptyRows], from [row]
    downwards. *)
Fixpoint compact_loop (row : nat) (m : Matrix) (P : gset nat)
  : option (Matrix * gset nat) :=
  if bool_decide (row ∈ P) then
    match next_filled_row P row with
    | None => Some (m, P)
    | Some nfr =>
        m' ← swap_rows m row nfr;
        match row with
        | O => Some (m', {[nfr]} ∪ P)
        | S row' => compact_loop row' m' ({[nfr]} ∪ P)
        end
    end
  else
    match row with
    | O => Some (m, P)
    | S row' => compact_loop row' m P
    end.

(** A loop over a list whose body may fault. *)
Fixpoint for_each {A St : Type} (body : A → St → option St) (l : list A) (s : St)
  : option St :=
  match l with
  | [] => Some s
  | a :: l' => s' ← body a s; for_each body l' s'
  end.

(** ** Input, events, collaborators *)

(** [Duration]: a count of clock ticks. *)
Definition Duration : Type := Z.

Module InputType.
(** The buttons [Well.cpp] names (system/InputEvent.h is not at hand). *)
Inductive t := UP | DOWN | LEFT | RIGHT | A | B | GAME_HARDDROP | GAME_HOLD.

#[global] Instance eq_dec : EqDecision t.
Proof. solve_decision. Defined.

Definition to_nat (k : t) : nat :=
  match k with
  | UP => 0 | DOWN => 1 | LEFT => 2 | RIGHT => 3
  | A => 4 | B => 5 | GAME_HARDDROP => 6 | GAME_HOLD => 7
  end%nat.

Definition of_nat (n : nat) : option t :=
  match n with
  | 0 => Some UP | 1 => Some DOWN | 2 => Some LEFT | 3 => Some RIGHT
  | 4 => Some A | 5 => Some B | 6 => Some GAME_HARDDROP | 7 => Some GAME_HOLD
  | _ => None
  end%nat.

#[global] Instance countable : Countable t.
Proof. apply (inj_countable to_nat of_nat). intros []; reflexivity. Defined.
End InputType.

(** [InputEvent]: [type()] and [down()]. *)
Record InputEvent := mkInputEvent { ev_type : InputType.t; ev_down : bool }.

(** [WellEvent]: the type tag, with the [count] of a [LINE_CLEAR]. *)
Inductive WellEvent :=
| PIECE_LOCKED
| LINE_CLEAR (count : Z)
| NEXT_REQUESTED
| HOLD_REQUESTED.

(** What [Well.cpp] uses and the sources at hand do not define: the lock
    countdown (a [Transition<void>]), the animations, the frame durations
    of game/Timing.h and game/GameState.h, and the piece factory.
    [tr_update d c] gives the countdown after [update(d)] and whether its
    end callback (here [lockThenRequestNext]) fired. *)
Class Collaborators := {
  Transition : Type;
  tr_make : Duration → Transition;
  tr_stop : Transition → Transition;
  tr_unpause : Transition → Transition;
  tr_running : Transition → bool;
  tr_update : Duration → Transition → Transition * bool;
  WellAnimation : Type;
  anim_update : Duration → WellAnimation → WellAnimation;
  anim_isActive : WellAnimation → bool;
  CellLockAnim : Z → Z → WellAnimation;
  LineClearAnim : Z → WellAnimation;
  frame_duration_60Hz : Duration;
  GameState_frame_duration : Duration;
  GRAVITY_20G : Duration;
  make_uptr : PieceType.t → Piece
}.

(** ** The playfield: [class Well] *)

Section WellModel.
Context `{Collaborators}.

(** The fields of [Well], and two ghost fields: [notified] holds the events
    handed to [notify] so far, oldest first, and [gravity_steps] counts the
    calls of [applyGravity].  Observers are outside the playfield and are
    taken not to call back into it while they are notified. *)
Record Well := mkWell {
  gameover : bool;
  matrix : Matrix;
  active_piece : option Piece;
  active_piece_x : Z;
  active_piece_y : Z;
  ghost_piece_y : Z;
  gravity_delay : Duration;
  gravity_timer : Duration;
  horizontal_delay_normal : Duration;
  horizontal_delay_turbo : Duration;
  horizontal_delay_current : Duration;
  horizontal_timer : Duration;
  das_timer : Duration;
  softdrop_delay : Duration;
  softdrop_timer : Duration;
  rotation_delay : Duration;
  rotation_timer : Duration;
  harddrop_locks_instantly : bool;
  lock_infinity : bool;
  lock_countdown : Transition;
  keystates : gmap InputType.t bool;
  previous_keystates : gmap InputType.t bool;
  skip_gravity : bool;
  pending_cleared_rows : gset nat;
  animations : list WellAnimation;
  blocking_anims : list WellAnimation;
  notified : list WellEvent;
  gravity_steps : nat
}.

Definition set_gameover (v : bool) (w : Well) : Well :=
  mkWell v (matrix w) (active_piece w) (active_piece_x w) (active_piece_y w)
    (ghost_piece_y w) (gravity_delay w) (gravity_timer w) (horizontal_delay_normal w)
    (horizontal_delay_turbo w) (horizontal_delay_current w) (horizontal_timer w)
    (das_timer w) (softdrop_delay w) (softdrop_timer w) (rotation_delay w)
    (rotation_timer w) (harddrop_locks_instantly w) (lock_infinity w)
    (lock_countdown w) (keystates w) (previous_keystates w) (skip_gravity w)
    (pending_cleared_rows w) (animations w) (blocking_anims w) (notified w)
    (gravity_steps w).

Definition set_matrix (v : Matrix) (w : Well) : Well :=
  mkWell (gameover w) v (active_piece w) (active_piece_x w) (active_piece_y w)
    (ghost_piece_y w) (gravity_delay w) (gravity_timer w) (horizontal_delay_normal w)
    (horizontal_delay_turbo w) (horizontal_delay_current w) (horizontal_timer w)
    (das_timer w) (softdrop_delay w) (softdrop_timer w) (rotation_delay w)
    (rotation_timer w) (harddrop_locks_instantly w) (lock_infinity w)
    (lock_countdown w) (keystates w) (previous_keystates w) (skip_gravity w)
    (pending_cleared_rows w) (animations w) (blocking_anims w) (notified w)
    (gravity_steps w).

Definition set_active_piece (v : option Piece) (w : Well) : Well :=
  mkWell (gameover w) (matrix w) v (active_piece_x w) (active_piece_y w)
    (ghost_piece_y w) (gravity_delay w) (gravity_timer w) (horizontal_delay_normal w)
    (horizontal_delay_turbo w) (horizontal_delay_current w) (horizontal_timer w)
    (das_timer w) (softdrop_delay w) (softdrop_timer w) (rotation_delay w)
    (rotation_timer w) (harddrop_locks_instantly w) (lock_infinity w)
    (lock_countdown w) (keystates w) (previous_keystates w) (skip_gravity w)
    (pending_cleared_rows w) (animations w) (blocking_anims w) (notified w)
    (gravity_steps w).

Definition set_active_piece_x (v : Z) (w : Well) : Well :=
  mkWell (gameover w) (matrix w) (active_piece w) v (active_piece_y w)
    (ghost_piece_y w) (gravity_delay w) (gravity_timer w) (horizontal_delay_normal w)
    (horizontal_delay_turbo w) (horizontal_delay_current w) (horizontal_timer w)
    (das_timer w) (softdrop_delay w) (softdrop_timer w) (rotation_delay w)
    (rotation_timer w) (harddrop_locks_instantly w) (lock_infinity w)
    (lock_countdown w) (keystates w) (previous_keystates w) (skip_gravity w)
    (pending_cleared_rows w) (animations w) (blocking_anims w) (notified w)
    (gravity_steps w).

Definition set_active_piece_y (v : Z) (w : Well) : Well :=
  mkWell (gameover w) (matrix w) (active_piece w) (active_piece_x w) v
    (ghost_piece_y w) (gravity_delay w) (gravity_timer w) (horizontal_delay_normal w)
    (horizontal_delay_turbo w) (horizontal_delay_current w) (horizontal_timer w)
    (das_timer w) (softdrop_delay w) (softdrop_timer w) (rotation_delay w)
    (rotation_timer w) (harddrop_locks_instantly w) (lock_infinity w)
    (lock_countdown w) (keystates w) (previous_keystates w) (skip_gravity w)
    (pending_cleared_rows w) (animations w) (blocking_anims w) (notified w)
    (gravity_steps w).

Definition set_ghost_piece_y (v : Z) (w : Well) : Well :=
  mkWell (gameover w) (matrix w) (active_piece w) (active_piece_x w)
    (active_piece_y w) v (gravity_delay w) (gravity_timer w)
    (horizontal_delay_normal w) (horizontal_delay_turbo w)
    (horizontal_delay_current w) (horizontal_timer w) (das_timer w) (softdrop_delay w)
    (softdrop_timer w) (rotation_delay w) (rotation_timer w)
    (harddrop_locks_instantly w) (lock_infinity w) (lock_countdown w) (keystates w)
    (previous_keystates w) (skip_gravity w) (pending_cleared_rows w) (animations w)
    (blocking_anims w) (notified w) (gravity_steps w).

Definition set_gravity_delay (v : Duration) (w : Well) : Well :=
  mkWell (gameover w) (matrix w) (active_piece w) (active_piece_x w)
    (active_piece_y w) (ghost_piece_y w) v (gravity_timer w)
    (horizontal_delay_normal w) (horizontal_delay_turbo w)
    (horizontal_delay_current w) (horizontal_timer w) (das_timer w) (softdrop_delay w)
    (softdrop_timer w) (rotation_delay w) (rotation_timer w)
    (harddrop_locks_instantly w) (lock_infinity w) (lock_countdown w) (keystates w)
    (previous_keystates w) (skip_gravity w) (pending_cleared_rows w) (animations w)
    (blocking_anims w) (notified w) (gravity_steps w).

Definition set_gravity_timer (v : Duration) (w : Well) : Well :=
  mkWell (gameover w) (matrix w) (active_piece w) (active_piece_x w)
    (active_piece_y w) (ghost_piece_y w) (gravity_delay w) v
    (horizontal_delay_normal w) (horizontal_delay_turbo w)
    (horizontal_delay_current w) (horizontal_timer w) (das_timer w) (softdrop_delay w)
    (softdrop_timer w) (rotation_delay w) (rotation_timer w)
    (harddrop_locks_instantly w) (lock_infinity w) (lock_countdown w) (keystates w)
    (previous_keystates w) (skip_gravity w) (pending_cleared_rows w) (animations w)
    (blocking_anims w) (notified w) (gravity_steps w).

Definition set_horizontal_delay_current (v : Duration) (w : Well) : Well :=
  mkWell (gameover w) (matrix w) (active_piece w) (active_piece_x w)
    (active_piece_y w) (ghost_piece_y w) (gravity_delay w) (gravity_timer w)
    (horizontal_delay_normal w) (horizontal_delay_turbo w) v (horizontal_timer w)
    (das_timer w) (softdrop_delay w) (softdrop_timer w) (rotation_delay w)
    (rotation_timer w) (harddrop_locks_instantly w) (lock_infinity w)
    (lock_countdown w) (keystates w) (previous_keystates w) (skip_gravity w)
    (pending_cleared_rows w) (animations w) (blocking_anims w) (notified w)
    (gravity_steps w).

Definition set_horizontal_timer (v : Duration) (w : Well) : Well :=
  mkWell (gameover w) (matrix w) (active_piece w) (active_piece_x w)
    (active_piece_y w) (ghost_piece_y w) (gravity_delay w) (gravity_timer w)
    (horizontal_delay_normal w) (horizontal_delay_turbo w)
    (horizontal_delay_current w) v (das_timer w) (softdrop_delay w) (softdrop_timer w)
    (rotation_delay w) (rotation_timer w) (harddrop_locks_instantly w)
    (lock_infinity w) (lock_countdown w) (keystates w) (previous_keystates w)
    (skip_gravity w) (pending_cleared_rows w) (animations w) (blocking_anims w)
    (notified w) (gravity_steps w).

Definition set_das_timer (v : Duration) (w : Well) : Well :=
  mkWell (gameover w) (matrix w) (active_piece w) (active_piece_x w)
    (active_piece_y w) (ghost_piece_y w) (gravity_delay w) (gravity_timer w)
    (horizontal_delay_normal w) (horizontal_delay_turbo w)
    (horizontal_delay_current w) (horizontal_timer w) v (softdrop_delay w)
    (softdrop_timer w) (rotation_delay w) (rotation_timer w)
    (harddrop_locks_instantly w) (lock_infinity w) (lock_countdown w) (keystates w)
    (previous_keystates w) (skip_gravity w) (pending_cleared_rows w) (animations w)
    (blocking_anims w) (notified w) (gravity_steps w).

Definition set_softdrop_delay (v : Duration) (w : Well) : Well :=
  mkWell (gameover w) (matrix w) (active_piece w) (active_piece_x w)
    (active_piece_y w) (ghost_piece_y w) (gravity_delay w) (gravity_timer w)
    (horizontal_delay_normal w) (horizontal_delay_turbo w)
    (horizontal_delay_current w) (horizontal_timer w) (das_timer w) v
    (softdrop_timer w) (rotation_delay w) (rotation_timer w)
    (harddrop_locks_instantly w) (lock_infinity w) (lock_countdown w) (keystates w)
    (previous_keystates w) (skip_gravity w) (pending_cleared_rows w) (animations w)
    (blocking_anims w) (notified w) (gravity_steps w).

Definition set_softdrop_timer (v : Duration) (w : Well) : Well :=
  mkWell (gameover w) (matrix w) (active_piece w) (active_piece_x w)
    (active_piece_y w) (ghost_piece_y w) (gravity_delay w) (gravity_timer w)
    (horizontal_delay_normal w) (horizontal_delay_turbo w)
    (horizontal_delay_current w) (horizontal_timer w) (das_timer w) (softdrop_delay w)
    v (rotation_delay w) (rotation_timer w) (harddrop_locks_instantly w)
    (lock_infinity w) (lock_countdown w) (keystates w) (previous_keystates w)
    (skip_gravity w) (pending_cleared_rows w) (animations w) (blocking_anims w)
    (notified w) (gravity_steps w).

Definition set_rotation_timer (v : Duration) (w : Well) : Well :=
  mkWell (gameover w) (matrix w) (active_piece w) (active_piece_x w)
    (active_piece_y w) (ghost_piece_y w) (gravity_delay w) (gravity_timer w)
    (horizontal_delay_normal w) (horizontal_delay_turbo w)
    (horizontal_delay_current w) (horizontal_timer w) (das_timer w) (softdrop_delay w)
    (softdrop_timer w) (rotation_delay w) v (harddrop_locks_instantly w)
    (lock_infinity w) (lock_countdown w) (keystates w) (previous_keystates w)
    (skip_gravity w) (pending_cleared_rows w) (animations w) (blocking_anims w)
    (notified w) (gravity_steps w).

Definition set_lock_countdown (v : Transition) (w : Well) : Well :=
  mkWell (gameover w) (matrix w) (active_piece w) (active_piece_x w)
    (active_piece_y w) (ghost_piece_y w) (gravity_delay w) (gravity_timer w)
    (horizontal_delay_normal w) (horizontal_delay_turbo w)
    (horizontal_delay_current w) (horizontal_timer w) (das_timer w) (softdrop_delay w)
    (softdrop_timer w) (rotation_delay w) (rotation_timer w)
    (harddrop_locks_instantly w) (lock_infinity w) v (keystates w)
    (previous_keystates w) (skip_gravity w) (pending_cleared_rows w) (animations w)
    (blocking_anims w) (notified w) (gravity_steps w).

Definition set_keystates (v : gmap InputType.t bool) (w : Well) : Well :=
  mkWell (gameover w) (matrix w) (active_piece w) (active_piece_x w)
    (active_piece_y w) (ghost_piece_y w) (gravity_delay w) (gravity_timer w)
    (horizontal_delay_normal w) (horizontal_delay_turbo w)
    (horizontal_delay_current w) (horizontal_timer w) (das_timer w) (softdrop_delay w)
    (softdrop_timer w) (rotation_delay w) (rotation_timer w)
    (harddrop_locks_instantly w) (lock_infinity w) (lock_countdown w) v
    (previous_keystates w) (skip_gravity w) (pending_cleared_rows w) (animations w)
    (blocking_anims w) (notified w) (gravity_steps w).

Definition set_previous_keystates (v : gmap InputType.t bool) (w : Well) : Well :=
  mkWell (gameover w) (matrix w) (active_piece w) (active_piece_x w)
    (active_piece_y w) (ghost_piece_y w) (gravity_delay w) (gravity_timer w)
    (horizontal_delay_normal w) (horizontal_delay_turbo w)
    (horizontal_delay_current w) (horizontal_timer w) (das_timer w) (softdrop_delay w)
    (softdrop_timer w) (rotation_delay w) (rotation_timer w)
    (harddrop_locks_instantly w) (lock_infinity w) (lock_countdown w) (keystates w) v
    (skip_gravity w) (pending_cleared_rows w) (animations w) (blocking_anims w)
    (notified w) (gravity_steps w).

Definition set_skip_gravity (v : bool) (w : Well) : Well :=
  mkWell (gameover w) (matrix w) (active_piece w) (active_piece_x w)
    (active_piece_y w) (ghost_piece_y w) (gravity_delay w) (gravity_timer w)
    (horizontal_delay_normal w) (horizontal_delay_turbo w)
    (horizontal_delay_current w) (horizontal_timer w) (das_timer w) (softdrop_delay w)
    (softdrop_timer w) (rotation_delay w) (rotation_timer w)
    (harddrop_locks_instantly w) (lock_infinity w) (lock_countdown w) (keystates w)
    (previous_keystates w) v (pending_cleared_rows w) (animations w)
    (blocking_anims w) (notified w) (gravity_steps w).

Definition set_pending_cleared_rows (v : gset nat) (w : Well) : Well :=
  mkWell (gameover w) (matrix w) (active_piece w) (active_piece_x w)
    (active_piece_y w) (ghost_piece_y w) (gravity_delay w) (gravity_timer w)
    (horizontal_delay_normal w) (horizontal_delay_turbo w)
    (horizontal_delay_current w) (horizontal_timer w) (das_timer w) (softdrop_delay w)
    (softdrop_timer w) (rotation_delay w) (rotation_timer w)
    (harddrop_locks_instantly w) (lock_infinity w) (lock_countdown w) (keystates w)
    (previous_keystates w) (skip_gravity w) v (animations w) (blocking_anims w)
    (notified w) (gravity_steps w).

Definition set_animations (v : list WellAnimation) (w : Well) : Well :=
  mkWell (gameover w) (matrix w) (active_piece w) (active_piece_x w)
    (active_piece_y w) (ghost_piece_y w) (gravity_delay w) (gravity_timer w)
    (horizontal_delay_normal w) (horizontal_delay_turbo w)
    (horizontal_delay_current w) (horizontal_timer w) (das_timer w) (softdrop_delay w)
    (softdrop_timer w) (rotation_delay w) (rotation_timer w)
    (harddrop_locks_instantly w) (lock_infinity w) (lock_countdown w) (keystates w)
    (previous_keystates w) (skip_gravity w) (pending_cleared_rows w) v
    (blocking_anims w) (notified w) (gravity_steps w).

Definition set_blocking_anims (v : list WellAnimation) (w : Well) : Well :=
  mkWell (gameover w) (matrix w) (active_piece w) (active_piece_x w)
    (active_piece_y w) (ghost_piece_y w) (gravity_delay w) (gravity_timer w)
    (horizontal_delay_normal w) (horizontal_delay_turbo w)
    (horizontal_delay_current w) (horizontal_timer w) (das_timer w) (softdrop_delay w)
    (softdrop_timer w) (rotation_delay w) (rotation_timer w)
    (harddrop_locks_instantly w) (lock_infinity w) (lock_countdown w) (keystates w)
    (previous_keystates w) (skip_gravity w) (pending_cleared_rows w) (animations w) v
    (notified w) (gravity_steps w).

Definition set_notified (v : list WellEvent) (w : Well) : Well :=
  mkWell (gameover w) (matrix w) (active_piece w) (active_piece_x w)
    (active_piece_y w) (ghost_piece_y w) (gravity_delay w) (gravity_timer w)
    (horizontal_delay_normal w) (horizontal_delay_turbo w)
    (horizontal_delay_current w) (horizontal_timer w) (das_timer w) (softdrop_delay w)
    (softdrop_timer w) (rotation_delay w) (rotation_timer w)
    (harddrop_locks_instantly w) (lock_infinity w) (lock_countdown w) (keystates w)
    (previous_keystates w) (skip_gravity w) (pending_cleared_rows w) (animations w)
    (blocking_anims w) v (gravity_steps w).

Definition set_gravity_steps (v : nat) (w : Well) : Well :=
  mkWell (gameover w) (matrix w) (active_piece w) (active_piece_x w)
    (active_piece_y w) (ghost_piece_y w) (gravity_delay w) (gravity_timer w)
    (horizontal_delay_normal w) (horizontal_delay_turbo w)
    (horizontal_delay_current w) (horizontal_timer w) (das_timer w) (softdrop_delay w)
    (softdrop_timer w) (rotation_delay w) (rotation_timer w)
    (harddrop_locks_instantly w) (lock_infinity w) (lock_countdown w) (keystates w)
    (previous_keystates w) (skip_gravity w) (pending_cleared_rows w) (animations w)
    (blocking_anims w) (notified w) v.
Definition frame : Duration := GameState_frame_duration.

(** [Well::notify]. *)
Definition notify (e : WellEvent) (w : Well) : Well :=
  set_notified (notified w ++ [e]) w.

(** [Well::hasCollisionAt]. *)
Definition hasCollisionAt (w : Well) (offset_x offset_y : Z) : option bool :=
  collides (matrix w) (currentGrid <$> active_piece w) offset_x offset_y.

(** [Well::calculateGhostOffset]: the loop, started at [ghost]; it ends
    within [height + 1] rounds, [fuel] counts them. *)
Fixpoint ghost_loop (fuel : nat) (w : Well) (ghost : Z) : option Z :=
  match fuel with
  | O => None
  | S fuel' =>
      if wrapu (ghost + 1) <? height (matrix w) then
        c ← hasCollisionAt w (active_piece_x w) (wrapu (ghost + 1));
        if c : bool then Some ghost else ghost_loop fuel' w (wrapu (ghost + 1))
      else Some ghost
  end.

Definition calculateGhostOffset (w : Well) : option Well :=
  ghost ← ghost_loop (S (S (length (matrix w)))) w (active_piece_y w);
  Some (set_ghost_piece_y ghost w).

(** [Well::resetDAS]. *)
Definition resetDAS (w : Well) : Well :=
  set_horizontal_delay_current (horizontal_delay_normal w)
    (set_das_timer (horizontal_delay_normal w) w).

(** [Well::resetInput]. *)
Definition resetInput (w : Well) : Well :=
  let w1 := resetDAS w in
  set_keystates ((λ _, false) <$> keystates w1) w1.

(** [Well::checkLineclear]: the body run for one pending row. *)
Definition clear_pending_row (row : nat) (w : Well) : option Well :=
  m ← clear_row (matrix w) row;
  let w1 := set_matrix m w in
  Some (if 2 <=? Z.of_nat row
        then set_blocking_anims (blocking_anims w1 ++ [LineClearAnim (Z.of_nat row)]) w1
        else w1).

Definition checkLineclear (w : Well) : option Well :=
  let w1 := set_pending_cleared_rows
              (scan_filled (matrix w) (pending_cleared_rows w)) w in
  if bool_decide (size (pending_cleared_rows w1) = 0%nat) then Some w1
  else
    w2 ← for_each clear_pending_row (ascending (pending_cleared_rows w1)) w1;
    Some (resetInput w2).

(** [Well::lockAndReleasePiece]: the body of the inner loop at grid position
    [(row, cell)].  The two sums are unsigned. *)
Definition lock_cell (row cell : nat) (w : Well) : option Well :=
  let r := wrapu (active_piece_y w + Z.of_nat row) in
  let c := wrapu (active_piece_x w + Z.of_nat cell) in
  if (height (matrix w) <=? r) || (width (matrix w) <=? c)
     || (active_piece_x w + Z.of_nat cell <? 0)
  then Some w
  else
    p ← active_piece w;
    piece_cell ← grid_at (currentGrid p) row cell;
    if has_mino piece_cell then
      board_cell ← matrix_at (matrix w) r c;
      grid_row ← at4 (currentGrid p) row;
      let p' := set_currentGrid p
                  (set4 (currentGrid p) row (set4 grid_row cell board_cell)) in
      let w1 := set_active_piece (Some p')
                  (set_matrix (matrix_set (matrix w) r c piece_cell) w) in
      Some (if 2 <=? r
            then set_animations (animations w1 ++ [CellLockAnim (wrapu (r - 2)) c]) w1
            else w1)
    else Some w.

Definition lock_row (row : nat) (w : Well) : option Well :=
  for_each (lock_cell row) [0; 1; 2; 3]%nat w.

(** The two nested loops of [lockAndReleasePiece]. *)
Definition lock_cells (w : Well) : option Well :=
  for_each lock_row [0; 1; 2; 3]%nat w.

Definition lockAndReleasePiece (w : Well) : option Well :=
  w1 ← lock_cells w;
  let w2 := set_active_piece None w1 in
  let w3 := set_lock_countdown (tr_stop (lock_countdown w2)) w2 in
  checkLineclear (notify PIECE_LOCKED w3).

(** [Well::lockThenRequestNext]. *)
Definition lockThenRequestNext (w : Well) : option Well :=
  w1 ← lockAndReleasePiece w;
  Some (if negb (gameover w1) && bool_decide (length (blocking_anims w1) = 0%nat)
        then notify NEXT_REQUESTED w1 else w1).

(** [Well::isOnGround]. *)
Definition isOnGround (w : Well) : option bool :=
  hasCollisionAt w (active_piece_x w) (wrapu (active_piece_y w + 1)).

(** [Well::moveDownNow]. *)
Definition moveDownNow (w : Well) : option Well :=
  if bool_decide (active_piece w = None)
     || (height (matrix w) <=? wrapu (active_piece_y w + 1))
  then Some w
  else
    g ← isOnGround w;
    if negb g then Some (set_active_piece_y (wrapu (active_piece_y w + 1)) w)
    else if negb (harddrop_locks_instantly w) && tr_running (lock_countdown w)
         then lockThenRequestNext w
         else Some w.

(** [Well::applyGravity]. *)
Definition applyGravity (w : Well) : option Well :=
  moveDownNow (set_gravity_steps (S (gravity_steps w)) w).

(** [if (lock_infinity) lock_countdown.stop()]. *)
Definition stop_if_infinity (w : Well) : Well :=
  if lock_infinity w then set_lock_countdown (tr_stop (lock_countdown w)) w else w.

(** [Well::moveLeftNow]. *)
Definition moveLeftNow (w : Well) : option Well :=
  if bool_decide (active_piece w = None) || (active_piece_x w - 1 <=? -3)
  then Some w
  else
    c ← hasCollisionAt w (active_piece_x w - 1) (active_piece_y w);
    if negb c then
      w1 ← calculateGhostOffset (set_active_piece_x (active_piece_x w - 1) w);
      Some (stop_if_infinity w1)
    else Some w.

(** [Well::moveRightNow]. *)
Definition moveRightNow (w : Well) : option Well :=
  if bool_decide (active_piece w = None)
     || (width (matrix w) <=? active_piece_x w + 1)
  then Some w
  else
    c ← hasCollisionAt w (active_piece_x w + 1) (active_piece_y w);
    if negb c then
      w1 ← calculateGhostOffset (set_active_piece_x (active_piece_x w + 1) w);
      Some (stop_if_infinity w1)
    else Some w.

(** [Well::hardDrop]. *)
Definition hardDrop (w : Well) : option Well :=
  w1 ← moveDownNow (set_active_piece_y (ghost_piece_y w) w);
  if harddrop_locks_instantly w1 then lockThenRequestNext w1 else Some w1.

(** [Well::placeByWallKick]: the position of one candidate. *)
Definition kick_to (w : Well) (dx floor : Z) : Well :=
  set_active_piece_y (wrapu (active_piece_y w - floor))
    (set_active_piece_x (active_piece_x w + dx) w).

(** The body of the loop of [placeByWallKick] at one [floor]: [Some w'] is
    [return true] in the state [w'], [None] the end of the body. *)
Definition kick_floor (w : Well) (floor : Z) : option (option Well) :=
  let y := wrapu (active_piece_y w - floor) in
  c ← hasCollisionAt w (active_piece_x w + 1) y;
  if negb c then Some (Some (kick_to w 1 floor)) else
  c ← hasCollisionAt w (active_piece_x w - 1) y;
  if negb c then Some (Some (kick_to w (-1) floor)) else
  p ← active_piece w;
  if bool_decide (piece_type p = PieceType.I) then
    row0 ← matrix w !! 0%nat;
    free ← (if active_piece_x w + 2 <? Z.of_nat (length row0)
            then negb <$> hasCollisionAt w (active_piece_x w + 2) y
            else Some false);
    if free : bool then Some (Some (kick_to w 2 floor)) else
    free ← (if 0 <=? active_piece_x w - 2
            then negb <$> hasCollisionAt w (active_piece_x w - 2) y
            else Some false);
    if free : bool then Some (Some (kick_to w (-2) floor)) else Some None
  else Some None.

(** [for (unsigned floor = 0; floor < (type == I ? 3 : 2); floor++)]; the
    loop ends within three rounds, [fuel] counts them. *)
Fixpoint kick_loop (fuel : nat) (w : Well) (floor : Z) : option (bool * Well) :=
  p ← active_piece w;
  if floor <? (if bool_decide (piece_type p = PieceType.I) then 3 else 2) then
    match fuel with
    | O => None
    | S fuel' =>
        r ← kick_floor w floor;
        match r with
        | Some w' => Some (true, w')
        | None => kick_loop fuel' w (wrapu (floor + 1))
        end
    end
  else Some (false, w).

Definition placeByWallKick (w : Well) : option (bool * Well) := kick_loop 3 w 0.

(** [Well::rotateCWNow]. *)
Definition rotateCWNow (w : Well) : option Well :=
  match active_piece w with
  | None => Some w
  | Some p =>
      let w1 := set_active_piece (Some (rotateCW p)) w in
      c ← hasCollisionAt w1 (active_piece_x w1) (active_piece_y w1);
      r ← (if c : bool then placeByWallKick w1 else Some (true, w1));
      match r with
      | (false, w2) => Some (set_active_piece (rotateCCW <$> active_piece w2) w2)
      | (true, w2) => w3 ← calculateGhostOffset w2; Some (stop_if_infinity w3)
      end
  end.

(** [Well::rotateCCWNow]. *)
Definition rotateCCWNow (w : Well) : option Well :=
  match active_piece w with
  | None => Some w
  | Some p =>
      let w1 := set_active_piece (Some (rotateCCW p)) w in
      c ← hasCollisionAt w1 (active_piece_x w1) (active_piece_y w1);
      r ← (if c : bool then placeByWallKick w1 else Some (true, w1));
      match r with
      | (false, w2) => Some (set_active_piece (rotateCW <$> active_piece w2) w2)
      | (true, w2) => w3 ← calculateGhostOffset w2; Some (stop_if_infinity w3)
      end
  end.

(** [Well::addPiece]: the loop
    [for (active_piece_y = 3; active_piece_y > 0; )] with [--active_piece_y]
    in its body; [(true, w')] is the [return] after a free row was found.
    The loop ends within three rounds, [fuel] counts them. *)
Fixpoint spawn_loop (fuel : nat) (w : Well) : option (bool * Well) :=
  if 0 <? active_piece_y w then
    match fuel with
    | O => None
    | S fuel' =>
        let w1 := set_active_piece_y (wrapu (active_piece_y w - 1)) w in
        c ← hasCollisionAt w1 (active_piece_x w1) (active_piece_y w1);
        if negb c then w2 ← calculateGhostOffset w1; Some (true, w2)
        else spawn_loop fuel' w1
    end
  else Some (false, w).

Definition addPiece (type : PieceType.t) (w : Well) : option Well :=
  let w1 := set_active_piece_x 3 (set_active_piece (Some (make_uptr type)) w) in
  r ← spawn_loop 3 (set_active_piece_y 3 w1);
  match r with
  | (true, w2) => Some w2
  | (false, w2) => w3 ← lockAndReleasePiece w2; Some (set_gameover true w3)
  end.

(** [Well::deletePiece]. *)
Definition deletePiece (w : Well) : Well := set_active_piece None w.

(** [Well::setGravity]. *)
Definition setGravity (duration : Duration) (w : Well) : Well :=
  let w1 := set_gravity_delay (Z.max duration GRAVITY_20G) w in
  set_softdrop_delay (Z.quot (gravity_delay w1) 20) w1.

(** [Well::removeEmptyRows]. *)
Definition removeEmptyRows (w : Well) : option Well :=
  let w1 := notify (LINE_CLEAR (Z.of_nat (size (pending_cleared_rows w)))) w in
  r ← compact_loop (length (matrix w1)) (matrix w1) (pending_cleared_rows w1);
  Some (set_pending_cleared_rows ∅ (set_matrix r.1 w1)).

(** [Well::updateAnimations]. *)
Definition step_animations (l : list WellAnimation) : list WellAnimation :=
  filter (λ a, anim_isActive a = true) (anim_update frame <$> l).

Definition updateAnimations (w : Well) : Well :=
  set_blocking_anims (step_animations (blocking_anims w))
    (set_animations (step_animations (animations w)) w).

(** [Well::updateKeystate]. *)
Definition updateKeystate (events : list InputEvent) (w : Well) : Well :=
  foldl (λ w' e, set_keystates (<[ev_type e := ev_down e]> (keystates w')) w')
        (set_previous_keystates (keystates w) w) events.

(** [Well::handleKeys]: the body of the loop over the events. *)
Definition handle_event (e : InputEvent) (w : Well) : option Well :=
  if ev_down e then
    match ev_type e with
    | InputType.UP | InputType.GAME_HARDDROP =>
        w1 ← hardDrop w; Some (set_skip_gravity true w1)
    | InputType.GAME_HOLD =>
        Some (set_skip_gravity true (notify HOLD_REQUESTED w))
    | _ => Some w
    end
  else
    match ev_type e with
    | InputType.LEFT | InputType.RIGHT => Some (resetDAS w)
    | _ => Some w
    end.

(** The first statement of [handleKeys]; [&&] does not evaluate its second
    operand after a false first one. *)
Definition init_skip_gravity (w : Well) : option Well :=
  d ← keystates w !! InputType.DOWN;
  pd ← (if d : bool then previous_keystates w !! InputType.DOWN else Some false);
  Some (set_skip_gravity (d && pd) w).

(** The rotation block of [handleKeys]. *)
Definition rotation_phase (w : Well) : option Well :=
  let w1 := set_rotation_timer (rotation_timer w - frame) w in
  a ← keystates w1 !! InputType.A;
  b ← keystates w1 !! InputType.B;
  if negb (eqb a b) && (rotation_timer w1 <=? 0) then
    w2 ← (if a : bool then rotateCCWNow w1 else rotateCWNow w1);
    Some (set_rotation_timer (rotation_delay w2) w2)
  else Some w1.

(** The horizontal block of [handleKeys], with the update of DAS. *)
Definition horizontal_phase (w : Well) : option Well :=
  let w1 := set_horizontal_timer (horizontal_timer w - frame) w in
  if horizontal_timer w1 <=? 0 then
    l ← keystates w1 !! InputType.LEFT;
    r ← keystates w1 !! InputType.RIGHT;
    if negb (eqb l r) then
      w2 ← (if l : bool then moveLeftNow w1 else moveRightNow w1);
      let w3 := set_das_timer (das_timer w2 - horizontal_delay_normal w2) w2 in
      let w4 := if das_timer w3 <? 0
                then set_horizontal_delay_current (horizontal_delay_turbo w3) w3
                else w3 in
      Some (set_horizontal_timer (horizontal_delay_current w4) w4)
    else Some w1
  else Some w1.

(** The soft drop block of [handleKeys]. *)
Definition softdrop_phase (w : Well) : option Well :=
  let w1 := set_softdrop_timer (softdrop_timer w - frame) w in
  d ← keystates w1 !! InputType.DOWN;
  if d && (softdrop_timer w1 <=? 0) then
    w2 ← moveDownNow w1;
    Some (set_softdrop_timer (softdrop_delay w2) (set_skip_gravity true w2))
  else Some w1.

Definition handleKeys (events : list InputEvent) (w : Well) : option Well :=
  w1 ← init_skip_gravity w;
  w2 ← for_each handle_event events w1;
  w3 ← rotation_phase w2;
  w4 ← horizontal_phase w3;
  softdrop_phase w4.

(** [Well::updateGravity]: the loop.  It runs [gravity_timer / gravity_delay]
    rounds when the delay is positive, [fuel] counts them. *)
Fixpoint gravity_loop (fuel : nat) (w : Well) : option Well :=
  if gravity_delay w <=? gravity_timer w then
    match fuel with
    | O => None
    | S fuel' =>
        let w1 := set_gravity_timer (gravity_timer w - gravity_delay w) w in
        w2 ← (if negb (skip_gravity w1) then applyGravity w1 else Some w1);
        gravity_loop fuel' w2
    end
  else Some w.

Definition updateGravity (w : Well) : option Well :=
  let w1 := set_gravity_timer (gravity_timer w + frame) w in
  gravity_loop (Z.to_nat (gravity_timer w1 / gravity_delay w1)) w1.

(** [Well::updateLockDelay]; the end callback of the countdown is
    [lockThenRequestNext]. *)
Definition updateLockDelay (w : Well) : option Well :=
  g ← isOnGround w;
  let c := if g : bool then tr_unpause (lock_countdown w)
           else tr_stop (lock_countdown w) in
  let w1 := set_lock_countdown (tr_update frame c).1 w in
  if (tr_update frame c).2 then lockThenRequestNext w1 else Some w1.

(** [Well::update]. *)
Definition update (events : list InputEvent) (w : Well) : option Well :=
  let w1 := updateAnimations w in
  if gameover w1 then Some w1
  else if negb (bool_decide (size (pending_cleared_rows w1) = 0%nat)) then
    if bool_decide (length (blocking_anims w1) = 0%nat) then
      w2 ← removeEmptyRows w1;
      Some (notify NEXT_REQUESTED
              (set_lock_countdown (tr_stop (lock_countdown w2)) w2))
    else Some w1
  else
    w2 ← handleKeys events (updateKeystate events w1);
    if bool_decide (active_piece w2 = None) then Some w2
    else w3 ← updateGravity w2; updateLockDelay w3.

(** Modelled from the spec: the board of a new [Well].  Well.h, which
    declares [matrix], is not at hand; Section 3 gives the width 10 and some
    hidden rows above the visible field, and [Well::draw] shows 20 rows from
    row 2 on, hence 22 rows. *)
Definition empty_matrix : Matrix := replicate 22 (replicate 10 None).

(** [Well::Well]: the key states that the body of the constructor sets. *)
Definition initial_keystates : gmap InputType.t bool :=
  <[InputType.B := false]> (<[InputType.A := false]> (<[InputType.DOWN := false]>
    (<[InputType.RIGHT := false]> (<[InputType.LEFT := false]> ∅)))).

(** [Well::Well]: the member initialisers.  The constructor leaves
    [skip_gravity] without a value; [handleKeys] assigns it before
    [updateGravity] reads it, and it starts as [false] here. *)
Definition Well_new : Well :=
  {| gameover := false;
     matrix := empty_matrix;
     active_piece := None;
     active_piece_x := 0;
     active_piece_y := 0;
     ghost_piece_y := 0;
     gravity_delay := frame_duration_60Hz * 64;
     gravity_timer := 0;
     horizontal_delay_normal := frame_duration_60Hz * 14;
     horizontal_delay_turbo := frame_duration_60Hz * 4;
     horizontal_delay_current := frame_duration_60Hz * 14;
     horizontal_timer := 0;
     das_timer := frame_duration_60Hz * 14;
     softdrop_delay := Z.quot (frame_duration_60Hz * 64) 20;
     softdrop_timer := 0;
     rotation_delay := frame_duration_60Hz * 12;
     rotation_timer := 0;
     harddrop_locks_instantly := true;
     lock_infinity := true;
     lock_countdown := tr_make (frame_duration_60Hz * 30);
     keystates := initial_keystates;
     previous_keystates := initial_keystates;
     skip_gravity := false;
     pending_cleared_rows := ∅;
     animations := [];
     blocking_anims := [];
     notified := [];
     gravity_steps := 0 |}.

End WellModel.

(** ** The piece supply: [class PieceQueue] *)

Section PieceQueueModel.

(** [std::random_shuffle]: [random_shuffle k l] is the arrangement that the
    [k]-th call of the program leaves in the array holding [l]. *)
Variable random_shuffle : nat → list PieceType.t → list PieceType.t.

(** The fields of [PieceQueue] that [next] touches, with the file-level
    array [possible_pieces] and the number of shuffles made so far. *)
Record PieceQueue := mkPieceQueue {
  displayed_piece_count : nat;
  piece_queue : list PieceType.t;
  possible_pieces : list PieceType.t;
  shuffles : nat
}.

(** [PieceQueue::generate_pieces]. *)
Definition generate_pieces (q : PieceQueue) : PieceQueue :=
  let shuffled := random_shuffle (shuffles q) (possible_pieces q) in
  mkPieceQueue (displayed_piece_count q) (piece_queue q ++ shuffled)
               shuffled (S (shuffles q)).

(** [PieceQueue::PieceQueue]; [piece_storage], filled by the constructor,
    is used by [draw] only. *)
Definition PieceQueue_new (displayed : nat) : PieceQueue :=
  generate_pieces (mkPieceQueue displayed [] PieceType.allTypes 0).

(** The condition of the [assert] in [next]. *)
Definition queue_exceeds_preview (q : PieceQueue) : Prop :=
  (displayed_piece_count q < length (piece_queue q))%nat.

(** [PieceQueue::next]: the piece returned and the queue left; [front()] of
    an empty deque is a fault. *)
Definition next (q : PieceQueue) : option (PieceType.t * PieceQueue) :=
  match piece_queue q with
  | [] => None
  | piece :: rest =>
      let q1 := mkPieceQueue (displayed_piece_count q) rest
                             (possible_pieces q) (shuffles q) in
      Some (piece,
            if bool_decide (length (piece_queue q1) ≤ displayed_piece_count q1)%nat
            then generate_pieces q1 else q1)
  end.

(** The pieces returned by [n] successive calls of [next], and the queue
    after them. *)
Fixpoint draws (n : nat) (q : PieceQueue) : option (list PieceType.t * PieceQueue) :=
  match n with
  | O => Some ([], q)
  | S n' =>
      r ← next q;
      rs ← draws n' r.2;
      Some (r.1 :: rs.1, rs.2)
  end.

(** A window of [len] consecutive draws that starts after [skip] draws. *)
Definition window (skip len : nat) (l : list PieceType.t) : list PieceType.t :=
  take len (drop skip l).

Definition covers_all_types (l : list PieceType.t) : Prop :=
  ∀ t, t ∈ PieceType.allTypes → t ∈ l.

End PieceQueueModel.

(** ** Definitions used to state the properties *)

(** What the inner loop tests at one board position. *)
Definition blocked (m : Matrix) (row cell : Z) : bool :=
  if (row <? height m) && (0 <=? cell) && (cell <? width m)
  then has_mino (board m row cell)
  else true.

(** Whether an occupied mask cell of grid row [gy], in one of the columns
    [cols], is blocked on board row [row]. *)
Definition row_hits (m : Matrix) (g : Grid) (x row : Z) (gy : nat) (cols : list nat) : bool :=
  existsb (λ j, has_mino (mask g gy j) && blocked m row (x + Z.of_nat j)) cols.

(** The same over the grid rows [rows]. *)
Definition grid_hits (m : Matrix) (g : Grid) (x y : Z) (rows : list nat) : bool :=
  existsb (λ i, row_hits m g x (y + Z.of_nat i) i (seq 0 4)) rows.


(** The board position that the guard of [lockAndReleasePiece] lets the grid
    cell [(i, j)] reach, [None] when the guard skips the cell. *)
Definition lock_target (m : Matrix) (x y : Z) (i j : nat) : option (Z * Z) :=
  let r := wrapu (y + Z.of_nat i) in
  let c := wrapu (x + Z.of_nat j) in
  if (height m <=? r) || (width m <=? c) || (x + Z.of_nat j <? 0)
  then None else Some (r, c).

(** The board after the grid cell [ij] of [g] was handled. *)
Definition lock_write (g : Grid) (x y : Z) (m : Matrix) (ij : nat * nat) : Matrix :=
  match lock_target m x y ij.1 ij.2 with
  | Some (r, c) =>
      if has_mino (mask g ij.1 ij.2) then matrix_set m r c (mask g ij.1 ij.2) else m
  | None => m
  end.

(** The board after the grid cells [ps] were handled, in this order. *)
Definition locked (g : Grid) (x y : Z) (m : Matrix) (ps : list (nat * nat)) : Matrix :=
  foldl (lock_write g x y) m ps.

(** The sixteen grid positions in the order of the two loops. *)
Definition grid_positions : list (nat * nat) :=
  i ← [0; 1; 2; 3]%nat; j ← [0; 1; 2; 3]%nat; [(i, j)].

(** *** The wall kick *)

Definition is_I (p : Piece) : bool := bool_decide (piece_type p = PieceType.I).

(** The floor levels and the column shifts of the wall kick, in the order in
    which the specification lists them. *)
Definition kick_floors (p : Piece) : list Z :=
  if is_I p then [0; 1; 2] else [0; 1].

Definition kick_shifts (p : Piece) : list Z :=
  if is_I p then [1; -1; 2; -2] else [1; -1].

(** The candidates [(shift, floor)], floor by floor. *)
Definition kick_candidates (p : Piece) : list (Z * Z) :=
  f ← kick_floors p; dx ← kick_shifts p; [(dx, f)].

(** The highest floor level tried. *)
Definition top_floor (p : Piece) : Z := if is_I p then 2 else 1.

(** The two directions of a rotation. *)
Inductive Direction := CW | CCW.

Definition turn (d : Direction) (p : Piece) : Piece :=
  match d with CW => rotateCW p | CCW => rotateCCW p end.

Section WellSpecs.
Context `{Collaborators}.

(** The piece fits at [(x, y)]: the collision test returns false. *)
Definition free_at (w : Well) (x y : Z) : bool :=
  match hasCollisionAt w x y with
  | Some false => true
  | _ => false
  end.

(** The collision test returns true at [(x, y)]. *)
Definition collides_at (w : Well) (x y : Z) : bool :=
  match hasCollisionAt w x y with
  | Some true => true
  | _ => false
  end.

Definition kick_free (w : Well) (c : Z * Z) : bool :=
  free_at w (active_piece_x w + c.1) (wrapu (active_piece_y w - c.2)).

(** The outcome of the search when [found] is the accepted candidate. *)
Definition kick_result (w : Well) (found : option (Z * Z)) : bool * Well :=
  match found with
  | Some (dx, f) => (true, kick_to w dx f)
  | None => (false, w)
  end.

(** The wall kick as the specification words it: the first candidate at
    which the piece fits is taken. *)
Definition wallkick_as_claimed (w : Well) : Prop :=
  ∀ p, active_piece w = Some p →
    placeByWallKick w
    = Some (kick_result w (List.find (kick_free w) (kick_candidates p))).

(** The two-column shifts are tried only where the code lets them: to the
    right while the column offset stays left of the board's right edge, to
    the left while it stays non-negative. *)
Definition kick_in_range (w : Well) (c : Z * Z) : bool :=
  (if c.1 =? 2 then active_piece_x w + 2 <? width (matrix w) else true)
  && (if c.1 =? -2 then 0 <=? active_piece_x w - 2 else true).

Definition guarded_candidates (w : Well) (p : Piece) : list (Z * Z) :=
  List.filter (kick_in_range w) (kick_candidates p).

(** A rotation to the piece [q] is blocked: [q] collides where the piece
    is, and at every candidate of the wall kick. *)
Definition rotation_blocked (w : Well) (q : Piece) : bool :=
  let w1 := set_active_piece (Some q) w in
  collides_at w1 (active_piece_x w1) (active_piece_y w1)
  && forallb (λ c, collides_at w1 (active_piece_x w1 + c.1)
                                  (wrapu (active_piece_y w1 - c.2)))
             (kick_candidates q).

(** [w'] differs from [w] at most in the board, the active piece and the
    list of animations. *)
Definition lock_frame (w w' : Well) : Prop :=
  w' = set_animations (animations w')
         (set_active_piece (active_piece w') (set_matrix (matrix w') w)).

(** What [checkLineclear] keeps of [w0], with [P] the pending set it
    leaves: the height of the board and its rows outside [P], the game over
    flag, the active piece and the events notified. *)
Definition clear_inv (w0 : Well) (P : gset nat) (s : Well) : Prop :=
  length (matrix s) = length (matrix w0)
  ∧ (∀ r : nat, r ∉ P → matrix s !! r = matrix w0 !! r)
  ∧ gameover s = gameover w0
  ∧ active_piece s = active_piece w0
  ∧ notified s = notified w0
  ∧ pending_cleared_rows s = P.

(** The playfield with a new piece of type [type] at the spawn column and
    the row offset [y]. *)
Definition spawned (type : PieceType.t) (w : Well) (y : Z) : Well :=
  set_active_piece_y y
    (set_active_piece_x 3 (set_active_piece (Some (make_uptr type)) w)).

(** The rows that [addPiece] probes, in its order. *)
Definition spawn_rows : list Z := [2; 1; 0].

(** The new piece collides on every row that [addPiece] probes. *)
Definition spawn_blocked (type : PieceType.t) (w : Well) : bool :=
  forallb (λ y, collides_at (spawned type w y) 3 y) spawn_rows.

Definition rotate_now (d : Direction) (w : Well) : option Well :=
  match d with CW => rotateCWNow w | CCW => rotateCCWNow w end.

End WellSpecs.

(** *** Compaction of the board *)

(** The rows of [l] whose index, counted from [i0], satisfies [f]. *)
Fixpoint rows_where {A} (f : nat → bool) (i0 : nat) (l : list A) : list A :=
  match l with
  | [] => []
  | r :: l' =>
      if f i0 then r :: rows_where f (S i0) l' else rows_where f (S i0) l'
  end.

(** The rows that survive a clear of the rows in [P], top to bottom, and the
    rows that are cleared. *)
Definition surviving_rows (P : gset nat) (m : Matrix) : Matrix :=
  rows_where (λ i, negb (bool_decide (i ∈ P))) 0 m.

Definition cleared_rows (P : gset nat) (m : Matrix) : Matrix :=
  rows_where (λ i, bool_decide (i ∈ P)) 0 m.

(** The number of indices [j] with [i0 ≤ j < i0 + n] that satisfy [f]. *)
Definition count_from (f : nat → bool) (i0 n : nat) : nat :=
  length (List.filter f (seq i0 n)).

(** The number of rows of [P] below row [i] on a board of [h] rows. *)
Definition cleared_below (P : gset nat) (h i : nat) : nat :=
  count_from (λ j, bool_decide (j ∈ P)) (S i) (h - S i).

(** *** Keys, soft drop and gravity *)

Section FrameSpecs.
Context `{Collaborators}.

(** What the moves and rotations leave as it is. *)
Definition moves_keep (w : Well) :=
  (matrix w, keystates w, previous_keystates w, skip_gravity w,
   softdrop_timer w, softdrop_delay w, gravity_delay w, gravity_timer w,
   gravity_steps w).

(** What a step down, with the lock it may start, leaves as it is. *)
Definition drops_keep (w : Well) :=
  (active_piece_x w, previous_keystates w, skip_gravity w,
   softdrop_timer w, softdrop_delay w, gravity_delay w, gravity_timer w,
   gravity_steps w).





(** The event is the press of a hard drop button. *)
Definition is_harddrop (e : InputEvent) : bool :=
  ev_down e &&
  match ev_type e with
  | InputType.UP | InputType.GAME_HARDDROP => true
  | _ => false
  end.

(** The frame of [update] on [events] from the keys to gravity, which runs
    when a piece is active after the keys: the state after the keys and the
    state after gravity. *)
Definition keys_then_gravity (events : list InputEvent) (w : Well)
  : option (Well * Well) :=
  w1 ← handleKeys events (updateKeystate events w);
  if bool_decide (active_piece w1 = None) then None
  else w2 ← updateGravity w1; Some (w1, w2).


End FrameSpecs.

(** *** Horizontal moves *)

Section MoveSpecs.
Context `{Collaborators}.

(** The column offset after a move by one column. *)
Definition shifted (left : bool) (x : Z) : Z := if left then x - 1 else x + 1.

(** The bounds that [moveLeftNow] and [moveRightNow] test first. *)
Definition shift_in_range (left : bool) (w : Well) : bool :=
  if left then negb (active_piece_x w - 1 <=? -3)
  else negb (width (matrix w) <=? active_piece_x w + 1).


End MoveSpecs.

(** *** The piece supply *)

(** C7 as the specification words it, for the supply built with the
    shuffle [random_shuffle] and the preview size [displayed]: every window
    of seven consecutive draws holds every piece type. *)
Definition every_window_covers (random_shuffle : nat → list PieceType.t → list PieceType.t)
    (displayed : nat) : Prop :=
  ∀ (n skip : nat) (l : list PieceType.t) (q : PieceQueue),
    draws random_shuffle n (PieceQueue_new random_shuffle displayed) = Some (l, q) →
    (skip + 7 ≤ n)%nat →
    covers_all_types (window skip 7 l).

(** A shuffle that reverses the array each time. *)
Definition shuffle_reverse (k : nat) (l : list PieceType.t) : list PieceType.t :=
  rev l.

(** The draws made so far, [pre], and the queue are a row of bags, each a
    permutation of the seven types; the queue is not empty. *)
Definition bagged (pre : list PieceType.t) (q : PieceQueue) : Prop :=
  ∃ bags : list (list PieceType.t),
    Forall (λ b, b ≡ₚ PieceType.allTypes) bags
    ∧ pre ++ piece_queue q = concat bags
    ∧ possible_pieces q ≡ₚ PieceType.allTypes
    ∧ piece_queue q ≠ [].


(** *** Full rows *)

(** Row [r] of the board is full. *)
Definition is_full (m : Matrix) (r : nat) : bool :=
  match m !! r with Some row => row_filled row | None => false end.

(** A row with every cell set to null. *)
Definition emptied (row : list Cell) : list Cell := replicate (length row) None.

(** The rows of the pending set that lie below the two hidden rows, in
    ascending order: the rows that get a line clear animation. *)
Definition animated_rows (P : gset nat) : list nat :=
  List.filter (λ r, 2 <=? Z.of_nat r) (ascending P).

(** What the code takes for granted of the board: it is rectangular, has
    the rows that [addPiece] probes, and is far lower than the range of
    [unsigned]. *)
Definition board_ok (m : Matrix) : Prop :=
  rectangular m ∧ 3 ≤ height m ∧ height m + 3 < UINT_MAX.

(** *** The piece on the board *)

Section PlaySpecs.
Context `{Collaborators}.

(** The active piece lies where it collides with nothing. *)
Definition fits (w : Well) : Prop :=
  hasCollisionAt w (active_piece_x w) (active_piece_y w) = Some false.

(** What the code takes for granted of a playfield with the active piece
    [p]: the board is rectangular and far lower than the range of
    [unsigned], and the row offset of the piece is a row of the board (the
    [assert] of [hasCollisionAt]). *)
Definition playable (w : Well) (p : Piece) : Prop :=
  active_piece w = Some p
  ∧ rectangular (matrix w)
  ∧ height (matrix w) + 3 < UINT_MAX
  ∧ 0 ≤ active_piece_y w < height (matrix w).

(** [ghost_piece_y] is the row that [calculateGhostOffset] finds from the
    position of the piece: not above the piece, reached over free rows, and
    with no free row below it. *)
Definition ghost_ok (w : Well) : Prop :=
  active_piece_y w ≤ ghost_piece_y w < height (matrix w)
  ∧ (∀ r : Z, active_piece_y w < r ≤ ghost_piece_y w →
       free_at w (active_piece_x w) r = true)
  ∧ (ghost_piece_y w + 1 = height (matrix w)
     ∨ free_at w (active_piece_x w) (ghost_piece_y w + 1) = false).

(** The piece [p] is in play: it fits where it is and its ghost row is up
    to date. *)
Definition placed (w : Well) (p : Piece) : Prop :=
  playable w p ∧ fits w ∧ ghost_ok w.

(** The settings of the playfield, which no member function assigns after
    the constructor. *)
Definition settings (w : Well) :=
  (harddrop_locks_instantly w, lock_infinity w, horizontal_delay_normal w,
   horizontal_delay_turbo w, rotation_delay w).

(** No piece is active, or a piece is in play. *)
Definition settled (w : Well) : Prop :=
  active_piece w = None ∨ ∃ p : Piece, placed w p.

(** [update], frame after frame, on the events of each frame. *)
Definition run_frames (frames : list (list InputEvent)) (w : Well) : option Well :=
  for_each update frames w.

(** The animation step of [n] frames. *)
Definition age_animations (n : nat) (l : list WellAnimation) : list WellAnimation :=
  Nat.iter n step_animations l.

(** The last event of the frame for the key [k]. *)
Definition last_event_of (k : InputType.t) (events : list InputEvent)
  : option InputEvent :=
  last (filter (λ e, ev_type e = k) events).

(** What the moves and rotations leave as it is, besides [moves_keep]. *)
Definition moves_rest (w : Well) :=
  (settings w, pending_cleared_rows w, gameover w, notified w).

(** The keys that [handleKeys] reads have a state. *)
Definition keys_ready (ks : gmap InputType.t bool) : Prop :=
  ∀ k : InputType.t,
    k ∈ [InputType.LEFT; InputType.RIGHT; InputType.DOWN; InputType.A; InputType.B] →
    is_Some (ks !! k).

(** The number of presses of a hard drop button among the events. *)
Definition hard_drops (events : list InputEvent) : nat :=
  length (List.filter is_harddrop events).

(** No row is pending that the board does not have. *)
Definition pending_on_board (w : Well) : Prop :=
  ∀ r : nat, r ∈ pending_cleared_rows w → (r < length (matrix w))%nat.

(** The playfield during a game, between two frames: no piece is active or
    a piece is in play; the pending rows are rows of the board, and while
    rows are pending no piece is active; the keys have a state; a hard drop
    locks; the gravity delay is above zero and the gravity timer is not
    negative; the board is as the code takes it to be. *)
Definition in_game (w : Well) : Prop :=
  settled w
  ∧ pending_on_board w
  ∧ (pending_cleared_rows w = ∅ ∨ active_piece w = None)
  ∧ keys_ready (keystates w)
  ∧ harddrop_locks_instantly w = true
  ∧ 0 < gravity_delay w ∧ 0 ≤ gravity_timer w
  ∧ board_ok (matrix w).

(** What the code takes for granted of the events of a frame: a hard drop
    is pressed only with an active piece, and once ([hardDrop] asserts the
    piece, and the first hard drop releases it); and an active piece is not
    above row 2, so that the wall kick can lift it by each of its floor
    levels. *)
Definition frame_safe (events : list InputEvent) (w : Well) : Prop :=
  (hard_drops events ≤ match active_piece w with Some _ => 1 | None => 0 end)%nat
  ∧ (∀ p : Piece, active_piece w = Some p → 2 ≤ active_piece_y w).

End PlaySpecs.

(** *** The preview of the piece supply *)

(** [PieceQueue::draw]: the pieces that it draws, from the top down;
    [None] stands for the [std::out_of_range] of [piece_queue.at(i)]. *)
Definition drawn_pieces (q : PieceQueue) : option (list PieceType.t) :=
  mapM (λ i, piece_queue q !! i) (seq 0 (displayed_piece_count q)).

(** What the constructor and [next] keep of a supply with the preview size
    [d]: the array holds seven types, and the queue is longer than the
    preview by at most seven. *)
Definition supply_inv (d : nat) (q : PieceQueue) : Prop :=
  displayed_piece_count q = d
  ∧ length (possible_pieces q) = 7%nat
  ∧ (d < length (piece_queue q) ≤ d + 7)%nat.

(** ** Concrete collaborators, pieces and boards for the examples *)

Definition tabulate4 {A} (f : nat → A) : Arr4 A :=
  mk4 (f 0%nat) (f 1%nat) (f 2%nat) (f 3%nat).

(** A grid from four rows of flags. *)
Definition grid_of (t : PieceType.t) (rows : Arr4 (Arr4 bool)) : Grid :=
  tabulate4 (λ i, tabulate4 (λ j,
    match at4 rows i ≫= λ r, at4 r j with
    | Some true => Some (mkMino t)
    | _ => None
    end)).

(** A quarter turn clockwise inside the top left [n]x[n] box of a grid. *)
Definition turn_box (n : nat) (g : Grid) : Grid :=
  tabulate4 (λ i, tabulate4 (λ j,
    if (i <? n)%nat && (j <? n)%nat then mask g (n - 1 - j) i else None)).

Definition frames_of (n : nat) (g : Grid) : Arr4 Grid :=
  mk4 g (turn_box n g) (turn_box n (turn_box n g))
      (turn_box n (turn_box n (turn_box n g))).

Definition demo_frame0 (t : PieceType.t) : Arr4 (Arr4 bool) :=
  let o := false in let x := true in
  match t with
  | PieceType.I => mk4 (mk4 o o o o) (mk4 x x x x) (mk4 o o o o) (mk4 o o o o)
  | PieceType.J => mk4 (mk4 x o o o) (mk4 x x x o) (mk4 o o o o) (mk4 o o o o)
  | PieceType.L => mk4 (mk4 o o x o) (mk4 x x x o) (mk4 o o o o) (mk4 o o o o)
  | PieceType.O => mk4 (mk4 o x x o) (mk4 o x x o) (mk4 o o o o) (mk4 o o o o)
  | PieceType.S => mk4 (mk4 o x x o) (mk4 x x o o) (mk4 o o o o) (mk4 o o o o)
  | PieceType.T => mk4 (mk4 o x o o) (mk4 x x x o) (mk4 o o o o) (mk4 o o o o)
  | PieceType.Z => mk4 (mk4 x x o o) (mk4 o x x o) (mk4 o o o o) (mk4 o o o o)
  end.

(** The seven pieces in the usual arrangement of their four frames. *)
Definition demo_piece (t : PieceType.t) : Piece :=
  let g := grid_of t (demo_frame0 t) in
  mkPiece t R0
    match t with
    | PieceType.I => frames_of 4 g
    | PieceType.O => mk4 g g g g
    | _ => frames_of 3 g
    end.

(** A countdown: time left, duration, running or not. *)
Record DemoCountdown := mkDemoCountdown {
  cd_left : Duration;
  cd_duration : Duration;
  cd_running : bool
}.

Definition demo_countdown_update (d : Duration) (c : DemoCountdown)
  : DemoCountdown * bool :=
  if cd_running c then
    if cd_left c - d <=? 0 then (mkDemoCountdown 0 (cd_duration c) false, true)
    else (mkDemoCountdown (cd_left c - d) (cd_duration c) true, false)
  else (c, false).

(** Collaborators at 60 frames per second, durations in nanoseconds; an
    animation is the time it has left. *)
Definition demo : Collaborators := {|
  Transition := DemoCountdown;
  tr_make := λ d, mkDemoCountdown d d false;
  tr_stop := λ c, mkDemoCountdown (cd_duration c) (cd_duration c) false;
  tr_unpause := λ c, mkDemoCountdown (cd_left c) (cd_duration c) true;
  tr_running := cd_running;
  tr_update := demo_countdown_update;
  WellAnimation := Duration;
  anim_update := λ d a, a - d;
  anim_isActive := λ a, 0 <? a;
  CellLockAnim := λ _ _, 200000000;
  LineClearAnim := λ _, 500000000;
  frame_duration_60Hz := 16666666;
  GameState_frame_duration := 16666666;
  GRAVITY_20G := 833333;
  make_uptr := demo_piece
|}.

(** A board from rows of flags; the minos carry the type [t]. *)
Definition board_of (t : PieceType.t) (rows : list (list bool)) : Matrix :=
  map (map (λ b : bool, if b then Some (mkMino t) else None)) rows.

(** A new playfield with the board [m] and the piece [p] at [(x, y)]. *)
Definition demo_well (m : Matrix) (p : Piece) (x y : Z) : @Well demo :=
  set_matrix m (set_active_piece (Some p)
    (set_active_piece_x x (set_active_piece_y y
      (set_ghost_piece_y y (@Well_new demo))))).

(** A T piece that hangs over the left and the lower edge of the empty
    board. *)
Definition overhanging_well : @Well demo :=
  demo_well empty_matrix (demo_piece PieceType.T) (-1) 21.

(** A board with minos in columns 2 to 5 of row 12, and an I piece, turned
    upright, in column offset 1 at row offset 10. *)
Definition ledge_matrix : Matrix :=
  let x := Some (mkMino PieceType.O) in
  <[12%nat := [None; None; x; x; x; x; None; None; None; None]]> empty_matrix.

Definition ledge_well : @Well demo :=
  demo_well ledge_matrix (rotateCW (demo_piece PieceType.I)) 1 10.

(** A full board with a hole in the shape of the T piece in its first
    frame, and the piece in the hole. *)
Definition snug_matrix : Matrix :=
  let full := replicate 22 (replicate 10 (Some (mkMino PieceType.O))) in
  matrix_set (matrix_set (matrix_set (matrix_set full 10 4 None) 11 3 None)
                         11 4 None) 11 5 None.

Definition snug_well : @Well demo :=
  demo_well snug_matrix (demo_piece PieceType.T) 3 10.

(** A board whose columns 4 and 5 are filled up to the top row, and a new
    playfield with this board and no piece. *)
Definition stacked_matrix : Matrix :=
  let x := Some (mkMino PieceType.J) in
  replicate 22 [None; None; None; None; x; x; None; None; None; None].

Definition stacked_well : @Well demo := set_matrix stacked_matrix (@Well_new demo).

(** A board whose rows 19 and 21 were cleared and are pending, with minos
    in rows 18 and 20, and a line clear animation with 10 ms left. *)
Definition clearing_matrix : Matrix :=
  let x := Some (mkMino PieceType.S) in
  let y := Some (mkMino PieceType.L) in
  <[18%nat := [x; x; None; None; None; None; None; None; None; None]]>
    (<[20%nat := [y; y; y; None; y; y; y; y; y; y]]> empty_matrix).

Definition clearing_well : @Well demo :=
  set_pending_cleared_rows ({[19%nat]} ∪ {[21%nat]})
    (set_blocking_anims [(10000000 : @WellAnimation demo)]
      (set_matrix clearing_matrix (@Well_new demo))).

(** DOWN held since the frame before, a soft drop two frames ago, and the
    gravity timer one frame before the end of its interval. *)
Definition held_well : @Well demo :=
  set_keystates (<[InputType.DOWN := true]> initial_keystates)
    (set_previous_keystates (<[InputType.DOWN := true]> initial_keystates)
      (set_softdrop_timer 36666665
        (set_gravity_timer (63 * 16666666)
          (demo_well empty_matrix (demo_piece PieceType.T) 3 10)))).


(** A new game with a T piece at its spawn position and LEFT down. *)
Definition pressing_well : @Well demo :=
  set_keystates (<[InputType.LEFT := true]> initial_keystates)
    (demo_well empty_matrix (demo_piece PieceType.T) 3 2).

(** A T piece at its spawn position over the board with the ledge in row
    12, with its ghost row. *)
Definition falling_well : @Well demo :=
  set_ghost_piece_y 10 (demo_well ledge_matrix (demo_piece PieceType.T) 3 2).

(** A board with three minos in row 19, row 20 full, row 21 full but for
    column 3, and row 18 full; no piece. *)
Definition filled_matrix : Matrix :=
  let x := Some (mkMino PieceType.S) in
  let o : Cell := None in
  <[18%nat := replicate 10 x]>
    (<[19%nat := [x; x; o; o; x; o; o; o; o; o]]>
      (<[20%nat := replicate 10 x]>
        (<[21%nat := [x; x; x; o; x; x; x; x; x; x]]> empty_matrix))).

Definition filled_well : @Well demo := set_matrix filled_matrix (@Well_new demo).

(** The falling T piece with the gravity timer one frame before the end of
    its interval. *)
Definition dropping_well : @Well demo :=
  set_gravity_timer (63 * 16666666) falling_well.

(** A board with minos in columns 3 to 6 of row 2, and a T piece at the
    spawn column on row 0, the first row on which [addPiece] finds it to
    fit. *)
Definition crowded_matrix : Matrix :=
  let x := Some (mkMino PieceType.Z) in
  <[2%nat := [None; None; None; x; x; x; x; None; None; None]]> empty_matrix.

Definition crowded_well : @Well demo :=
  demo_well crowded_matrix (demo_piece PieceType.T) 3 0.

(** * Properties *)

(** ** Arithmetic of unsigned values *)

Lemma wrapu_small (z : Z) : 0 ≤ z → z ≤ UINT_MAX → wrapu z = z.
Proof. intros H0 H1. unfold wrapu, UINT_MAX in *. apply Z.mod_small. lia. Qed.

Lemma wrapu_range (z : Z) : 0 ≤ wrapu z ≤ UINT_MAX.
Proof.
  unfold wrapu, UINT_MAX.
  pose proof (Z.mod_pos_bound z 4294967296). lia.
Qed.

(** ** Lookups in the board and in a grid *)

Lemma grid_at_mask (g : Grid) (i j : nat) :
  (i < 4)%nat → (j < 4)%nat → grid_at g i j = Some (mask g i j).
Proof.
  intros Hi Hj. unfold mask, grid_at.
  destruct i as [|[|[|[|i]]]]; try lia;
    destruct j as [|[|[|[|j]]]]; try lia; reflexivity.
Qed.

Lemma rectangular_lookup (m : Matrix) (i : nat) (r : list Cell) :
  rectangular m → m !! i = Some r → Z.of_nat (length r) = width m.
Proof.
  intros Hrect Hr. unfold rectangular in Hrect.
  rewrite Forall_forall in Hrect. apply Hrect.
  eapply list_elem_of_lookup_2. exact Hr.
Qed.

Lemma matrix_at_in_bounds (m : Matrix) (row cell : Z) :
  rectangular m → 0 ≤ row < height m → 0 ≤ cell < width m →
  is_Some (matrix_at m row cell).
Proof.
  intros Hrect Hrow Hcell. unfold matrix_at, height in *.
  replace (row <? 0) with false by lia.
  replace (cell <? 0) with false by lia.
  destruct (lookup_lt_is_Some_2 m (Z.to_nat row)) as [r Hr]; [lia|].
  rewrite Hr. simpl.
  apply lookup_lt_is_Some_2.
  pose proof (rectangular_lookup m _ r Hrect Hr). lia.
Qed.

Lemma matrix_at_Some_bounds (m : Matrix) (row cell : Z) (c : Cell) :
  rectangular m → matrix_at m row cell = Some c →
  0 ≤ row < height m ∧ 0 ≤ cell < width m.
Proof.
  intros Hrect. unfold matrix_at, height.
  destruct (row <? 0) eqn:Hr0; [discriminate|].
  destruct (cell <? 0) eqn:Hc0; [discriminate|].
  destruct (m !! Z.to_nat row) as [r|] eqn:Hr; [|discriminate]. simpl.
  intros Hc.
  pose proof (lookup_lt_Some _ _ _ Hr).
  pose proof (lookup_lt_Some _ _ _ Hc).
  pose proof (rectangular_lookup m _ r Hrect Hr). lia.
Qed.

(** ** The collision test *)

Lemma board_has_mino_here_blocked (m : Matrix) (row cell : Z) :
  rectangular m → 0 ≤ row →
  board_has_mino_here m row cell = Some (blocked m row cell).
Proof.
  intros Hrect Hrow. unfold board_has_mino_here, blocked, board.
  destruct ((row <? height m) && (0 <=? cell) && (cell <? width m)) eqn:Hin;
    [|reflexivity].
  destruct (matrix_at_in_bounds m row cell Hrect) as [c Hc]; [lia|lia|].
  rewrite Hc. reflexivity.
Qed.

Lemma cells_loop_hits (m : Matrix) (g : Grid) (x row : Z) (gy : nat) :
  rectangular m → 0 ≤ row → (gy < 4)%nat →
  ∀ (k gx : nat) (cell : Z), cell = x + Z.of_nat gx → (k + gx = 4)%nat →
  cells_loop m (Some g) k x row cell gy gx = Some (row_hits m g x row gy (seq gx k)).
Proof.
  intros Hrect Hrow Hgy. induction k as [|k IH]; intros gx cell -> Hk.
  - simpl. replace (x + Z.of_nat gx <=? x + 3) with false by lia. reflexivity.
  - simpl. replace (x + Z.of_nat gx <=? x + 3) with true by lia.
    rewrite board_has_mino_here_blocked by assumption. simpl.
    rewrite grid_at_mask by lia. simpl.
    destruct (has_mino (mask g gy gx) && blocked m row (x + Z.of_nat gx)); [reflexivity|].
    simpl. rewrite IH by lia. reflexivity.
Qed.

Lemma rows_loop_hits (m : Matrix) (g : Grid) (x y : Z) :
  rectangular m → 0 ≤ y → y + 3 < UINT_MAX →
  ∀ (k gy : nat) (row : Z), row = y + Z.of_nat gy → (k + gy = 4)%nat →
  rows_loop m (Some g) k x y row gy = Some (grid_hits m g x y (seq gy k)).
Proof.
  intros Hrect Hy Hmax.
  assert (Hlim : wrapu (y + 3) = y + 3) by (apply wrapu_small; lia).
  induction k as [|k IH]; intros gy row -> Hk.
  - simpl. rewrite Hlim.
    replace (y + Z.of_nat gy <=? y + 3) with false by lia. reflexivity.
  - cbn [rows_loop]. rewrite Hlim.
    replace (y + Z.of_nat gy <=? y + 3) with true by lia.
    rewrite (cells_loop_hits m g x (y + Z.of_nat gy) gy Hrect) by lia.
    cbn [mbind option_bind].
    change (seq gy (S k)) with (gy :: seq (S gy) k).
    change (grid_hits m g x y (gy :: seq (S gy) k))
      with (row_hits m g x (y + Z.of_nat gy) gy (seq 0 4)
            || grid_hits m g x y (seq (S gy) k)).
    destruct (row_hits m g x (y + Z.of_nat gy) gy (seq 0 4)); [reflexivity|].
    cbn [orb]. rewrite wrapu_small by (unfold UINT_MAX in *; lia).
    apply IH; lia.
Qed.

Lemma collides_hits (m : Matrix) (g : Grid) (x y : Z) :
  rectangular m → 0 ≤ y → y + 3 < UINT_MAX →
  collides m (Some g) x y = Some (grid_hits m g x y (seq 0 4)).
Proof.
  intros Hrect Hy Hmax. unfold collides.
  apply rows_loop_hits; auto with lia.
Qed.


Lemma blocked_true_iff (m : Matrix) (row cell : Z) :
  rectangular m → 0 ≤ row →
  blocked m row cell = true ↔
  is_Some (board m row cell) ∨ cell < 0 ∨ width m ≤ cell ∨ height m ≤ row.
Proof.
  intros Hrect Hrow. unfold blocked.
  destruct ((row <? height m) && (0 <=? cell) && (cell <? width m)) eqn:Hin.
  - split.
    + intros Hm. left. destruct (board m row cell); [eauto|discriminate].
    + intros [[c Hc]|?]; [rewrite Hc; reflexivity|lia].
  - split; [|reflexivity]. intros _.
    destruct (decide (height m ≤ row)); [tauto|].
    destruct (decide (cell < 0)); [tauto|].
    destruct (decide (width m ≤ cell)); [tauto|]. lia.
Qed.

Lemma grid_hits_iff (m : Matrix) (g : Grid) (x y : Z) :
  rectangular m → 0 ≤ y →
  grid_hits m g x y (seq 0 4) = true ↔
  ∃ i j : nat, (i < 4)%nat ∧ (j < 4)%nat ∧ is_Some (mask g i j) ∧
    (is_Some (board m (y + Z.of_nat i) (x + Z.of_nat j))
     ∨ x + Z.of_nat j < 0 ∨ width m ≤ x + Z.of_nat j
     ∨ height m ≤ y + Z.of_nat i).
Proof.
  intros Hrect Hy. unfold grid_hits, row_hits.
  rewrite existsb_exists. split.
  - intros (i & Hi & Hrow). apply existsb_exists in Hrow as (j & Hj & Hcell).
    apply in_seq in Hi, Hj. apply andb_true_iff in Hcell as [Hp Hb].
    exists i, j. split; [lia|]. split; [lia|]. split.
    + destruct (mask g i j); [eauto|discriminate].
    + apply blocked_true_iff in Hb; [exact Hb|assumption|lia].
  - intros (i & j & Hi & Hj & [c Hp] & Hb).
    exists i. split; [apply in_seq; lia|].
    apply existsb_exists. exists j. split; [apply in_seq; lia|].
    rewrite Hp. simpl. apply blocked_true_iff; [assumption|lia|exact Hb].
Qed.

Section WellFacts.
Context `{Collaborators}.

Lemma hasCollisionAt_hits (w : Well) (p : Piece) (offset_x offset_y : Z) :
  active_piece w = Some p → rectangular (matrix w) →
  0 ≤ offset_y → offset_y + 3 < UINT_MAX →
  hasCollisionAt w offset_x offset_y
  = Some (grid_hits (matrix w) (currentGrid p) offset_x offset_y (seq 0 4)).
Proof.
  intros Hp Hrect Hy Hmax. unfold hasCollisionAt. rewrite Hp.
  apply collides_hits; assumption.
Qed.

(** C1: with an active piece on a rectangular board and a row offset that
    the unsigned row counter can pass without wrapping, [hasCollisionAt]
    returns, and it returns true exactly when some occupied cell of the 4x4
    mask lies, at the offset, on an occupied board cell, left or right of
    the board, or below its last row; so occupied mask cells over empty
    cells of the board do not collide, and without a conflict the result is
    false. *)
Theorem hasCollisionAt_iff (w : Well) (p : Piece) (offset_x offset_y : Z) :
  active_piece w = Some p →
  rectangular (matrix w) →
  0 ≤ offset_y → offset_y + 3 < UINT_MAX →
  ∃ b : bool,
    hasCollisionAt w offset_x offset_y = Some b ∧
    (b = true ↔
     ∃ i j : nat, (i < 4)%nat ∧ (j < 4)%nat ∧
       is_Some (mask (currentGrid p) i j) ∧
       (is_Some (board (matrix w) (offset_y + Z.of_nat i) (offset_x + Z.of_nat j))
        ∨ offset_x + Z.of_nat j < 0
        ∨ width (matrix w) ≤ offset_x + Z.of_nat j
        ∨ height (matrix w) ≤ offset_y + Z.of_nat i)).
Proof.
  intros Hp Hrect Hy Hmax.
  exists (grid_hits (matrix w) (currentGrid p) offset_x offset_y (seq 0 4)).
  split.
  - apply hasCollisionAt_hits; assumption.
  - apply grid_hits_iff; assumption.
Qed.

End WellFacts.

Lemma rectangular_empty_matrix : rectangular empty_matrix.
Proof. unfold rectangular. repeat constructor. Qed.

Lemma hasCollisionAt_iff_witness :
  ∃ b : bool,
    hasCollisionAt (demo_well empty_matrix (demo_piece PieceType.T) 3 2) 3 20 = Some b ∧
    (b = true ↔
     ∃ i j : nat, (i < 4)%nat ∧ (j < 4)%nat ∧
       is_Some (mask (currentGrid (demo_piece PieceType.T)) i j) ∧
       (is_Some (board empty_matrix (20 + Z.of_nat i) (3 + Z.of_nat j))
        ∨ 3 + Z.of_nat j < 0
        ∨ width empty_matrix ≤ 3 + Z.of_nat j
        ∨ height empty_matrix ≤ 20 + Z.of_nat i)).
Proof.
  apply (hasCollisionAt_iff (demo_well empty_matrix (demo_piece PieceType.T) 3 2)
           (demo_piece PieceType.T) 3 20).
  - reflexivity.
  - exact rectangular_empty_matrix.
  - lia.
  - reflexivity.
Defined.

(** ** Writing into the board *)

Lemma width_insert (m : list (list (option Mino))) (i : nat) (r r' : list (option Mino)) :
  m !! i = Some r → length r' = length r → width (<[i := r']> m) = width m.
Proof.
  intros Hr Hlen. destruct m as [|r0 m]; [reflexivity|].
  destruct i as [|i]; simpl in *; [|reflexivity].
  inversion Hr; subst. lia.
Qed.

Lemma matrix_set_length (m : Matrix) (r c : Z) (v : Cell) :
  length (matrix_set m r c v) = length m.
Proof.
  unfold matrix_set. destruct (m !! Z.to_nat r); [|reflexivity].
  apply length_insert.
Qed.

Lemma matrix_set_width (m : Matrix) (r c : Z) (v : Cell) :
  width (matrix_set m r c v) = width m.
Proof.
  unfold matrix_set. destruct (m !! Z.to_nat r) as [row|] eqn:Hr; [|reflexivity].
  apply (width_insert m _ row); [exact Hr|]. apply length_insert.
Qed.

Lemma matrix_set_rectangular (m : Matrix) (r c : Z) (v : Cell) :
  rectangular m → rectangular (matrix_set m r c v).
Proof.
  intros Hrect. unfold rectangular. rewrite matrix_set_width.
  unfold matrix_set. destruct (m !! Z.to_nat r) as [row|] eqn:Hr; [|exact Hrect].
  apply Forall_insert; [exact Hrect|].
  rewrite length_insert. eapply rectangular_lookup; eassumption.
Qed.

Lemma matrix_at_set_eq (m : Matrix) (r c : Z) (v : Cell) :
  rectangular m → 0 ≤ r < height m → 0 ≤ c < width m →
  matrix_at (matrix_set m r c v) r c = Some v.
Proof.
  intros Hrect Hr Hc. unfold matrix_at, matrix_set, height in *.
  replace (r <? 0) with false by lia. replace (c <? 0) with false by lia.
  destruct (lookup_lt_is_Some_2 m (Z.to_nat r)) as [row Hrow]; [lia|].
  rewrite Hrow. cbn [orb].
  rewrite list_lookup_insert_eq by lia. simpl.
  apply list_lookup_insert_eq.
  pose proof (rectangular_lookup m _ row Hrect Hrow). lia.
Qed.

Lemma matrix_at_set_ne (m : Matrix) (r c r' c' : Z) (v : Cell) :
  0 ≤ r → 0 ≤ c → ¬ (r' = r ∧ c' = c) →
  matrix_at (matrix_set m r c v) r' c' = matrix_at m r' c'.
Proof.
  intros Hr Hc Hne. unfold matrix_at, matrix_set.
  destruct (r' <? 0) eqn:Hr'; [reflexivity|].
  destruct (c' <? 0) eqn:Hc'; [reflexivity|]. cbn [orb].
  destruct (m !! Z.to_nat r) as [row|] eqn:Hrow; [|reflexivity].
  destruct (decide (r' = r)) as [->|Hrr].
  - rewrite list_lookup_insert_eq by (eapply lookup_lt_Some; eassumption).
    rewrite Hrow. simpl.
    apply list_lookup_insert_ne. lia.
  - rewrite list_lookup_insert_ne by lia. reflexivity.
Qed.

(** ** Loops whose body may fault *)

Lemma for_each_app {A St} (body : A → St → option St) (l1 l2 : list A) (s : St) :
  for_each body (l1 ++ l2) s = for_each body l1 s ≫= for_each body l2.
Proof.
  revert s. induction l1 as [|a l1 IH]; intros s; simpl; [reflexivity|].
  destruct (body a s) as [s'|]; simpl; [apply IH|reflexivity].
Qed.

Lemma for_each_nested {A B St} (body : A → B → St → option St)
    (la : list A) (lb : list B) (s : St) :
  for_each (λ a, for_each (body a) lb) la s =
  for_each (λ ab : A * B, body ab.1 ab.2) (a ← la; b ← lb; [(a, b)]) s.
Proof.
  revert s. induction la as [|a la IH]; intros s; [reflexivity|].
  cbn [for_each mbind list_bind]. rewrite for_each_app.
  assert (Hrow : ∀ s0, for_each (body a) lb s0 =
            for_each (λ ab : A * B, body ab.1 ab.2) (b ← lb; [(a, b)]) s0).
  { clear. induction lb as [|b lb IHb]; intros s0; [reflexivity|].
    simpl. destruct (body a b s0); simpl; [apply IHb|reflexivity]. }
  rewrite <- Hrow. destruct (for_each (body a) lb s); simpl; [apply IH|reflexivity].
Qed.

(** A property kept by every round is kept by the loop, which then does not
    fault. *)
Lemma for_each_invariant {A St} (body : A → St → option St) (Inv : St → Prop)
    (l : list A) :
  (∀ a s, a ∈ l → Inv s → ∃ s', body a s = Some s' ∧ Inv s') →
  ∀ s, Inv s → ∃ s', for_each body l s = Some s' ∧ Inv s'.
Proof.
  induction l as [|a l IH]; intros Hbody s Hs; simpl; [eauto|].
  destruct (Hbody a s) as (s1 & Hs1 & Hinv1); [left|exact Hs|].
  rewrite Hs1. simpl. apply IH; [|exact Hinv1].
  intros a' s' Ha'. apply Hbody. right. exact Ha'.
Qed.

(** ** Grids *)

Lemma at4_set4 {A} (a : Arr4 A) (i i' : nat) (v : A) :
  (i < 4)%nat →
  at4 (set4 a i v) i' = if decide (i' = i) then Some v else at4 a i'.
Proof.
  intros Hi. destruct i as [|[|[|[|i]]]]; try lia;
    destruct i' as [|[|[|[|i']]]]; reflexivity.
Qed.

Lemma currentGrid_set (p : Piece) (g : Grid) :
  currentGrid (set_currentGrid p g) = g.
Proof. destruct p as [t [] f]; reflexivity. Qed.

Lemma mask_set (g : Grid) (row : Arr4 Cell) (i j i' j' : nat) (v : Cell) :
  (i < 4)%nat → (j < 4)%nat → at4 g i = Some row →
  mask (set4 g i (set4 row j v)) i' j' =
  if decide (i' = i ∧ j' = j) then v else mask g i' j'.
Proof.
  intros Hi Hj Hrow. unfold mask, grid_at.
  rewrite at4_set4 by assumption.
  destruct (decide (i' = i)) as [->|Hne].
  - simpl. rewrite at4_set4 by assumption. rewrite Hrow. simpl.
    destruct (decide (j' = j)) as [->|Hnj].
    + rewrite decide_True by auto. reflexivity.
    + rewrite decide_False by tauto. reflexivity.
  - rewrite decide_False by tauto. reflexivity.
Qed.

(** ** The board after the locking loops *)

Lemma wrapu_offset_inj (z : Z) (i i' : nat) :
  (i < 4)%nat → (i' < 4)%nat →
  wrapu (z + Z.of_nat i) = wrapu (z + Z.of_nat i') → i = i'.
Proof.
  intros Hi Hi' Heq. unfold wrapu in Heq.
  pose proof (Z.div_mod (z + Z.of_nat i) 4294967296 ltac:(lia)) as E1.
  pose proof (Z.div_mod (z + Z.of_nat i') 4294967296 ltac:(lia)) as E2.
  rewrite Heq in E1. lia.
Qed.

Lemma lock_target_Some (m : Matrix) (x y : Z) (i j : nat) (r c : Z) :
  lock_target m x y i j = Some (r, c) →
  r = wrapu (y + Z.of_nat i) ∧ c = wrapu (x + Z.of_nat j) ∧
  0 ≤ r < height m ∧ 0 ≤ c < width m ∧ 0 ≤ x + Z.of_nat j.
Proof.
  unfold lock_target.
  pose proof (wrapu_range (y + Z.of_nat i)).
  pose proof (wrapu_range (x + Z.of_nat j)).
  destruct ((height m <=? wrapu (y + Z.of_nat i))
            || (width m <=? wrapu (x + Z.of_nat j))
            || (x + Z.of_nat j <? 0)) eqn:Hguard; [discriminate|].
  intros [= <- <-]. lia.
Qed.

Lemma lock_target_inj (m : Matrix) (x y : Z) (i j i' j' : nat) (rc : Z * Z) :
  (i < 4)%nat → (j < 4)%nat → (i' < 4)%nat → (j' < 4)%nat →
  lock_target m x y i j = Some rc → lock_target m x y i' j' = Some rc →
  i = i' ∧ j = j'.
Proof.
  intros Hi Hj Hi' Hj' H1 H2. destruct rc as [r c].
  apply lock_target_Some in H1 as (Hr1 & Hc1 & _).
  apply lock_target_Some in H2 as (Hr2 & Hc2 & _).
  split.
  - apply (wrapu_offset_inj y); [assumption|assumption|congruence].
  - apply (wrapu_offset_inj x); [assumption|assumption|congruence].
Qed.

Lemma lock_target_dims (m m' : Matrix) (x y : Z) (i j : nat) :
  length m' = length m → width m' = width m →
  lock_target m' x y i j = lock_target m x y i j.
Proof. intros Hl Hw. unfold lock_target, height. rewrite Hl, Hw. reflexivity. Qed.

Lemma lock_write_length g x y m ij : length (lock_write g x y m ij) = length m.
Proof.
  unfold lock_write. destruct (lock_target _ _ _ _ _) as [[r c]|]; [|reflexivity].
  destruct (has_mino _); [apply matrix_set_length|reflexivity].
Qed.

Lemma lock_write_width g x y m ij : width (lock_write g x y m ij) = width m.
Proof.
  unfold lock_write. destruct (lock_target _ _ _ _ _) as [[r c]|]; [|reflexivity].
  destruct (has_mino _); [apply matrix_set_width|reflexivity].
Qed.

Lemma lock_write_rectangular g x y m ij :
  rectangular m → rectangular (lock_write g x y m ij).
Proof.
  intros Hrect. unfold lock_write.
  destruct (lock_target _ _ _ _ _) as [[r c]|]; [|exact Hrect].
  destruct (has_mino _); [apply matrix_set_rectangular|]; exact Hrect.
Qed.

Lemma locked_dims g x y ps : ∀ m,
  length (locked g x y m ps) = length m ∧ width (locked g x y m ps) = width m.
Proof.
  induction ps as [|ij ps IH]; intros m; [split; reflexivity|].
  cbn [locked foldl]. destruct (IH (lock_write g x y m ij)) as [Hl Hw].
  unfold locked in *. rewrite Hl, Hw, lock_write_length, lock_write_width. auto.
Qed.

Lemma locked_rectangular g x y ps : ∀ m,
  rectangular m → rectangular (locked g x y m ps).
Proof.
  induction ps as [|ij ps IH]; intros m Hrect; [exact Hrect|].
  cbn [locked foldl]. apply IH. apply lock_write_rectangular. exact Hrect.
Qed.

(** A board cell that no occupied grid cell reaches keeps its content. *)
Lemma locked_elsewhere g x y (r c : Z) ps : ∀ m,
  (∀ ij, ij ∈ ps → has_mino (mask g ij.1 ij.2) = true →
         lock_target m x y ij.1 ij.2 ≠ Some (r, c)) →
  matrix_at (locked g x y m ps) r c = matrix_at m r c.
Proof.
  induction ps as [|ij ps IH]; intros m Hfree; [reflexivity|].
  cbn [locked foldl]. fold (locked g x y (lock_write g x y m ij) ps).
  rewrite IH.
  - unfold lock_write.
    destruct (lock_target m x y ij.1 ij.2) as [[r' c']|] eqn:Htarget; [|reflexivity].
    destruct (has_mino (mask g ij.1 ij.2)) eqn:Hmino; [|reflexivity].
    apply lock_target_Some in Htarget as Hrc.
    apply matrix_at_set_ne; [lia|lia|].
    intros [-> ->]. apply (Hfree ij); [left|exact Hmino|exact Htarget].
  - intros ij' Hin Hmino.
    rewrite (lock_target_dims m) by (apply lock_write_length || apply lock_write_width).
    apply Hfree; [right; exact Hin|exact Hmino].
Qed.

(** A board cell that an occupied grid cell reaches holds that cell. *)
Lemma locked_written g x y (i j : nat) (r c : Z) ps : ∀ m,
  NoDup ps → Forall (λ ij : nat * nat, (ij.1 < 4)%nat ∧ (ij.2 < 4)%nat) ps →
  rectangular m → (i, j) ∈ ps →
  has_mino (mask g i j) = true → lock_target m x y i j = Some (r, c) →
  matrix_at (locked g x y m ps) r c = Some (mask g i j).
Proof.
  induction ps as [|ij ps IH]; intros m Hnd Hlt Hrect Hin Hmino Htarget.
  - inversion Hin.
  - apply NoDup_cons in Hnd as [Hnotin Hnd].
    apply Forall_cons in Hlt as [Hij Hlt].
    cbn [locked foldl]. fold (locked g x y (lock_write g x y m ij) ps).
    apply elem_of_cons in Hin as [<-|Hin].
    + rewrite locked_elsewhere.
      * unfold lock_write. cbn [fst snd]. rewrite Htarget, Hmino.
        apply lock_target_Some in Htarget as Hrc.
        apply matrix_at_set_eq; [exact Hrect|lia|lia].
      * intros [i' j'] Hin' _ Htarget'. cbn [fst snd] in *.
        rewrite (lock_target_dims m) in Htarget'
          by (apply lock_write_length || apply lock_write_width).
        rewrite Forall_forall in Hlt. destruct (Hlt _ Hin') as [Hi' Hj'].
        destruct Hij as [Hi Hj]. cbn [fst snd] in *.
        destruct (lock_target_inj m x y i j i' j' (r, c)) as [-> ->]; auto.
    + apply IH; auto.
      * apply lock_write_rectangular. exact Hrect.
      * rewrite (lock_target_dims m)
          by (apply lock_write_length || apply lock_write_width).
        exact Htarget.
Qed.

(** ** Locking the piece: the loops of [lockAndReleasePiece] *)

Section LockFacts.
Context `{Collaborators}.

Lemma lock_frame_refl (w : Well) : lock_frame w w.
Proof. unfold lock_frame. destruct w; reflexivity. Qed.

Lemma lock_frame_trans (w1 w2 w3 : Well) :
  lock_frame w1 w2 → lock_frame w2 w3 → lock_frame w1 w3.
Proof.
  unfold lock_frame. intros H12 H23. rewrite H23 at 1. rewrite H12 at 1.
  destruct w1; reflexivity.
Qed.

Lemma lock_frame_x (w w' : Well) :
  lock_frame w w' → active_piece_x w' = active_piece_x w.
Proof. intros ->. reflexivity. Qed.

Lemma lock_frame_y (w w' : Well) :
  lock_frame w w' → active_piece_y w' = active_piece_y w.
Proof. intros ->. reflexivity. Qed.

Lemma lock_cell_step (w : Well) (p : Piece) (i j : nat) :
  active_piece w = Some p → (i < 4)%nat → (j < 4)%nat →
  rectangular (matrix w) →
  ∃ (w' : Well) (p' : Piece),
    lock_cell i j w = Some w' ∧ active_piece w' = Some p' ∧
    matrix w' = lock_write (currentGrid p) (active_piece_x w) (active_piece_y w)
                           (matrix w) (i, j) ∧
    lock_frame w w' ∧
    (∀ i' j', ¬ (i' = i ∧ j' = j) →
       mask (currentGrid p') i' j' = mask (currentGrid p) i' j').
Proof.
  intros Hp Hi Hj Hrect. unfold lock_cell, lock_write, lock_target. cbn [fst snd].
  set (r := wrapu (active_piece_y w + Z.of_nat i)).
  set (c := wrapu (active_piece_x w + Z.of_nat j)).
  destruct ((height (matrix w) <=? r) || (width (matrix w) <=? c)
            || (active_piece_x w + Z.of_nat j <? 0)) eqn:Hguard.
  { exists w, p. repeat split; auto. apply lock_frame_refl. }
  apply orb_false_iff in Hguard as [Hguard Hneg].
  apply orb_false_iff in Hguard as [Hrow Hcol].
  rewrite Hp. cbn [mbind option_bind].
  rewrite grid_at_mask by assumption. cbn [mbind option_bind].
  destruct (has_mino (mask (currentGrid p) i j)) eqn:Hmino.
  2:{ exists w, p. repeat split; auto. apply lock_frame_refl. }
  pose proof (wrapu_range (active_piece_y w + Z.of_nat i)) as Hr.
  pose proof (wrapu_range (active_piece_x w + Z.of_nat j)) as Hc.
  fold r in Hr. fold c in Hc.
  destruct (matrix_at_in_bounds (matrix w) r c Hrect) as [bc Hbc]; [lia|lia|].
  rewrite Hbc. cbn [mbind option_bind].
  assert (Hgrow : ∃ grow, at4 (currentGrid p) i = Some grow).
  { destruct i as [|[|[|[|i]]]]; try lia; simpl; eauto. }
  destruct Hgrow as [grow Hgrow]. rewrite Hgrow. cbn [mbind option_bind].
  eexists. eexists. split; [reflexivity|].
  destruct (2 <=? r); (split; [reflexivity|]);
    (split; [reflexivity|]); (split; [destruct w; reflexivity|]);
    intros i' j' Hne; rewrite currentGrid_set;
    rewrite (mask_set _ grow) by assumption;
    rewrite decide_False by exact Hne; reflexivity.
Qed.

(** The loops of [lockAndReleasePiece] do not fault, and the board they
    leave is [locked] from the grid the piece had before them. *)
Lemma lock_positions_locked (ps : list (nat * nat)) :
  NoDup ps → Forall (λ ij, (ij.1 < 4)%nat ∧ (ij.2 < 4)%nat) ps →
  ∀ (g : Grid) (w : Well) (p : Piece),
    active_piece w = Some p → rectangular (matrix w) →
    (∀ ij, ij ∈ ps → mask (currentGrid p) ij.1 ij.2 = mask g ij.1 ij.2) →
    ∃ w' : Well,
      for_each (λ ij : nat * nat, lock_cell ij.1 ij.2) ps w = Some w' ∧
      matrix w' = locked g (active_piece_x w) (active_piece_y w) (matrix w) ps ∧
      rectangular (matrix w') ∧
      lock_frame w w'.
Proof.
  induction ps as [|[i j] ps IH]; intros Hnd Hlt g w p Hp Hrect Hmask.
  - exists w. repeat split; auto. apply lock_frame_refl.
  - apply NoDup_cons in Hnd as [Hnotin Hnd].
    apply Forall_cons in Hlt as [[Hi Hj] Hlt]. cbn [fst snd] in Hi, Hj.
    destruct (lock_cell_step w p i j Hp Hi Hj Hrect)
      as (w1 & p1 & Hstep & Hp1 & Hm1 & Hframe1 & Hmask1).
    pose proof (lock_frame_x _ _ Hframe1) as Hx1.
    pose proof (lock_frame_y _ _ Hframe1) as Hy1.
    cbn [for_each fst snd]. rewrite Hstep. cbn [mbind option_bind].
    assert (Hwrite : matrix w1 =
              lock_write g (active_piece_x w) (active_piece_y w) (matrix w) (i, j)).
    { rewrite Hm1. unfold lock_write. cbn [fst snd].
      pose proof (Hmask (i, j) ltac:(left)) as Hij. cbn [fst snd] in Hij.
      rewrite Hij. reflexivity. }
    assert (Hrect1 : rectangular (matrix w1)).
    { rewrite Hwrite. unfold lock_write.
      destruct (lock_target _ _ _ _ _) as [[r c]|]; [|exact Hrect].
      destruct (has_mino _); [|exact Hrect].
      apply matrix_set_rectangular. exact Hrect. }
    destruct (IH Hnd Hlt g w1 p1 Hp1 Hrect1)
      as (w' & Hloop & Hm' & Hrect' & Hframe').
    { intros [i' j'] Hin. cbn [fst snd]. rewrite Hmask1.
      - apply (Hmask (i', j')). right. exact Hin.
      - intros [-> ->]. contradiction. }
    exists w'. split; [exact Hloop|].
    split; [|split; [exact Hrect'|eapply lock_frame_trans; eassumption]].
    rewrite Hm', Hx1, Hy1, Hwrite. reflexivity.
Qed.

Lemma grid_positions_NoDup : NoDup grid_positions.
Proof. apply (bool_decide_unpack _). vm_compute. exact I. Qed.

Lemma grid_positions_lt :
  Forall (λ ij : nat * nat, (ij.1 < 4)%nat ∧ (ij.2 < 4)%nat) grid_positions.
Proof. unfold grid_positions. repeat constructor. Qed.

Lemma grid_positions_complete (i j : nat) :
  (i < 4)%nat → (j < 4)%nat → (i, j) ∈ grid_positions.
Proof.
  intros Hi Hj.
  destruct i as [|[|[|[|i]]]]; try lia;
    destruct j as [|[|[|[|j]]]]; try lia;
    apply (bool_decide_unpack _); vm_compute; exact I.
Qed.

Lemma lock_cells_locked (w : Well) (p : Piece) :
  active_piece w = Some p → rectangular (matrix w) →
  ∃ w' : Well,
    lock_cells w = Some w' ∧
    matrix w' = locked (currentGrid p) (active_piece_x w) (active_piece_y w)
                       (matrix w) grid_positions ∧
    rectangular (matrix w') ∧
    lock_frame w w'.
Proof.
  intros Hp Hrect. unfold lock_cells, lock_row.
  rewrite (for_each_nested lock_cell).
  destruct (lock_positions_locked grid_positions grid_positions_NoDup
              grid_positions_lt (currentGrid p) w p Hp Hrect)
    as (w' & Hloop & Hm & Hrect' & Hframe); [auto|].
  exists w'. auto.
Qed.

Lemma lock_target_plain (m : Matrix) (x y : Z) (i j : nat) :
  x ≤ 2147483647 → (j < 4)%nat →
  wrapu (y + Z.of_nat i) < height m → 0 ≤ x + Z.of_nat j < width m →
  lock_target m x y i j = Some (wrapu (y + Z.of_nat i), x + Z.of_nat j).
Proof.
  intros Hx Hj Hr Hc. unfold lock_target.
  rewrite (wrapu_small (x + Z.of_nat j)) by (unfold UINT_MAX; lia).
  replace (height m <=? wrapu (y + Z.of_nat i)) with false by lia.
  replace (width m <=? x + Z.of_nat j) with false by lia.
  replace (x + Z.of_nat j <? 0) with false by lia.
  reflexivity.
Qed.

(** The two loops of [lockAndReleasePiece].  With a piece at a column
    offset in the range of [int], they run to their end without an access
    outside the board; the board keeps its dimensions; a mask cell whose row
    (the unsigned sum of the row offset and the grid row) or column lies
    outside the board is skipped, the step leaving the state as it is; every
    occupied mask cell that lies inside the board is then found in the board
    cell at the piece's offset; every other board cell keeps its content. *)
Lemma lock_cells_board (w : Well) (p : Piece) :
  active_piece w = Some p →
  rectangular (matrix w) →
  active_piece_x w ≤ 2147483647 →
  ∃ w' : Well,
    lock_cells w = Some w' ∧
    length (matrix w') = length (matrix w) ∧
    width (matrix w') = width (matrix w) ∧
    rectangular (matrix w') ∧
    (∀ i j : nat, (i < 4)%nat → (j < 4)%nat →
       ¬ (wrapu (active_piece_y w + Z.of_nat i) < height (matrix w)
          ∧ 0 ≤ active_piece_x w + Z.of_nat j < width (matrix w)) →
       lock_cell i j w = Some w) ∧
    (∀ i j : nat, (i < 4)%nat → (j < 4)%nat →
       is_Some (mask (currentGrid p) i j) →
       wrapu (active_piece_y w + Z.of_nat i) < height (matrix w) →
       0 ≤ active_piece_x w + Z.of_nat j < width (matrix w) →
       matrix_at (matrix w') (wrapu (active_piece_y w + Z.of_nat i))
                 (active_piece_x w + Z.of_nat j)
       = Some (mask (currentGrid p) i j)) ∧
    (∀ r c : Z,
       (∀ i j : nat, (i < 4)%nat → (j < 4)%nat →
          is_Some (mask (currentGrid p) i j) →
          ¬ (r = wrapu (active_piece_y w + Z.of_nat i)
             ∧ c = active_piece_x w + Z.of_nat j)) →
       matrix_at (matrix w') r c = matrix_at (matrix w) r c).
Proof.
  intros Hp Hrect Hx.
  destruct (lock_cells_locked w p Hp Hrect) as (w' & Hrun & Hm & Hrect' & _).
  exists w'. split; [exact Hrun|].
  destruct (locked_dims (currentGrid p) (active_piece_x w) (active_piece_y w)
              grid_positions (matrix w)) as [Hlen Hwid].
  rewrite Hm. split; [exact Hlen|]. split; [exact Hwid|].
  split; [rewrite <- Hm; exact Hrect'|].
  split; [|split].
  - intros i j Hi Hj Hout. unfold lock_cell.
    destruct ((height (matrix w) <=? wrapu (active_piece_y w + Z.of_nat i))
              || (width (matrix w) <=? wrapu (active_piece_x w + Z.of_nat j))
              || (active_piece_x w + Z.of_nat j <? 0)) eqn:Hguard; [reflexivity|].
    exfalso. apply Hout.
    apply orb_false_iff in Hguard as [Hguard Hneg].
    apply orb_false_iff in Hguard as [Hrow Hcol].
    rewrite (wrapu_small (active_piece_x w + Z.of_nat j)) in Hcol
      by (unfold UINT_MAX; lia).
    lia.
  - intros i j Hi Hj [mino Hmino] Hr Hc.
    apply locked_written.
    + exact grid_positions_NoDup.
    + exact grid_positions_lt.
    + exact Hrect.
    + apply grid_positions_complete; assumption.
    + rewrite Hmino. reflexivity.
    + apply lock_target_plain; assumption.
  - intros r c Hfree. apply locked_elsewhere.
    intros [i j] Hin Hmino Htarget. cbn [fst snd] in *.
    pose proof grid_positions_lt as Hlt. rewrite Forall_forall in Hlt.
    destruct (Hlt _ Hin) as [Hi Hj]. cbn [fst snd] in *.
    apply lock_target_Some in Htarget as (Hr & Hc & _ & _ & Hnonneg).
    apply (Hfree i j Hi Hj).
    + destruct (mask (currentGrid p) i j); [eauto|discriminate].
    + split; [exact Hr|].
      rewrite Hc. apply wrapu_small; unfold UINT_MAX; lia.
Qed.

End LockFacts.

(** ** The wall kick and the rotations *)

Section KickFacts.
Context `{Collaborators}.

Lemma hasCollisionAt_total (w : Well) (p : Piece) (x y : Z) :
  active_piece w = Some p → rectangular (matrix w) →
  0 ≤ y → y + 3 < UINT_MAX →
  hasCollisionAt w x y = Some (negb (free_at w x y)).
Proof.
  intros Hp Hrect Hy Hmax. unfold free_at.
  rewrite (hasCollisionAt_hits w p x y Hp Hrect Hy Hmax).
  destruct (grid_hits _ _ _ _ _); reflexivity.
Qed.

Lemma width_lookup_0 (m : Matrix) (r : list Cell) :
  m !! 0%nat = Some r → width m = Z.of_nat (length r).
Proof. destruct m; simpl; [discriminate|]. intros [= ->]. reflexivity. Qed.

(** The body of the loop at one floor: the first shift that is in range and
    where the piece fits. *)
Lemma kick_floor_find (w : Well) (p : Piece) (f : Z) :
  active_piece w = Some p → rectangular (matrix w) → 0 < height (matrix w) →
  0 ≤ f ≤ active_piece_y w → active_piece_y w + 3 < UINT_MAX →
  kick_floor w f =
  Some (match List.find (kick_free w)
                (List.filter (kick_in_range w) (map (λ dx, (dx, f)) (kick_shifts p))) with
        | Some (dx, f') => Some (kick_to w dx f')
        | None => None
        end).
Proof.
  intros Hp Hrect Hh Hf Hmax.
  assert (Hwrap : wrapu (active_piece_y w - f) = active_piece_y w - f)
    by (apply wrapu_small; unfold UINT_MAX in *; lia).
  assert (Hcol : ∀ x, hasCollisionAt w x (active_piece_y w - f)
                      = Some (negb (free_at w x (active_piece_y w - f))))
    by (intros x; apply (hasCollisionAt_total w p); auto with lia).
  destruct (matrix w !! 0%nat) as [row0|] eqn:Hrow0.
  2:{ apply lookup_ge_None in Hrow0. unfold height in Hh. lia. }
  pose proof (width_lookup_0 _ _ Hrow0) as Hwidth.
  unfold kick_floor. rewrite Hwrap, Hp, Hrow0, !Hcol.
  cbn [mbind option_bind fmap option_fmap option_map]. rewrite <- ?Hwidth, ?Hcol.
  unfold kick_shifts, kick_free, kick_in_range, is_I.
  rewrite !negb_involutive.
  destruct (bool_decide (piece_type p = PieceType.I)).
  - destruct (active_piece_x w + 2 <? width (matrix w)),
             (0 <=? active_piece_x w - 2);
      cbn [map List.filter fst snd Z.eqb Pos.eqb andb find mbind option_bind];
      rewrite ?Hwrap, ?negb_involutive;
      change (active_piece_x w + -1) with (active_piece_x w - 1);
      change (active_piece_x w + -2) with (active_piece_x w - 2);
      destruct (free_at w (active_piece_x w + 1) (active_piece_y w - f)),
               (free_at w (active_piece_x w - 1) (active_piece_y w - f)),
               (free_at w (active_piece_x w + 2) (active_piece_y w - f)),
               (free_at w (active_piece_x w - 2) (active_piece_y w - f));
      reflexivity.
  - cbn [map List.filter fst snd Z.eqb Pos.eqb andb find].
    rewrite ?Hwrap.
    change (active_piece_x w + -1) with (active_piece_x w - 1).
    destruct (free_at w (active_piece_x w + 1) (active_piece_y w - f)),
             (free_at w (active_piece_x w - 1) (active_piece_y w - f));
      reflexivity.
Qed.

Lemma kick_loop_false_same (fuel : nat) : ∀ (w w' : Well) (floor : Z),
  kick_loop fuel w floor = Some (false, w') → w' = w.
Proof.
  induction fuel as [|fuel IH]; intros w w' floor; simpl;
    destruct (active_piece w) as [p|]; simpl; try discriminate;
    destruct (floor <? _); try discriminate; try (intros [= <-]; reflexivity).
  destruct (kick_floor w floor) as [[w1|]|]; simpl; try discriminate.
  apply IH.
Qed.

Lemma find_app {A} (f : A → bool) (l1 l2 : list A) :
  List.find f (l1 ++ l2) =
  match List.find f l1 with Some a => Some a | None => List.find f l2 end.
Proof.
  induction l1 as [|a l1 IH]; simpl; [reflexivity|].
  destruct (f a); [reflexivity|exact IH].
Qed.

Lemma guarded_candidates_floors (w : Well) (p : Piece) :
  guarded_candidates w p =
  f ← kick_floors p;
  List.filter (kick_in_range w) (map (λ dx, (dx, f)) (kick_shifts p)).
Proof.
  unfold guarded_candidates, kick_candidates.
  induction (kick_floors p) as [|f fs IH]; [reflexivity|].
  cbn [mbind list_bind]. rewrite List.filter_app, IH. f_equal.
Qed.

Lemma kick_loop_S (fuel : nat) (w : Well) (p : Piece) (floor : Z) :
  active_piece w = Some p →
  kick_loop (S fuel) w floor =
  if floor <? (if is_I p then 3 else 2) then
    r ← kick_floor w floor;
    match r with
    | Some w' => Some (true, w')
    | None => kick_loop fuel w (wrapu (floor + 1))
    end
  else Some (false, w).
Proof. intros Hp. cbn [kick_loop]. rewrite Hp. reflexivity. Qed.

Lemma kick_loop_O (w : Well) (p : Piece) (floor : Z) :
  active_piece w = Some p →
  kick_loop 0 w floor =
  if floor <? (if is_I p then 3 else 2) then None else Some (false, w).
Proof. intros Hp. cbn [kick_loop]. rewrite Hp. reflexivity. Qed.

(** C2, amended: when the piece can rise by every floor level, the search
    returns, and it takes the first candidate, in the order of the floors
    (same row, one row higher and, for the I piece, two rows higher) and, on
    each floor, of the shifts (+1, -1 and, for the I piece, +2, -2), that is
    in range and where the piece fits; a shift by two is in range to the
    right while the new column offset is left of the board's right edge, to
    the left while it is not negative. *)
Theorem placeByWallKick_order (w : Well) (p : Piece) :
  active_piece w = Some p →
  rectangular (matrix w) → 0 < height (matrix w) →
  top_floor p ≤ active_piece_y w → active_piece_y w + 3 < UINT_MAX →
  placeByWallKick w
  = Some (kick_result w (List.find (kick_free w) (guarded_candidates w p)))
  ∧ ∀ c, c ∈ kick_candidates p →
      active_piece_y (kick_to w c.1 c.2) = active_piece_y w - c.2.
Proof.
  intros Hp Hrect Hh Htop Hmax. split.
  - rewrite guarded_candidates_floors.
    unfold placeByWallKick, kick_floors, top_floor in *.
    rewrite (kick_loop_S _ w p) by exact Hp.
    destruct (is_I p) eqn:HI.
    + change (0 <? 3) with true. cbn [mbind list_bind].
      rewrite (kick_floor_find w p 0) by (auto with lia).
      cbn [mbind option_bind]. rewrite !find_app.
      destruct (List.find _ (List.filter _ (map (λ dx, (dx, 0)) _)))
        as [[dx f]|]; [reflexivity|].
      change (wrapu (0 + 1)) with 1.
      rewrite (kick_loop_S _ w p) by exact Hp. rewrite HI.
      change (1 <? 3) with true.
      rewrite (kick_floor_find w p 1) by (auto with lia).
      cbn [mbind option_bind].
      destruct (List.find _ (List.filter _ (map (λ dx, (dx, 1)) _)))
        as [[dx f]|]; [reflexivity|].
      change (wrapu (1 + 1)) with 2.
      rewrite (kick_loop_S _ w p) by exact Hp. rewrite HI.
      change (2 <? 3) with true.
      rewrite (kick_floor_find w p 2) by (auto with lia).
      cbn [mbind option_bind].
      destruct (List.find _ (List.filter _ (map (λ dx, (dx, 2)) _)))
        as [[dx f]|]; [reflexivity|].
      change (wrapu (2 + 1)) with 3.
      rewrite (kick_loop_O w p) by exact Hp. rewrite HI. reflexivity.
    + change (0 <? 2) with true. cbn [mbind list_bind].
      rewrite (kick_floor_find w p 0) by (auto with lia).
      cbn [mbind option_bind]. rewrite !find_app.
      destruct (List.find _ (List.filter _ (map (λ dx, (dx, 0)) _)))
        as [[dx f]|]; [reflexivity|].
      change (wrapu (0 + 1)) with 1.
      rewrite (kick_loop_S _ w p) by exact Hp. rewrite HI.
      change (1 <? 2) with true.
      rewrite (kick_floor_find w p 1) by (auto with lia).
      cbn [mbind option_bind].
      destruct (List.find _ (List.filter _ (map (λ dx, (dx, 1)) _)))
        as [[dx f]|]; [reflexivity|].
      change (wrapu (1 + 1)) with 2.
      rewrite (kick_loop_S _ w p) by exact Hp. rewrite HI. reflexivity.
  - intros [dx f] Hc. cbn [fst snd]. unfold kick_to. cbn.
    apply wrapu_small; unfold UINT_MAX in *.
    + assert (0 ≤ f ≤ top_floor p); [|lia].
      unfold kick_candidates, kick_floors, kick_shifts, top_floor in *.
      destruct (is_I p); cbn in Hc;
        repeat (apply elem_of_cons in Hc as [[= -> ->]|Hc]; [lia|]);
        inversion Hc.
    + assert (0 ≤ f); [|lia].
      unfold kick_candidates, kick_floors, kick_shifts in *.
      destruct (is_I p); cbn in Hc;
        repeat (apply elem_of_cons in Hc as [[= -> ->]|Hc]; [lia|]);
        inversion Hc.
Qed.


Lemma collides_at_true (w : Well) (x y : Z) :
  collides_at w x y = true → hasCollisionAt w x y = Some true.
Proof.
  unfold collides_at. destruct (hasCollisionAt w x y) as [[|]|]; congruence.
Qed.

(** On a floor where the piece collides at every shift, the body of the
    loop ends without a [return]. *)
Lemma kick_floor_blocked (w : Well) (p : Piece) (f : Z) :
  active_piece w = Some p → 0 < height (matrix w) →
  forallb (λ dx, collides_at w (active_piece_x w + dx)
                   (wrapu (active_piece_y w - f))) (kick_shifts p) = true →
  kick_floor w f = Some None.
Proof.
  intros Hp Hh Hall.
  destruct (matrix w !! 0%nat) as [row0|] eqn:Hrow0.
  2:{ apply lookup_ge_None in Hrow0. unfold height in Hh. lia. }
  unfold kick_floor, kick_shifts in *.
  destruct (is_I p) eqn:HI; unfold is_I in HI; cbn [forallb] in Hall.
  - apply andb_true_iff in Hall as [H1%collides_at_true Hall].
    apply andb_true_iff in Hall as [H2%collides_at_true Hall].
    apply andb_true_iff in Hall as [H3%collides_at_true Hall].
    apply andb_true_iff in Hall as [H4%collides_at_true _].
    change (active_piece_x w + -1) with (active_piece_x w - 1) in *.
    change (active_piece_x w + -2) with (active_piece_x w - 2) in *.
    rewrite H1. cbn [mbind option_bind negb].
    rewrite H2. cbn [mbind option_bind negb].
    rewrite Hp. cbn [mbind option_bind]. rewrite HI, Hrow0. cbn [mbind option_bind].
    rewrite H3, H4. cbn [fmap option_fmap option_map negb].
    destruct (active_piece_x w + 2 <? Z.of_nat (length row0)),
             (0 <=? active_piece_x w - 2); reflexivity.
  - apply andb_true_iff in Hall as [H1%collides_at_true Hall].
    apply andb_true_iff in Hall as [H2%collides_at_true _].
    change (active_piece_x w + -1) with (active_piece_x w - 1) in *.
    rewrite H1. cbn [mbind option_bind negb].
    rewrite H2. cbn [mbind option_bind negb].
    rewrite Hp. cbn [mbind option_bind]. rewrite HI. reflexivity.
Qed.

Lemma forallb_bind {A B} (f : B → bool) (g : A → list B) (l : list A) :
  forallb f (a ← l; g a) = forallb (λ a, forallb f (g a)) l.
Proof.
  induction l as [|a l IH]; [reflexivity|].
  cbn [mbind list_bind forallb]. rewrite forallb_app. f_equal. exact IH.
Qed.

(** With the piece blocked at every candidate, the search fails and
    changes nothing. *)
Lemma placeByWallKick_blocked (w : Well) (p : Piece) :
  active_piece w = Some p → 0 < height (matrix w) →
  forallb (λ c, collides_at w (active_piece_x w + c.1)
                  (wrapu (active_piece_y w - c.2))) (kick_candidates p) = true →
  placeByWallKick w = Some (false, w).
Proof.
  intros Hp Hh Hall. unfold kick_candidates in Hall.
  rewrite forallb_bind in Hall.
  assert (Hfloor : ∀ f, In f (kick_floors p) → kick_floor w f = Some None).
  { intros f Hf. apply (kick_floor_blocked w p f Hp Hh).
    rewrite forallb_forall in Hall. specialize (Hall f Hf).
    rewrite forallb_bind in Hall.
    apply forallb_forall. intros dx Hdx.
    rewrite forallb_forall in Hall. specialize (Hall dx Hdx).
    cbn [forallb fst snd] in Hall. rewrite andb_true_r in Hall. exact Hall. }
  unfold placeByWallKick, kick_floors in *.
  rewrite (kick_loop_S _ w p) by exact Hp.
  destruct (is_I p) eqn:HI.
  - change (0 <? 3) with true. rewrite (Hfloor 0) by (cbn; tauto).
    cbn [mbind option_bind]. change (wrapu (0 + 1)) with 1.
    rewrite (kick_loop_S _ w p) by exact Hp. rewrite HI.
    change (1 <? 3) with true. rewrite (Hfloor 1) by (cbn; tauto).
    cbn [mbind option_bind]. change (wrapu (1 + 1)) with 2.
    rewrite (kick_loop_S _ w p) by exact Hp. rewrite HI.
    change (2 <? 3) with true. rewrite (Hfloor 2) by (cbn; tauto).
    cbn [mbind option_bind]. change (wrapu (2 + 1)) with 3.
    rewrite (kick_loop_O w p) by exact Hp. rewrite HI. reflexivity.
  - change (0 <? 2) with true. rewrite (Hfloor 0) by (cbn; tauto).
    cbn [mbind option_bind]. change (wrapu (0 + 1)) with 1.
    rewrite (kick_loop_S _ w p) by exact Hp. rewrite HI.
    change (1 <? 2) with true. rewrite (Hfloor 1) by (cbn; tauto).
    cbn [mbind option_bind]. change (wrapu (1 + 1)) with 2.
    rewrite (kick_loop_S _ w p) by exact Hp. rewrite HI. reflexivity.
Qed.

Lemma rotateCCW_rotateCW (p : Piece) : rotateCCW (rotateCW p) = p.
Proof. destruct p as [t [] f]; reflexivity. Qed.

Lemma rotateCW_rotateCCW (p : Piece) : rotateCW (rotateCCW p) = p.
Proof. destruct p as [t [] f]; reflexivity. Qed.

Lemma set_active_piece_back (w : Well) (p q : Piece) :
  active_piece w = Some p →
  set_active_piece (Some p) (set_active_piece (Some q) w) = w.
Proof. destruct w; cbn. intros ->. reflexivity. Qed.

(** C3: a rotation, clockwise or counterclockwise, whose turned piece
    collides where the piece is and at every candidate of the wall kick
    returns the playfield exactly as it was: the rotation state, the
    position, the board and every other field. *)
Theorem blocked_rotation_changes_nothing (d : Direction) (w : Well) (p : Piece) :
  active_piece w = Some p →
  0 < height (matrix w) →
  rotation_blocked w (turn d p) = true →
  rotate_now d w = Some w.
Proof.
  intros Hp Hh Hblocked. unfold rotation_blocked in Hblocked.
  apply andb_true_iff in Hblocked as [Hnaive%collides_at_true Hall].
  apply placeByWallKick_blocked in Hall; [|reflexivity|exact Hh].
  destruct d; cbn [turn rotate_now] in *;
    unfold rotateCWNow, rotateCCWNow; rewrite Hp;
    cbn [mbind option_bind]; rewrite Hnaive; cbn [mbind option_bind];
    rewrite Hall; cbn [mbind option_bind active_piece set_active_piece fmap option_fmap option_map];
    rewrite ?rotateCCW_rotateCW, ?rotateCW_rotateCCW;
    rewrite (set_active_piece_back w p _ Hp); reflexivity.
Qed.

End KickFacts.


Lemma rectangular_ledge_matrix : rectangular ledge_matrix.
Proof. unfold rectangular. repeat constructor. Qed.

(** C2, as stated, fails: the upright I piece at column offset 1 fits two
    columns to the left on its own row, after the shifts +1, -1 and +2
    collided there, yet the code, which tries the shift -2 only from a
    column offset of at least 2, goes on and takes the shift +1 two rows
    higher. *)
Lemma wallkick_as_claimed_fails : ¬ wallkick_as_claimed ledge_well.
Proof.
  intros Hclaim.
  specialize (Hclaim (rotateCW (demo_piece PieceType.I)) eq_refl).
  apply (f_equal (option_map (λ r : bool * Well, active_piece_x r.2))) in Hclaim.
  vm_compute in Hclaim. discriminate Hclaim.
Qed.

Lemma placeByWallKick_order_witness :
  placeByWallKick ledge_well
  = Some (kick_result ledge_well
            (List.find (kick_free ledge_well)
               (guarded_candidates ledge_well (rotateCW (demo_piece PieceType.I)))))
  ∧ ∀ c, c ∈ kick_candidates (rotateCW (demo_piece PieceType.I)) →
      active_piece_y (kick_to ledge_well c.1 c.2) = active_piece_y ledge_well - c.2.
Proof.
  apply (placeByWallKick_order ledge_well (rotateCW (demo_piece PieceType.I))).
  - reflexivity.
  - exact rectangular_ledge_matrix.
  - reflexivity.
  - vm_compute. discriminate.
  - reflexivity.
Defined.

Lemma blocked_rotation_changes_nothing_witness :
  rotate_now CW snug_well = Some snug_well
  ∧ rotate_now CCW snug_well = Some snug_well.
Proof.
  split.
  - apply (blocked_rotation_changes_nothing CW snug_well (demo_piece PieceType.T)).
    + reflexivity.
    + reflexivity.
    + vm_compute. reflexivity.
  - apply (blocked_rotation_changes_nothing CCW snug_well (demo_piece PieceType.T)).
    + reflexivity.
    + reflexivity.
    + vm_compute. reflexivity.
Defined.

(** ** Line clear detection and the lock of a piece *)

Lemma scan_filled_elem (m : Matrix) (l : list nat) : ∀ (P : gset nat) (r : nat),
  r ∈ foldl (insert_if_filled m) P l → r ∈ P ∨ r ∈ l.
Proof.
  induction l as [|a l IH]; intros P r Hr; simpl in Hr; [left; exact Hr|].
  apply IH in Hr as [Hr|Hr]; [|right; right; exact Hr].
  unfold insert_if_filled in Hr.
  destruct (m !! a) as [row|]; [|left; exact Hr].
  destruct (row_filled row); [|left; exact Hr].
  apply elem_of_union in Hr as [Hr%elem_of_singleton|Hr];
    [subst; right; left|left; exact Hr].
Qed.

Lemma scan_filled_bound (m : Matrix) (P : gset nat) (r : nat) :
  r ∈ scan_filled m P → r ∈ P ∨ (r < length m)%nat.
Proof.
  intros Hr. apply scan_filled_elem in Hr as [Hr|Hr]; [left; exact Hr|right].
  apply elem_of_seq in Hr. lia.
Qed.

Lemma ascending_elem (P : gset nat) (r : nat) : r ∈ ascending P ↔ r ∈ P.
Proof.
  unfold ascending. rewrite merge_sort_Permutation. apply elem_of_elements.
Qed.

Section ClearFacts.
Context `{Collaborators}.

Lemma checkLineclear_total (w : Well) :
  (∀ r : nat, r ∈ pending_cleared_rows w → (r < length (matrix w))%nat) →
  ∃ w' : Well,
    checkLineclear w = Some w' ∧
    clear_inv w (scan_filled (matrix w) (pending_cleared_rows w)) w'.
Proof.
  intros Hbound. unfold checkLineclear.
  set (P := scan_filled (matrix w) (pending_cleared_rows w)).
  set (w1 := set_pending_cleared_rows P w).
  assert (Hinv1 : clear_inv w P w1) by (repeat split; auto).
  destruct (bool_decide (size (pending_cleared_rows w1) = 0%nat)).
  { exists w1. split; [reflexivity|exact Hinv1]. }
  destruct (for_each_invariant clear_pending_row (clear_inv w P) (ascending P))
    with (s := w1) as (w2 & Hrun & Hinv2); [|exact Hinv1|].
  - intros row s Hrow (Hlen & Hrows & Hg & Ha & Hn & Hp).
    apply ascending_elem in Hrow.
    assert (Hlt : (row < length (matrix s))%nat).
    { rewrite Hlen. apply scan_filled_bound in Hrow as [Hrow|Hrow]; auto. }
    destruct (lookup_lt_is_Some_2 _ _ Hlt) as [cells Hcells].
    unfold clear_pending_row, clear_row. rewrite Hcells. cbn [mbind option_bind].
    eexists. split; [reflexivity|].
    destruct (2 <=? Z.of_nat row); unfold clear_inv;
      cbn [matrix set_matrix set_blocking_anims gameover active_piece notified
           pending_cleared_rows]; rewrite length_insert;
      (repeat split; auto);
      intros r Hr; (rewrite list_lookup_insert_ne; [auto|]);
      intros ->; contradiction.
  - change (pending_cleared_rows w1) with P. rewrite Hrun.
    cbn [mbind option_bind]. eexists. split; [reflexivity|].
    destruct Hinv2 as (Hlen & Hrows & Hg & Ha & Hn & Hp).
    repeat split; auto.
Qed.

Lemma lock_frame_fields (w w' : Well) :
  lock_frame w w' →
  gameover w' = gameover w ∧ notified w' = notified w
  ∧ pending_cleared_rows w' = pending_cleared_rows w.
Proof. intros ->. repeat split. Qed.

Lemma lockAndReleasePiece_total (w : Well) (p : Piece) :
  active_piece w = Some p → rectangular (matrix w) →
  (∀ r : nat, r ∈ pending_cleared_rows w → (r < length (matrix w))%nat) →
  ∃ wl w' : Well,
    lock_cells w = Some wl ∧
    lockAndReleasePiece w = Some w' ∧
    length (matrix w') = length (matrix w) ∧
    (∀ r : nat, r ∉ pending_cleared_rows w' → matrix w' !! r = matrix wl !! r) ∧
    gameover w' = gameover w ∧
    active_piece w' = None ∧
    notified w' = notified w ++ [PIECE_LOCKED].
Proof.
  intros Hp Hrect Hbound.
  destruct (lock_cells_locked w p Hp Hrect) as (wl & Hlock & Hm & Hrectl & Hframe).
  assert (Hlen : length (matrix wl) = length (matrix w)).
  { rewrite Hm. apply locked_dims. }
  destruct (lock_frame_fields _ _ Hframe) as (Hfg & Hfn & Hfp).
  exists wl. unfold lockAndReleasePiece. rewrite Hlock. cbn [mbind option_bind].
  set (w3 := notify PIECE_LOCKED _).
  destruct (checkLineclear_total w3) as (w' & Hclear & Hinv).
  { intros r Hr. change (matrix w3) with (matrix wl).
    change (pending_cleared_rows w3) with (pending_cleared_rows wl) in Hr.
    rewrite Hlen. apply Hbound. rewrite <- Hfp. exact Hr. }
  exists w'. split; [reflexivity|]. split; [exact Hclear|].
  destruct Hinv as (Hlen' & Hrows & Hg & Ha & Hn & Hpend).
  split; [rewrite Hlen'; exact Hlen|].
  split; [intros r Hr; apply Hrows; rewrite <- Hpend; exact Hr|].
  split; [rewrite Hg; exact Hfg|].
  split; [rewrite Ha; reflexivity|].
  rewrite Hn. change (notified w3) with (notified wl ++ [PIECE_LOCKED]).
  rewrite Hfn. reflexivity.
Qed.

End ClearFacts.

(** ** Spawning a piece *)

Section SpawnFacts.
Context `{Collaborators}.

Lemma spawn_loop_S (fuel : nat) (w : Well) :
  spawn_loop (S fuel) w =
  if 0 <? active_piece_y w then
    c ← hasCollisionAt (set_active_piece_y (wrapu (active_piece_y w - 1)) w)
          (active_piece_x w) (wrapu (active_piece_y w - 1));
    if negb c
    then w2 ← calculateGhostOffset
                (set_active_piece_y (wrapu (active_piece_y w - 1)) w);
         Some (true, w2)
    else spawn_loop fuel (set_active_piece_y (wrapu (active_piece_y w - 1)) w)
  else Some (false, w).
Proof. reflexivity. Qed.

Lemma matrix_at_lookup (m : Matrix) (r c : Z) :
  0 ≤ r → 0 ≤ c →
  matrix_at m r c = m !! Z.to_nat r ≫= λ row, row !! Z.to_nat c.
Proof.
  intros Hr Hc. unfold matrix_at.
  replace (r <? 0) with false by lia. replace (c <? 0) with false by lia.
  reflexivity.
Qed.

(** C6: when the new piece collides on each of the rows probed, 2, 1 and 0
    at the spawn column 3, [addPiece] locks it at row 0, where the probing
    ended, and sets the game over flag: the result is that of
    [lockAndReleasePiece] at [(3, 0)] with [gameover] set; no piece is
    active, [PIECE_LOCKED] was notified, and every occupied mask cell inside
    the board is in the board at the offset [(3, 0)], except on rows that
    the lock found full and cleared. *)
Theorem addPiece_game_over (type : PieceType.t) (w : Well) :
  rectangular (matrix w) →
  (∀ r : nat, r ∈ pending_cleared_rows w → (r < length (matrix w))%nat) →
  spawn_blocked type w = true →
  ∃ w' : Well,
    addPiece type w = Some w' ∧
    set_gameover true <$> lockAndReleasePiece (spawned type w 0) = Some w' ∧
    gameover w' = true ∧
    active_piece w' = None ∧
    notified w' = notified w ++ [PIECE_LOCKED] ∧
    (∀ i j : nat, (i < 4)%nat → (j < 4)%nat →
       is_Some (mask (currentGrid (make_uptr type)) i j) →
       Z.of_nat i < height (matrix w) → 3 + Z.of_nat j < width (matrix w) →
       i ∉ pending_cleared_rows w' →
       matrix_at (matrix w') (Z.of_nat i) (3 + Z.of_nat j)
       = Some (mask (currentGrid (make_uptr type)) i j)).
Proof.
  intros Hrect Hbound Hblocked.
  unfold spawn_blocked, spawn_rows in Hblocked. cbn [forallb] in Hblocked.
  apply andb_true_iff in Hblocked as [H2%collides_at_true Hblocked].
  apply andb_true_iff in Hblocked as [H1%collides_at_true Hblocked].
  apply andb_true_iff in Hblocked as [H0%collides_at_true _].
  destruct (lockAndReleasePiece_total (spawned type w 0) (make_uptr type))
    as (wl & w3 & Hlock & Hrelease & Hlen & Hrows & Hg & Ha & Hn);
    [reflexivity|exact Hrect|exact Hbound|].
  exists (set_gameover true w3).
  split; [|split; [rewrite Hrelease; reflexivity|]].
  - unfold addPiece. rewrite !spawn_loop_S.
    cbn [active_piece_y active_piece_x set_active_piece_y].
    change (wrapu (3 - 1)) with 2. change (wrapu (2 - 1)) with 1.
    change (wrapu (1 - 1)) with 0.
    change (0 <? 3) with true. change (0 <? 2) with true.
    change (0 <? 1) with true. change (0 <? 0) with false. cbv iota.
    unfold spawned, hasCollisionAt in *.
    cbn [matrix active_piece active_piece_x set_active_piece_y set_active_piece_x
         set_active_piece] in *.
    rewrite H2. cbn [mbind option_bind negb].
    rewrite H1. cbn [mbind option_bind negb].
    rewrite H0. cbn [mbind option_bind negb spawn_loop active_piece_y set_active_piece_y].
    change (0 <? 0) with false. cbn [mbind option_bind].
    match goal with
    | |- context [lockAndReleasePiece ?s] =>
        change s with (spawned type w 0)
    end.
    unfold spawned.
    rewrite Hrelease. reflexivity.
  - split; [reflexivity|]. split; [exact Ha|]. split; [exact Hn|].
    intros i j Hi Hj Hmask Hrow Hcol Hpend.
    destruct (lock_cells_locked (spawned type w 0) (make_uptr type))
      as (wl' & Hlock' & Hlocked & _); [reflexivity|exact Hrect|].
    rewrite Hlock in Hlock'. injection Hlock' as <-.
    destruct Hmask as [mino Hmino].
    assert (Hwritten : matrix_at (matrix wl) (Z.of_nat i) (3 + Z.of_nat j)
                       = Some (mask (currentGrid (make_uptr type)) i j)).
    { rewrite Hlocked. apply locked_written.
      - exact grid_positions_NoDup.
      - exact grid_positions_lt.
      - exact Hrect.
      - apply grid_positions_complete; assumption.
      - rewrite Hmino. reflexivity.
      - cbn [spawned active_piece_y active_piece_x set_active_piece_y
             set_active_piece_x set_active_piece matrix].
        rewrite (lock_target_plain (matrix w) 3 0 i j)
          by (rewrite ?wrapu_small by (unfold UINT_MAX; lia); lia).
        rewrite wrapu_small by (unfold UINT_MAX; lia). reflexivity. }
    rewrite <- Hwritten.
    rewrite !matrix_at_lookup by lia.
    change (matrix (set_gameover true w3)) with (matrix w3).
    rewrite Nat2Z.id. rewrite Hrows by exact Hpend. reflexivity.
Qed.

End SpawnFacts.

Lemma rectangular_stacked_matrix : rectangular stacked_matrix.
Proof. unfold rectangular. repeat constructor. Qed.

Lemma addPiece_game_over_witness :
  ∃ w' : @Well demo,
    addPiece PieceType.O stacked_well = Some w' ∧
    set_gameover true <$> lockAndReleasePiece (spawned PieceType.O stacked_well 0)
      = Some w' ∧
    gameover w' = true ∧
    active_piece w' = None ∧
    notified w' = notified stacked_well ++ [PIECE_LOCKED] ∧
    (∀ i j : nat, (i < 4)%nat → (j < 4)%nat →
       is_Some (mask (currentGrid (@make_uptr demo PieceType.O)) i j) →
       Z.of_nat i < height (matrix stacked_well) →
       3 + Z.of_nat j < width (matrix stacked_well) →
       i ∉ pending_cleared_rows w' →
       matrix_at (matrix w') (Z.of_nat i) (3 + Z.of_nat j)
       = Some (mask (currentGrid (@make_uptr demo PieceType.O)) i j)).
Proof.
  apply (addPiece_game_over PieceType.O stacked_well).
  - exact rectangular_stacked_matrix.
  - intros r Hr. change (pending_cleared_rows stacked_well) with (∅ : gset nat) in Hr.
    exfalso. exact (not_elem_of_empty r Hr).
  - vm_compute. reflexivity.
Defined.

(** ** Removing the cleared rows *)

Section RowsWhere.
Context {A : Type}.
Implicit Types (f : nat → bool) (l : list A).

Lemma rows_where_app f l1 l2 (i0 : nat) :
  rows_where f i0 (l1 ++ l2)
  = rows_where f i0 l1 ++ rows_where f (i0 + length l1) l2.
Proof.
  revert i0. induction l1 as [|r l1 IH]; intros i0; cbn [rows_where app length].
  - rewrite Nat.add_0_r. reflexivity.
  - rewrite IH. replace (S i0 + length l1)%nat with (i0 + S (length l1))%nat by lia.
    destruct (f i0); reflexivity.
Qed.

Lemma rows_where_ext f g l (i0 : nat) :
  (∀ i, (i0 ≤ i < i0 + length l)%nat → f i = g i) →
  rows_where f i0 l = rows_where g i0 l.
Proof.
  revert i0. induction l as [|r l IH]; intros i0 Hfg; [reflexivity|].
  cbn [rows_where]. cbn [length] in Hfg.
  rewrite (Hfg i0) by lia. rewrite IH; [reflexivity|].
  intros i Hi. apply Hfg. lia.
Qed.

Lemma rows_where_all f l (i0 : nat) :
  (∀ i, (i0 ≤ i < i0 + length l)%nat → f i = true) → rows_where f i0 l = l.
Proof.
  revert i0. induction l as [|r l IH]; intros i0 Hf; [reflexivity|].
  cbn [rows_where]. cbn [length] in Hf.
  rewrite (Hf i0) by lia. rewrite IH; [reflexivity|].
  intros i Hi. apply Hf. lia.
Qed.

Lemma rows_where_none f l (i0 : nat) :
  (∀ i, (i0 ≤ i < i0 + length l)%nat → f i = false) → rows_where f i0 l = [].
Proof.
  revert i0. induction l as [|r l IH]; intros i0 Hf; [reflexivity|].
  cbn [rows_where]. cbn [length] in Hf.
  rewrite (Hf i0) by lia. apply IH.
  intros i Hi. apply Hf. lia.
Qed.

Lemma rows_where_length f l (i0 : nat) :
  length (rows_where f i0 l) = count_from f i0 (length l).
Proof.
  unfold count_from. revert i0.
  induction l as [|r l IH]; intros i0; [reflexivity|].
  cbn [rows_where length seq List.filter].
  destruct (f i0); cbn [length]; rewrite IH; reflexivity.
Qed.

(** A row that satisfies [f] is found after the rows before it that do. *)
Lemma rows_where_lookup f l (i0 i : nat) :
  f (i0 + i)%nat = true →
  rows_where f i0 l !! count_from f i0 i = l !! i.
Proof.
  unfold count_from. revert i0 i.
  induction l as [|r l IH]; intros i0 i Hf.
  - cbn [rows_where]. rewrite !lookup_nil. reflexivity.
  - destruct i as [|i].
    + rewrite Nat.add_0_r in Hf. cbn [rows_where seq List.filter length].
      rewrite Hf. reflexivity.
    + cbn [rows_where seq List.filter].
      replace (i0 + S i)%nat with (S i0 + i)%nat in Hf by lia.
      destruct (f i0); cbn [length lookup list_lookup]; apply IH; exact Hf.
Qed.

End RowsWhere.

Lemma count_from_add (f : nat → bool) (i0 n1 n2 : nat) :
  count_from f i0 (n1 + n2)
  = (count_from f i0 n1 + count_from f (i0 + n1) n2)%nat.
Proof.
  unfold count_from. rewrite seq_app, List.filter_app, length_app. reflexivity.
Qed.

Lemma count_from_negb (f : nat → bool) (i0 n : nat) :
  (count_from f i0 n + count_from (λ i, negb (f i)) i0 n = n)%nat.
Proof.
  unfold count_from. revert i0. induction n as [|n IH]; intros i0; [reflexivity|].
  cbn [seq List.filter]. specialize (IH (S i0)).
  destruct (f i0); cbn [negb length]; lia.
Qed.

Lemma next_filled_row_None (P : gset nat) (n : nat) :
  next_filled_row P n = None → ∀ i : nat, (i ≤ n)%nat → i ∈ P.
Proof.
  induction n as [|n IH]; cbn [next_filled_row]; intros Hnone i Hi.
  - destruct (bool_decide (0%nat ∈ P)) eqn:H0; [|discriminate].
    apply bool_decide_eq_true in H0. replace i with 0%nat by lia. exact H0.
  - destruct (bool_decide (S n ∈ P)) eqn:HS; [|discriminate].
    apply bool_decide_eq_true in HS.
    destruct (decide (i = S n)) as [->|Hne]; [exact HS|].
    apply IH; [exact Hnone|lia].
Qed.

Lemma next_filled_row_Some (P : gset nat) (n k : nat) :
  next_filled_row P n = Some k →
  (k ≤ n)%nat ∧ (k ∉ P) ∧ (∀ i : nat, (k < i ≤ n)%nat → i ∈ P).
Proof.
  induction n as [|n IH]; cbn [next_filled_row]; intros Hsome.
  - destruct (bool_decide (0%nat ∈ P)) eqn:H0; [discriminate|].
    apply bool_decide_eq_false in H0. injection Hsome as <-.
    split; [lia|]. split; [exact H0|]. intros i Hi. lia.
  - destruct (bool_decide (S n ∈ P)) eqn:HS.
    + apply bool_decide_eq_true in HS.
      destruct (IH Hsome) as (Hle & Hnot & Hall).
      split; [lia|]. split; [exact Hnot|]. intros i Hi.
      destruct (decide (i = S n)) as [->|Hne]; [exact HS|]. apply Hall. lia.
    + apply bool_decide_eq_false in HS. injection Hsome as <-.
      split; [lia|]. split; [exact HS|]. intros i Hi. lia.
Qed.

Lemma list_insert_middle {A} (l1 l2 : list A) (x y : A) :
  <[length l1 := x]> (l1 ++ y :: l2) = l1 ++ x :: l2.
Proof.
  rewrite insert_app_r_alt by lia. rewrite Nat.sub_diag. reflexivity.
Qed.

(** The exchange of two rows, on the board cut at the two rows. *)
Lemma swap_rows_split {A} (m : list A) (i j : nat) :
  (j < i < length m)%nat →
  ∃ (a : list A) (x : A) (b : list A) (y : A) (c : list A),
    m = a ++ x :: b ++ y :: c ∧ length a = j ∧ length (a ++ x :: b) = i
    ∧ (ri ← m !! i; rj ← m !! j; Some (<[j := ri]> (<[i := rj]> m)))
      = Some (a ++ y :: b ++ x :: c).
Proof.
  intros Hij.
  destruct (lookup_lt_is_Some_2 m i) as [y Hy]; [lia|].
  destruct (lookup_lt_is_Some_2 m j) as [x Hx]; [lia|].
  exists (take j m), x, (take (i - S j) (drop (S j) m)), y, (drop (S i) m).
  assert (Hm : m = take j m ++ x :: take (i - S j) (drop (S j) m) ++ y :: drop (S i) m).
  { rewrite <- (take_drop j m) at 1. f_equal.
    rewrite (drop_S m x j Hx). f_equal.
    rewrite <- (take_drop (i - S j) (drop (S j) m)) at 1. f_equal.
    rewrite drop_drop. replace (S j + (i - S j))%nat with i by lia.
    apply drop_S. exact Hy. }
  assert (Hla : length (take j m) = j) by (rewrite length_take; lia).
  assert (Hlb : length (take j m ++ x :: take (i - S j) (drop (S j) m)) = i).
  { rewrite length_app, Hla. cbn [length]. rewrite length_take, length_drop. lia. }
  split; [exact Hm|]. split; [exact Hla|]. split; [exact Hlb|].
  rewrite Hy, Hx. cbn [mbind option_bind]. f_equal.
  rewrite Hm at 1.
  set (a := take j m) in *. set (b := take (i - S j) (drop (S j) m)) in *.
  set (c := drop (S i) m) in *.
  transitivity (<[length a := y]>
                  (<[length (a ++ x :: b) := x]> ((a ++ x :: b) ++ y :: c))).
  { rewrite Hla, Hlb, <- app_assoc. reflexivity. }
  rewrite list_insert_middle, <- app_assoc. cbn [app].
  apply list_insert_middle.
Qed.

Lemma take_S_lookup {A} (l : list A) (n : nat) (x : A) :
  l !! n = Some x → take (S n) l = take n l ++ [x].
Proof. intros Hx. apply take_S_r. exact Hx. Qed.

(** The loop of [removeEmptyRows] from row [row] upwards: the rows up to
    [row] that are not pending move down to [row], in their order, and the
    pending ones gather above them. *)
Lemma compact_loop_spec (row : nat) : ∀ (m : Matrix) (P : gset nat),
  (row < length m)%nat →
  ∃ (top : Matrix) (P' : gset nat),
    compact_loop row m P
    = Some (top ++ rows_where (λ i, negb (bool_decide (i ∈ P))) 0 (take (S row) m)
                ++ drop (S row) m, P')
    ∧ top ≡ₚ rows_where (λ i, bool_decide (i ∈ P)) 0 (take (S row) m).
Proof.
  induction row as [|k IH]; intros m P Hlen.
  - destruct m as [|r0 m]; [cbn in Hlen; lia|].
    cbn [compact_loop next_filled_row take drop rows_where].
    destruct (bool_decide (0%nat ∈ P)); cbn [negb].
    + exists [r0], P. split; reflexivity.
    + exists [], P. split; reflexivity.
  - destruct (lookup_lt_is_Some_2 m (S k) Hlen) as [y Hy].
    cbn [compact_loop].
    destruct (bool_decide (S k ∈ P)) eqn:HSk.
    + apply bool_decide_eq_true in HSk.
      destruct (next_filled_row P (S k)) as [nfr|] eqn:Hnfr.
      * apply next_filled_row_Some in Hnfr as (Hle & Hnot & Hall).
        assert (Hlt : (nfr < S k)%nat).
        { destruct (decide (nfr = S k)) as [->|]; [contradiction|lia]. }
        destruct (swap_rows_split m (S k) nfr) as (a & x & b & y' & c & Hm & Hla & Hlb & Hswap);
          [lia|].
        unfold swap_rows. rewrite Hswap. cbn [mbind option_bind].
        set (m1 := a ++ y' :: b ++ x :: c).
        destruct (IH m1 ({[nfr]} ∪ P)) as (top & P' & Hrun & Hperm).
        { unfold m1. rewrite Hm in Hlen. rewrite !length_app in *. cbn [length] in *.
          rewrite !length_app in *. cbn [length] in *. lia. }
        assert (Hlb' : length b = (k - nfr)%nat).
        { rewrite length_app in Hlb. cbn [length] in Hlb. lia. }
        assert (Htake1 : take (S k) m1 = a ++ y' :: b).
        { unfold m1. replace (a ++ y' :: b ++ x :: c) with ((a ++ y' :: b) ++ x :: c)
            by (rewrite <- app_assoc; reflexivity).
          apply take_app_length'. rewrite length_app in *. cbn [length] in *. lia. }
        assert (Hdrop1 : drop (S k) m1 = x :: c).
        { unfold m1. replace (a ++ y' :: b ++ x :: c) with ((a ++ y' :: b) ++ x :: c)
            by (rewrite <- app_assoc; reflexivity).
          apply drop_app_length'. rewrite length_app in *. cbn [length] in *. lia. }
        assert (Htake : take (S (S k)) m = a ++ x :: b ++ [y']).
        { rewrite Hm.
          replace (a ++ x :: b ++ y' :: c) with ((a ++ x :: b ++ [y']) ++ c)
            by (rewrite <- !app_assoc; cbn [app]; rewrite <- app_assoc; reflexivity).
          apply take_app_length'. rewrite !length_app in *. cbn [length] in *.
          rewrite length_app. cbn [length]. lia. }
        assert (Hdrop : drop (S (S k)) m = c).
        { rewrite Hm.
          replace (a ++ x :: b ++ y' :: c) with ((a ++ x :: b ++ [y']) ++ c)
            by (rewrite <- !app_assoc; cbn [app]; rewrite <- app_assoc; reflexivity).
          apply drop_app_length'. rewrite !length_app in *. cbn [length] in *.
          rewrite length_app. cbn [length]. lia. }
        rewrite Htake1, Hdrop1 in Hrun. rewrite Htake1 in Hperm.
        rewrite Hrun. exists top, P'.
        rewrite Htake, Hdrop.
        (* the rows above [nfr] are judged alike by both sets *)
        assert (Ha_keep :
          rows_where (λ i, negb (bool_decide (i ∈ ({[nfr]} ∪ P : gset nat)))) 0 a
          = rows_where (λ i, negb (bool_decide (i ∈ P))) 0 a).
        { apply rows_where_ext. intros i Hi. f_equal.
          apply bool_decide_ext. rewrite elem_of_union, elem_of_singleton.
          split; [intros [->|Hin]; [lia|exact Hin]|auto]. }
        assert (Ha_in :
          rows_where (λ i, bool_decide (i ∈ ({[nfr]} ∪ P : gset nat))) 0 a
          = rows_where (λ i, bool_decide (i ∈ P)) 0 a).
        { apply rows_where_ext. intros i Hi.
          apply bool_decide_ext. rewrite elem_of_union, elem_of_singleton.
          split; [intros [->|Hin]; [lia|exact Hin]|auto]. }
        split.
        -- rewrite !rows_where_app. cbn [Nat.add]. rewrite Ha_keep, Hla.
           rewrite (rows_where_none _ (y' :: b)).
           2:{ intros i Hi. cbn [length] in Hi. apply negb_false_iff.
               apply bool_decide_eq_true.
               destruct (decide (i = nfr)) as [->|];
                 [apply elem_of_union_l, elem_of_singleton; reflexivity|].
               apply elem_of_union_r. apply Hall. lia. }
           cbn [rows_where]. rewrite (bool_decide_eq_false_2 _ Hnot).
           cbn [negb].
           rewrite (rows_where_none _ (b ++ [y'])).
           2:{ intros i Hi. rewrite length_app in Hi. cbn [length] in Hi.
               apply negb_false_iff. apply bool_decide_eq_true. apply Hall. lia. }
           rewrite app_nil_r, <- !app_assoc. reflexivity.
        -- rewrite Hperm. rewrite !rows_where_app. cbn [Nat.add].
           rewrite Ha_in, Hla. apply Permutation_app_head.
           rewrite (rows_where_all _ (y' :: b)).
           2:{ intros i Hi. cbn [length] in Hi. apply bool_decide_eq_true.
               destruct (decide (i = nfr)) as [->|];
                 [apply elem_of_union_l, elem_of_singleton; reflexivity|].
               apply elem_of_union_r. apply Hall. lia. }
           cbn [rows_where]. rewrite (bool_decide_eq_false_2 _ Hnot).
           rewrite (rows_where_all _ (b ++ [y'])).
           2:{ intros i Hi. rewrite length_app in Hi. cbn [length] in Hi.
               apply bool_decide_eq_true. apply Hall. lia. }
           apply Permutation_cons_append.
      * pose proof (next_filled_row_None P (S k) Hnfr) as Hall.
        exists (take (S (S k)) m), P. split.
        -- f_equal. f_equal.
           rewrite (rows_where_none _ (take (S (S k)) m)).
           2:{ intros i Hi. rewrite length_take in Hi. apply negb_false_iff.
               apply bool_decide_eq_true. apply Hall. lia. }
           cbn [app]. symmetry. apply take_drop.
        -- rewrite rows_where_all; [reflexivity|].
           intros i Hi. rewrite length_take in Hi.
           apply bool_decide_eq_true. apply Hall. lia.
    + apply bool_decide_eq_false in HSk.
      destruct (IH m P) as (top & P' & Hrun & Hperm); [lia|].
      rewrite Hrun. exists top, P'.
      rewrite (take_S_lookup m (S k) y Hy). rewrite !rows_where_app.
      rewrite length_take. replace (0 + S k `min` length m)%nat with (S k) by lia.
      cbn [rows_where]. rewrite (bool_decide_eq_false_2 _ HSk). cbn [negb].
      split.
      * f_equal. f_equal. f_equal. rewrite <- app_assoc. f_equal. cbn [app].
        apply drop_S. exact Hy.
      * rewrite app_nil_r. exact Hperm.
Qed.

(** The whole loop of [removeEmptyRows]. *)
Lemma compact_loop_board (m : Matrix) (P : gset nat) :
  (∀ r : nat, r ∈ P → (r < length m)%nat) →
  ∃ (top : Matrix) (P' : gset nat),
    compact_loop (length m) m P = Some (top ++ surviving_rows P m, P')
    ∧ top ≡ₚ cleared_rows P m.
Proof.
  intros Hbound. unfold surviving_rows, cleared_rows.
  assert (Hout : bool_decide (length m ∈ P) = false).
  { apply bool_decide_eq_false. intros Hin. apply Hbound in Hin. lia. }
  destruct (length m) as [|k] eqn:Hlen.
  - destruct m; [|discriminate]. cbn [compact_loop]. rewrite Hout.
    exists [], P. split; reflexivity.
  - cbn [compact_loop]. rewrite Hout.
    destruct (compact_loop_spec k m P) as (top & P' & Hrun & Hperm); [lia|].
    rewrite take_ge, drop_ge, app_nil_r in Hrun by lia.
    rewrite take_ge in Hperm by lia.
    exists top, P'. split; assumption.
Qed.

(** Where a surviving row lands below a block of cleared rows. *)
Lemma surviving_row_lookup (m top : Matrix) (P : gset nat) (i : nat) :
  top ≡ₚ cleared_rows P m → (i < length m)%nat → i ∉ P →
  (top ++ surviving_rows P m) !! (i + cleared_below P (length m) i)%nat = m !! i.
Proof.
  intros Hperm Hi Hnot. unfold surviving_rows, cleared_rows, cleared_below in *.
  set (inP := λ j : nat, bool_decide (j ∈ P)) in *.
  assert (Htop : length top = count_from inP 0 (length m)).
  { rewrite Hperm. apply rows_where_length. }
  assert (Hsplit : count_from inP 0 (length m)
            = (count_from inP 0 i + count_from inP (S i) (length m - S i))%nat).
  { replace (length m) with (i + (1 + (length m - S i)))%nat at 1 by lia.
    rewrite !count_from_add. cbn [Nat.add].
    replace (count_from inP i 1) with 0%nat.
    - replace (i + 1)%nat with (S i) by lia. lia.
    - unfold count_from, inP. cbn [seq List.filter].
      rewrite (bool_decide_eq_false_2 _ Hnot). reflexivity. }
  pose proof (count_from_negb inP 0 i) as Hneg.
  rewrite lookup_app_r by lia.
  replace (i + count_from inP (S i) (length m - S i) - length top)%nat
    with (count_from (λ j, negb (inP j)) 0 i) by lia.
  apply rows_where_lookup. cbn [Nat.add]. unfold inP.
  rewrite (bool_decide_eq_false_2 _ Hnot). reflexivity.
Qed.

Section CompactionFacts.
Context `{Collaborators}.

(** C5: with a pending set of rows of the board that is not empty, and the
    blocking animations all finished after this frame's animation step, one
    call of [update] returns with the board compacted: it is a block of the
    cleared rows on top of the surviving rows in their order, so that each
    surviving row [i] lies [cleared_below] rows lower, the number of cleared
    rows below it; [LINE_CLEAR], with the size of the pending set, and then
    [NEXT_REQUESTED] were notified; the pending set is empty and the lock
    countdown was stopped. *)
Theorem update_finishes_line_clear (events : list InputEvent) (w : Well) :
  gameover w = false →
  pending_cleared_rows w ≠ ∅ →
  (∀ r : nat, r ∈ pending_cleared_rows w → (r < length (matrix w))%nat) →
  step_animations (blocking_anims w) = [] →
  ∃ (w' : Well) (top : Matrix),
    update events w = Some w' ∧
    matrix w' = top ++ surviving_rows (pending_cleared_rows w) (matrix w) ∧
    top ≡ₚ cleared_rows (pending_cleared_rows w) (matrix w) ∧
    (∀ i : nat, (i < length (matrix w))%nat → i ∉ pending_cleared_rows w →
       matrix w' !! (i + cleared_below (pending_cleared_rows w)
                                        (length (matrix w)) i)%nat
       = matrix w !! i) ∧
    notified w'
    = notified w ++ [LINE_CLEAR (Z.of_nat (size (pending_cleared_rows w)));
                     NEXT_REQUESTED] ∧
    pending_cleared_rows w' = ∅ ∧
    lock_countdown w' = tr_stop (lock_countdown w).
Proof.
  intros Hover Hpending Hbound Hanims.
  destruct (compact_loop_board (matrix w) (pending_cleared_rows w) Hbound)
    as (top & P' & Hrun & Hperm).
  eexists. exists top. split.
  - unfold update. cbn [gameover updateAnimations set_blocking_anims set_animations
                        pending_cleared_rows blocking_anims].
    rewrite Hover, Hanims.
    rewrite bool_decide_eq_false_2 by (rewrite size_empty_iff; intros HP;
      apply Hpending; apply leibniz_equiv; exact HP).
    cbn [negb length]. rewrite bool_decide_eq_true_2 by reflexivity.
    unfold removeEmptyRows.
    cbn [notify set_notified matrix pending_cleared_rows set_blocking_anims
         set_animations updateAnimations].
    rewrite Hrun. cbn [mbind option_bind fst]. reflexivity.
  - cbn [matrix notify set_notified set_lock_countdown set_pending_cleared_rows
         set_matrix notified pending_cleared_rows lock_countdown
         set_blocking_anims set_animations].
    split; [reflexivity|]. split; [exact Hperm|].
    split; [|split; [|split; reflexivity]].
    + intros i Hi Hnot. apply surviving_row_lookup; assumption.
    + rewrite <- app_assoc. reflexivity.
Qed.

End CompactionFacts.

Lemma update_finishes_line_clear_witness :
  ∃ (w' : @Well demo) (top : Matrix),
    update [] clearing_well = Some w' ∧
    matrix w' = top ++ surviving_rows (pending_cleared_rows clearing_well)
                                      (matrix clearing_well) ∧
    top ≡ₚ cleared_rows (pending_cleared_rows clearing_well) (matrix clearing_well) ∧
    (∀ i : nat, (i < length (matrix clearing_well))%nat →
       i ∉ pending_cleared_rows clearing_well →
       matrix w' !! (i + cleared_below (pending_cleared_rows clearing_well)
                                        (length (matrix clearing_well)) i)%nat
       = matrix clearing_well !! i) ∧
    notified w'
    = notified clearing_well
      ++ [LINE_CLEAR (Z.of_nat (size (pending_cleared_rows clearing_well)));
          NEXT_REQUESTED] ∧
    pending_cleared_rows w' = ∅ ∧
    lock_countdown w' = tr_stop (lock_countdown clearing_well).
Proof.
  apply (update_finishes_line_clear [] clearing_well).
  - reflexivity.
  - change (pending_cleared_rows clearing_well)
      with ({[19%nat]} ∪ {[21%nat]} : gset nat).
    intros Hempty.
    assert (Hin : 21%nat ∈ ({[19%nat]} ∪ {[21%nat]} : gset nat)).
    { apply elem_of_union_r, elem_of_singleton. reflexivity. }
    rewrite Hempty in Hin. exact (not_elem_of_empty _ Hin).
  - change (pending_cleared_rows clearing_well)
      with ({[19%nat]} ∪ {[21%nat]} : gset nat).
    intros r [Hr|Hr]%elem_of_union; apply elem_of_singleton in Hr;
      rewrite Hr; cbn; lia.
  - reflexivity.
Defined.

(** ** What the moves and the drops leave as it is *)

Section FrameFacts.
Context `{Collaborators}.

Lemma calculateGhostOffset_ghost (w w' : Well) :
  calculateGhostOffset w = Some w' →
  w' = set_ghost_piece_y (ghost_piece_y w') w.
Proof.
  unfold calculateGhostOffset. destruct (ghost_loop _ w _) as [g|]; [|discriminate].
  intros [= <-]. reflexivity.
Qed.

Lemma calculateGhostOffset_keeps (w w' : Well) :
  calculateGhostOffset w = Some w' → moves_keep w' = moves_keep w.
Proof. intros ->%calculateGhostOffset_ghost. reflexivity. Qed.

Lemma stop_if_infinity_keeps (w : Well) :
  moves_keep (stop_if_infinity w) = moves_keep w.
Proof. unfold stop_if_infinity. destruct (lock_infinity w); reflexivity. Qed.

Lemma kick_floor_keeps (w w' : Well) (f : Z) :
  kick_floor w f = Some (Some w') → moves_keep w' = moves_keep w.
Proof.
  unfold kick_floor. cbn zeta. intros Hk.
  repeat match type of Hk with
         | context [hasCollisionAt ?a ?b ?c] =>
             destruct (hasCollisionAt a b c) as [[|]|];
             cbn [mbind option_bind negb fmap option_fmap option_map] in Hk
         | context [active_piece w] =>
             destruct (active_piece w);
             cbn [mbind option_bind negb fmap option_fmap option_map] in Hk
         | context [bool_decide ?P] => destruct (bool_decide P)
         | context [matrix w !! 0%nat] =>
             destruct (matrix w !! 0%nat);
             cbn [mbind option_bind negb fmap option_fmap option_map] in Hk
         | context [?a <? ?b] =>
             destruct (a <? b);
             cbn [mbind option_bind negb fmap option_fmap option_map] in Hk
         | context [?a <=? ?b] =>
             destruct (a <=? b);
             cbn [mbind option_bind negb fmap option_fmap option_map] in Hk
         end; try discriminate; injection Hk as <-; reflexivity.
Qed.

Lemma kick_loop_keeps (fuel : nat) : ∀ (w w' : Well) (floor : Z) (b : bool),
  kick_loop fuel w floor = Some (b, w') → moves_keep w' = moves_keep w.
Proof.
  induction fuel as [|fuel IH]; intros w w' floor b; cbn [kick_loop];
    destruct (active_piece w) as [p|]; cbn [mbind option_bind]; try discriminate;
    destruct (floor <? _); try discriminate; try (intros [= <- <-]; reflexivity).
  destruct (kick_floor w floor) as [[w1|]|] eqn:Hfloor; cbn [mbind option_bind];
    try discriminate.
  - intros [= <- <-]. eapply kick_floor_keeps. exact Hfloor.
  - apply IH.
Qed.

Lemma rotateCWNow_keeps (w w' : Well) :
  rotateCWNow w = Some w' → moves_keep w' = moves_keep w.
Proof.
  unfold rotateCWNow. destruct (active_piece w) as [p|]; [|intros [= <-]; reflexivity].
  cbn zeta. destruct (hasCollisionAt _ _ _) as [[|]|]; cbn [mbind option_bind];
    try discriminate.
  - destruct (placeByWallKick _) as [[[|] w2]|] eqn:Hkick; cbn [mbind option_bind];
      try discriminate; apply kick_loop_keeps in Hkick.
    + destruct (calculateGhostOffset w2) as [w3|] eqn:Hghost; cbn [mbind option_bind];
        [|discriminate].
      intros [= <-]. rewrite stop_if_infinity_keeps.
      rewrite (calculateGhostOffset_keeps _ _ Hghost), Hkick. reflexivity.
    + intros [= <-]. transitivity (moves_keep w2); [reflexivity|].
      rewrite Hkick. reflexivity.
  - destruct (calculateGhostOffset _) as [w3|] eqn:Hghost; cbn [mbind option_bind];
      [|discriminate].
    intros [= <-]. rewrite stop_if_infinity_keeps.
    rewrite (calculateGhostOffset_keeps _ _ Hghost). reflexivity.
Qed.

Lemma rotateCCWNow_keeps (w w' : Well) :
  rotateCCWNow w = Some w' → moves_keep w' = moves_keep w.
Proof.
  unfold rotateCCWNow. destruct (active_piece w) as [p|]; [|intros [= <-]; reflexivity].
  cbn zeta. destruct (hasCollisionAt _ _ _) as [[|]|]; cbn [mbind option_bind];
    try discriminate.
  - destruct (placeByWallKick _) as [[[|] w2]|] eqn:Hkick; cbn [mbind option_bind];
      try discriminate; apply kick_loop_keeps in Hkick.
    + destruct (calculateGhostOffset w2) as [w3|] eqn:Hghost; cbn [mbind option_bind];
        [|discriminate].
      intros [= <-]. rewrite stop_if_infinity_keeps.
      rewrite (calculateGhostOffset_keeps _ _ Hghost), Hkick. reflexivity.
    + intros [= <-]. transitivity (moves_keep w2); [reflexivity|].
      rewrite Hkick. reflexivity.
  - destruct (calculateGhostOffset _) as [w3|] eqn:Hghost; cbn [mbind option_bind];
      [|discriminate].
    intros [= <-]. rewrite stop_if_infinity_keeps.
    rewrite (calculateGhostOffset_keeps _ _ Hghost). reflexivity.
Qed.

Lemma moveLeftNow_keeps (w w' : Well) :
  moveLeftNow w = Some w' → moves_keep w' = moves_keep w.
Proof.
  unfold moveLeftNow. destruct (_ || _); [intros [= <-]; reflexivity|].
  destruct (hasCollisionAt _ _ _) as [[|]|]; cbn [mbind option_bind negb];
    try discriminate; [intros [= <-]; reflexivity|].
  destruct (calculateGhostOffset _) as [w3|] eqn:Hghost; cbn [mbind option_bind];
    [|discriminate].
  intros [= <-]. rewrite stop_if_infinity_keeps.
  rewrite (calculateGhostOffset_keeps _ _ Hghost). reflexivity.
Qed.

Lemma moveRightNow_keeps (w w' : Well) :
  moveRightNow w = Some w' → moves_keep w' = moves_keep w.
Proof.
  unfold moveRightNow. destruct (_ || _); [intros [= <-]; reflexivity|].
  destruct (hasCollisionAt _ _ _) as [[|]|]; cbn [mbind option_bind negb];
    try discriminate; [intros [= <-]; reflexivity|].
  destruct (calculateGhostOffset _) as [w3|] eqn:Hghost; cbn [mbind option_bind];
    [|discriminate].
  intros [= <-]. rewrite stop_if_infinity_keeps.
  rewrite (calculateGhostOffset_keeps _ _ Hghost). reflexivity.
Qed.

(** The lock of a piece and what follows it. *)

Lemma for_each_keeps {A St B} (body : A → St → option St) (view : St → B)
    (l : list A) :
  (∀ a s s', body a s = Some s' → view s' = view s) →
  ∀ s s', for_each body l s = Some s' → view s' = view s.
Proof.
  intros Hbody. induction l as [|a l IH]; intros s s'; cbn [for_each].
  - intros [= <-]. reflexivity.
  - destruct (body a s) as [s1|] eqn:Hs1; cbn [mbind option_bind]; [|discriminate].
    intros Hrest. rewrite (IH _ _ Hrest). eapply Hbody. exact Hs1.
Qed.

Lemma lock_cell_keeps (i j : nat) (w w' : Well) :
  lock_cell i j w = Some w' → drops_keep w' = drops_keep w.
Proof.
  unfold lock_cell. cbn zeta. intros Hl.
  repeat match type of Hl with
         | context [if ?x then _ else _] => destruct x eqn:?
         | mbind _ ?x = _ => destruct x eqn:?; cbn [mbind option_bind] in Hl
         end; try discriminate; injection Hl as <-; reflexivity.
Qed.

Lemma lock_cells_keeps (w w' : Well) :
  lock_cells w = Some w' → drops_keep w' = drops_keep w.
Proof.
  unfold lock_cells, lock_row. apply for_each_keeps. intros i s s'.
  apply for_each_keeps. intros j. apply lock_cell_keeps.
Qed.

Lemma checkLineclear_keeps (w w' : Well) :
  checkLineclear w = Some w' → drops_keep w' = drops_keep w.
Proof.
  unfold checkLineclear. cbn zeta.
  destruct (bool_decide _); [intros [= <-]; reflexivity|].
  destruct (for_each _ _ _) as [w2|] eqn:Hloop; cbn [mbind option_bind];
    [|discriminate].
  intros [= <-].
  apply (for_each_keeps _ drops_keep) in Hloop.
  - transitivity (drops_keep w2); [reflexivity|]. rewrite Hloop. reflexivity.
  - intros row s s'. unfold clear_pending_row.
    destruct (clear_row _ _); cbn [mbind option_bind]; [|discriminate].
    destruct (2 <=? _); intros [= <-]; reflexivity.
Qed.

Lemma lockAndReleasePiece_keeps (w w' : Well) :
  lockAndReleasePiece w = Some w' → drops_keep w' = drops_keep w.
Proof.
  unfold lockAndReleasePiece.
  destruct (lock_cells w) as [w1|] eqn:Hcells; cbn [mbind option_bind];
    [|discriminate].
  intros ->%checkLineclear_keeps.
  transitivity (drops_keep w1); [reflexivity|].
  apply lock_cells_keeps. exact Hcells.
Qed.

Lemma lockThenRequestNext_keeps (w w' : Well) :
  lockThenRequestNext w = Some w' → drops_keep w' = drops_keep w.
Proof.
  unfold lockThenRequestNext.
  destruct (lockAndReleasePiece w) as [w1|] eqn:Hlock; cbn [mbind option_bind];
    [|discriminate].
  intros [= <-]. transitivity (drops_keep w1).
  - destruct (_ && _); reflexivity.
  - apply lockAndReleasePiece_keeps. exact Hlock.
Qed.

Lemma moveDownNow_keeps (w w' : Well) :
  moveDownNow w = Some w' → drops_keep w' = drops_keep w.
Proof.
  unfold moveDownNow. destruct (_ || _); [intros [= <-]; reflexivity|].
  destruct (isOnGround w) as [[|]|]; cbn [mbind option_bind negb];
    try discriminate; [|intros [= <-]; reflexivity].
  destruct (_ && _); [apply lockThenRequestNext_keeps|intros [= <-]; reflexivity].
Qed.

Lemma hardDrop_keeps (w w' : Well) :
  hardDrop w = Some w' → drops_keep w' = drops_keep w.
Proof.
  unfold hardDrop.
  destruct (moveDownNow _) as [w1|] eqn:Hdown; cbn [mbind option_bind];
    [|discriminate].
  apply moveDownNow_keeps in Hdown.
  destruct (harddrop_locks_instantly w1).
  - intros ->%lockThenRequestNext_keeps. rewrite Hdown. reflexivity.
  - intros [= <-]. rewrite Hdown. reflexivity.
Qed.


(** ** The keys of a frame *)








(** ** Gravity *)

Lemma applyGravity_steps (w w' : Well) :
  applyGravity w = Some w' →
  gravity_steps w' = S (gravity_steps w)
  ∧ skip_gravity w' = skip_gravity w
  ∧ gravity_delay w' = gravity_delay w
  ∧ gravity_timer w' = gravity_timer w.
Proof.
  unfold applyGravity. intros Hdown%moveDownNow_keeps.
  injection Hdown as _ _ Hskip _ _ Hdelay Htimer Hsteps. auto.
Qed.




(** ** The row of the piece in a frame *)















(** In a running game without pending rows, [update] is the animation step,
    the keys, gravity and the lock delay. *)
Lemma update_keys_then_gravity (events : list InputEvent) (w w1 w2 : Well) :
  gameover w = false → pending_cleared_rows w = ∅ →
  keys_then_gravity events (updateAnimations w) = Some (w1, w2) →
  update events w = updateLockDelay w2.
Proof.
  intros Hover Hpending. unfold keys_then_gravity, update. cbn zeta.
  change (gameover (updateAnimations w)) with (gameover w).
  change (pending_cleared_rows (updateAnimations w)) with (pending_cleared_rows w).
  rewrite Hover, Hpending, size_empty. cbn [negb bool_decide decide_rel].
  rewrite bool_decide_eq_true_2 by reflexivity. cbn [negb].
  destruct (handleKeys events _) as [v1|]; cbn [mbind option_bind]; [|discriminate].
  destruct (bool_decide (active_piece v1 = None)); [discriminate|].
  destruct (updateGravity v1) as [v2|]; cbn [mbind option_bind]; [|discriminate].
  intros [= <- <-]. reflexivity.
Qed.

End FrameFacts.



(** DOWN held for 16 frames at the speed of a new game: gravity takes no
    step, and the piece goes down four rows, one in each fourth frame, in a
    time that holds five soft drop delays. *)
Lemma held_down_descends_by_frames :
  ∃ w' : @Well demo,
    run_frames (replicate 16 []) held_well = Some w'
    ∧ active_piece_y w' = active_piece_y held_well + 4
    ∧ gravity_steps w' = gravity_steps held_well
    ∧ softdrop_delay held_well = Z.quot (gravity_delay held_well) 20
    ∧ 5 * softdrop_delay held_well ≤ 16 * @frame demo.
Proof.
  destruct (run_frames (replicate 16 []) held_well) as [w'|] eqn:Hrun;
    [|vm_compute in Hrun; discriminate Hrun].
  exists w'. split; [reflexivity|].
  vm_compute in Hrun. injection Hrun as <-.
  repeat split; vm_compute; try reflexivity; discriminate.
Qed.

(** ** Horizontal moves and DAS *)

Section MoveFacts.
Context `{Collaborators}.

Lemma ghost_loop_S (fuel : nat) (w : Well) (ghost : Z) :
  ghost_loop (S fuel) w ghost =
  if wrapu (ghost + 1) <? height (matrix w) then
    c ← hasCollisionAt w (active_piece_x w) (wrapu (ghost + 1));
    if c : bool then Some ghost else ghost_loop fuel w (wrapu (ghost + 1))
  else Some ghost.
Proof. reflexivity. Qed.



Lemma free_at_false (w : Well) (x y : Z) :
  free_at w x y = true → hasCollisionAt w x y = Some false.
Proof.
  unfold free_at. destruct (hasCollisionAt w x y) as [[|]|]; congruence.
Qed.



End MoveFacts.



(** ** The piece supply *)

Lemma allTypes_length : length PieceType.allTypes = 7%nat.
Proof. reflexivity. Qed.

(** The [k]-th of a row of bags of seven is the [k]-th block of seven of
    their concatenation. *)
Lemma concat_block (k : nat) : ∀ bags : list (list PieceType.t),
  Forall (λ b, length b = 7%nat) bags →
  (7 * k + 7 ≤ length (concat bags))%nat →
  ∃ b, bags !! k = Some b ∧ window (7 * k) 7 (concat bags) = b.
Proof.
  unfold window. induction k as [|k IH]; intros bags Hbags Hlen.
  - destruct bags as [|b bags]; [cbn in Hlen; lia|].
    apply Forall_cons in Hbags as [Hb _].
    exists b. split; [reflexivity|]. cbn [concat Nat.mul drop].
    apply take_app_length'. symmetry. exact Hb.
  - destruct bags as [|b bags]; [cbn in Hlen; lia|].
    apply Forall_cons in Hbags as [Hb Hbags].
    cbn [concat] in *. rewrite length_app, Hb in Hlen.
    destruct (IH bags Hbags) as (b' & Hlookup & Hblock); [lia|].
    exists b'. split; [exact Hlookup|].
    replace (7 * S k)%nat with (length b + 7 * k)%nat by lia.
    rewrite drop_app_add'; [exact Hblock|reflexivity].
Qed.

Lemma window_app (skip len : nat) (l rest : list PieceType.t) :
  (skip + len ≤ length l)%nat → window skip len (l ++ rest) = window skip len l.
Proof.
  intros Hlen. unfold window.
  rewrite drop_app_le by lia. apply take_app_le. rewrite length_drop. lia.
Qed.

Lemma window_elem (skip len : nat) (l : list PieceType.t) (t : PieceType.t) :
  t ∈ window skip len l ↔ ∃ i : nat, (i < len)%nat ∧ l !! (skip + i)%nat = Some t.
Proof.
  unfold window. rewrite list_elem_of_lookup. split.
  - intros (i & Hi). apply lookup_take_Some in Hi as [Hi Hlt].
    rewrite lookup_drop in Hi. eauto.
  - intros (i & Hlt & Hi). exists i. rewrite lookup_take_lt by exact Hlt.
    rewrite lookup_drop. exact Hi.
Qed.

Section QueueFacts.
Variable random_shuffle : nat → list PieceType.t → list PieceType.t.
Hypothesis random_shuffle_permutes : ∀ k l, random_shuffle k l ≡ₚ l.

Lemma generate_pieces_bagged (pre : list PieceType.t) (q : PieceQueue) :
  (∃ bags : list (list PieceType.t),
     Forall (λ b, b ≡ₚ PieceType.allTypes) bags
     ∧ pre ++ piece_queue q = concat bags
     ∧ possible_pieces q ≡ₚ PieceType.allTypes) →
  bagged pre (generate_pieces random_shuffle q).
Proof.
  intros (bags & Hbags & Hconcat & Hposs).
  assert (Hshuffled : random_shuffle (shuffles q) (possible_pieces q)
                      ≡ₚ PieceType.allTypes).
  { rewrite random_shuffle_permutes. exact Hposs. }
  exists (bags ++ [random_shuffle (shuffles q) (possible_pieces q)]).
  cbn [generate_pieces piece_queue possible_pieces].
  split; [apply Forall_app; split; [exact Hbags|repeat constructor; exact Hshuffled]|].
  split; [rewrite concat_app, app_assoc, Hconcat; cbn; rewrite app_nil_r; reflexivity|].
  split; [exact Hshuffled|].
  intros Hnil. apply app_eq_nil in Hnil as [_ Hnil].
  apply Permutation_length in Hshuffled. rewrite Hnil in Hshuffled. discriminate.
Qed.

Lemma PieceQueue_new_bagged (displayed : nat) :
  bagged [] (PieceQueue_new random_shuffle displayed).
Proof.
  apply generate_pieces_bagged. exists []. repeat split; auto.
Qed.

Lemma next_bagged (pre : list PieceType.t) (q : PieceQueue) :
  bagged pre q →
  ∃ (t : PieceType.t) (q' : PieceQueue),
    next random_shuffle q = Some (t, q') ∧ bagged (pre ++ [t]) q'.
Proof.
  intros (bags & Hbags & Hconcat & Hposs & Hne). unfold next.
  destruct (piece_queue q) as [|t rest] eqn:Hq; [contradiction|].
  eexists. eexists. split; [reflexivity|].
  cbn [piece_queue displayed_piece_count].
  assert (Hrow : ∃ bags0 : list (list PieceType.t),
            Forall (λ b, b ≡ₚ PieceType.allTypes) bags0
            ∧ (pre ++ [t]) ++ rest = concat bags0).
  { exists bags. split; [exact Hbags|]. rewrite <- app_assoc. exact Hconcat. }
  destruct Hrow as (bags0 & Hbags0 & Hconcat0).
  destruct (bool_decide (length rest ≤ displayed_piece_count q)%nat) eqn:Hfew.
  - apply generate_pieces_bagged. exists bags0. auto.
  - apply bool_decide_eq_false in Hfew. exists bags0.
    cbn [piece_queue possible_pieces]. repeat split; auto.
    intros ->. cbn in Hfew. lia.
Qed.

Lemma draws_bagged (n : nat) : ∀ (pre : list PieceType.t) (q : PieceQueue),
  bagged pre q →
  ∃ (l : list PieceType.t) (q' : PieceQueue),
    draws random_shuffle n q = Some (l, q') ∧ length l = n ∧ bagged (pre ++ l) q'.
Proof.
  induction n as [|n IH]; intros pre q Hq.
  - exists [], q. rewrite app_nil_r. auto.
  - destruct (next_bagged pre q Hq) as (t & q1 & Hnext & Hq1).
    destruct (IH _ _ Hq1) as (l & q' & Hdraws & Hlen & Hq').
    exists (t :: l), q'. cbn [draws]. rewrite Hnext. cbn [mbind option_bind snd fst].
    rewrite Hdraws. cbn [mbind option_bind snd fst].
    split; [reflexivity|]. split; [cbn; lia|].
    rewrite <- app_assoc in Hq'. exact Hq'.
Qed.

(** C7, amended: the supply never fails to return a piece, and of the draws
    counted from its construction every block of seven (the draws [7k + 1]
    to [7k + 7]) holds each of the seven types once; so every window of
    thirteen consecutive draws holds every type. *)
Theorem draws_in_bags (displayed n : nat) :
  ∃ (l : list PieceType.t) (q : PieceQueue),
    draws random_shuffle n (PieceQueue_new random_shuffle displayed) = Some (l, q)
    ∧ length l = n
    ∧ (∀ k : nat, (7 * k + 7 ≤ n)%nat → window (7 * k) 7 l ≡ₚ PieceType.allTypes)
    ∧ (∀ skip : nat, (skip + 13 ≤ n)%nat → covers_all_types (window skip 13 l)).
Proof.
  destruct (draws_bagged n [] _ (PieceQueue_new_bagged displayed))
    as (l & q & Hdraws & Hlen & bags & Hbags & Hconcat & _).
  exists l, q. split; [exact Hdraws|]. split; [exact Hlen|].
  cbn [app] in Hconcat.
  assert (Hblock : ∀ k : nat, (7 * k + 7 ≤ n)%nat →
            window (7 * k) 7 l ≡ₚ PieceType.allTypes).
  { intros k Hk.
    rewrite <- (window_app _ _ l (piece_queue q)) by lia. rewrite Hconcat.
    destruct (concat_block k bags) as (b & Hlookup & ->).
    - eapply Forall_impl; [exact Hbags|]. intros b Hb.
      apply Permutation_length in Hb. exact Hb.
    - rewrite <- Hconcat, length_app. lia.
    - rewrite Forall_forall in Hbags. apply Hbags.
      eapply list_elem_of_lookup_2. exact Hlookup. }
  split; [exact Hblock|].
  intros skip Hskip t Ht.
  pose (k := ((skip + 6) / 7)%nat).
  assert (Hk : (skip ≤ 7 * k ∧ 7 * k + 7 ≤ skip + 13)%nat).
  { unfold k. pose proof (Nat.div_mod (skip + 6) 7 ltac:(lia)).
    pose proof (Nat.mod_upper_bound (skip + 6) 7 ltac:(lia)). lia. }
  assert (Hin : t ∈ window (7 * k) 7 l).
  { rewrite (Hblock k) by lia. exact Ht. }
  apply window_elem in Hin as (i & Hi & Hlookup).
  apply window_elem. exists (7 * k + i - skip)%nat. split; [lia|].
  replace (skip + (7 * k + i - skip))%nat with (7 * k + i)%nat by lia.
  exact Hlookup.
Qed.

(** With a preview of at most six pieces the queue holds more pieces than
    the preview after the construction and after every [next]. *)
Lemma small_preview_exceeded (displayed n : nat) :
  (displayed ≤ 6)%nat →
  ∃ (l : list PieceType.t) (q : PieceQueue),
    draws random_shuffle n (PieceQueue_new random_shuffle displayed) = Some (l, q)
    ∧ queue_exceeds_preview q.
Proof.
  intros Hsmall.
  assert (Hgen : ∀ q, (displayed_piece_count q ≤ 6)%nat →
            length (possible_pieces q) = 7%nat →
            queue_exceeds_preview (generate_pieces random_shuffle q)
            ∧ length (possible_pieces (generate_pieces random_shuffle q)) = 7%nat
            ∧ displayed_piece_count (generate_pieces random_shuffle q)
              = displayed_piece_count q).
  { intros q Hd Hp. unfold queue_exceeds_preview. cbn.
    rewrite length_app.
    pose proof (Permutation_length (random_shuffle_permutes (shuffles q)
                                      (possible_pieces q))). lia. }
  assert (Hinv : ∀ m q, (displayed_piece_count q ≤ 6)%nat →
            length (possible_pieces q) = 7%nat → queue_exceeds_preview q →
            ∃ l q', draws random_shuffle m q = Some (l, q')
                    ∧ queue_exceeds_preview q').
  { induction m as [|m IH]; intros q Hd Hp Hq; [exists [], q; auto|].
    cbn [draws]. unfold next. unfold queue_exceeds_preview in Hq.
    destruct (piece_queue q) as [|t rest] eqn:Hqueue; [cbn in Hq; lia|].
    cbn [mbind option_bind fst snd piece_queue displayed_piece_count].
    destruct (bool_decide (length rest ≤ displayed_piece_count q)%nat) eqn:Hfew.
    - destruct (Hgen (mkPieceQueue (displayed_piece_count q) rest
                        (possible_pieces q) (shuffles q)))
        as (Hq1 & Hp1 & Hd1); [exact Hd|exact Hp|].
      destruct (IH _ ltac:(rewrite Hd1; exact Hd) Hp1 Hq1)
        as (l & q' & Hdraws & Hq').
      rewrite Hdraws. cbn [mbind option_bind fst snd]. eauto.
    - apply bool_decide_eq_false in Hfew.
      destruct (IH (mkPieceQueue (displayed_piece_count q) rest
                      (possible_pieces q) (shuffles q)))
        as (l & q' & Hdraws & Hq'); [exact Hd|exact Hp| |].
      + unfold queue_exceeds_preview. cbn. lia.
      + rewrite Hdraws. cbn [mbind option_bind fst snd]. eauto. }
  unfold PieceQueue_new.
  destruct (Hgen (mkPieceQueue displayed [] PieceType.allTypes 0))
    as (Hq & Hp & Hd); [exact Hsmall|reflexivity|].
  apply Hinv; [rewrite Hd; exact Hsmall|exact Hp|exact Hq].
Qed.

End QueueFacts.

Lemma shuffle_reverse_permutes (k : nat) (l : list PieceType.t) :
  shuffle_reverse k l ≡ₚ l.
Proof. unfold shuffle_reverse. symmetry. apply Permutation_rev. Qed.

(** C7, as stated, fails: with a shuffle that reverses the array each time,
    the second to the eighth draw miss the type drawn first. *)
Lemma window_across_bags_misses :
  (∀ k l, shuffle_reverse k l ≡ₚ l) ∧ ¬ every_window_covers shuffle_reverse 5.
Proof.
  split; [exact shuffle_reverse_permutes|].
  intros Hclaim. pose proof (Hclaim 14%nat 1%nat) as Hwindow. clear Hclaim.
  destruct (draws shuffle_reverse 14 (PieceQueue_new shuffle_reverse 5))
    as [[l q]|] eqn:Hdraws; [|vm_compute in Hdraws; discriminate Hdraws].
  specialize (Hwindow l q eq_refl).
  assert (Hlong : (1 + 7 ≤ 14)%nat) by lia.
  specialize (Hwindow Hlong PieceType.Z). clear Hlong.
  vm_compute in Hdraws. injection Hdraws as <- <-.
  assert (Hmissing : PieceType.Z ∉
            window 1 7 [PieceType.Z; PieceType.T; PieceType.S; PieceType.O;
                        PieceType.L; PieceType.J; PieceType.I; PieceType.I;
                        PieceType.J; PieceType.L; PieceType.O; PieceType.S;
                        PieceType.T; PieceType.Z]).
  { apply (bool_decide_unpack _). vm_compute. exact I. }
  apply Hmissing. apply Hwindow.
  apply (bool_decide_unpack _). vm_compute. exact I.
Qed.

Lemma draws_in_bags_witness :
  ∃ (l : list PieceType.t) (q : PieceQueue),
    draws shuffle_reverse 14 (PieceQueue_new shuffle_reverse 5) = Some (l, q)
    ∧ length l = 14%nat
    ∧ (∀ k : nat, (7 * k + 7 ≤ 14)%nat → window (7 * k) 7 l ≡ₚ PieceType.allTypes)
    ∧ (∀ skip : nat, (skip + 13 ≤ 14)%nat → covers_all_types (window skip 13 l)).
Proof.
  apply (draws_in_bags shuffle_reverse shuffle_reverse_permutes 5 14).
Defined.

(** C8 fails on the code: with a preview of 13 pieces the first [next]
    leaves 13 pieces in the queue, and the condition of its [assert] is
    false; with a preview of 7 pieces the constructor leaves 7. *)
Theorem next_breaks_queue_assertion :
  (∃ (t : PieceType.t) (q : PieceQueue),
     next shuffle_reverse (PieceQueue_new shuffle_reverse 13) = Some (t, q)
     ∧ length (piece_queue q) = 13%nat
     ∧ ¬ queue_exceeds_preview q)
  ∧ ¬ queue_exceeds_preview (PieceQueue_new shuffle_reverse 7).
Proof.
  split.
  - eexists. eexists. split; [reflexivity|]. split; [reflexivity|].
    unfold queue_exceeds_preview. vm_compute. lia.
  - unfold queue_exceeds_preview. vm_compute. lia.
Qed.

(** ** The piece in play: ghost row, moves, drops *)

Section GhostFacts.
Context `{Collaborators}.

(** The loop of [calculateGhostOffset] from a row of the board: it stops on
    the first row whose successor is not free or not on the board. *)
Lemma ghost_loop_lowest (w : Well) (p : Piece) :
  active_piece w = Some p → rectangular (matrix w) →
  height (matrix w) + 3 < UINT_MAX →
  ∀ (fuel : nat) (ghost : Z),
    0 ≤ ghost < height (matrix w) →
    (Z.to_nat (height (matrix w) - ghost) ≤ fuel)%nat →
    ∃ g : Z,
      ghost_loop fuel w ghost = Some g
      ∧ ghost ≤ g < height (matrix w)
      ∧ (∀ r : Z, ghost < r ≤ g → free_at w (active_piece_x w) r = true)
      ∧ (g + 1 = height (matrix w)
         ∨ free_at w (active_piece_x w) (g + 1) = false).
Proof.
  intros Hp Hrect Hh. induction fuel as [|fuel IH]; intros ghost Hghost Hfuel;
    [lia|].
  rewrite ghost_loop_S.
  rewrite (wrapu_small (ghost + 1)) by (unfold UINT_MAX in *; lia).
  destruct (ghost + 1 <? height (matrix w)) eqn:Hnext.
  - rewrite (hasCollisionAt_total w p _ _ Hp Hrect); [|lia|lia].
    cbn [mbind option_bind].
    destruct (free_at w (active_piece_x w) (ghost + 1)) eqn:Hfree; cbn [negb].
    + destruct (IH (ghost + 1)) as (g & Hloop & Hrange & Hfrees & Hstop); [lia|lia|].
      exists g. split; [exact Hloop|]. split; [lia|]. split; [|exact Hstop].
      intros r Hr. destruct (decide (r = ghost + 1)) as [->|Hne]; [exact Hfree|].
      apply Hfrees. lia.
    + exists ghost. split; [reflexivity|]. split; [lia|].
      split; [intros r Hr; lia|]. right. exact Hfree.
  - exists ghost. split; [reflexivity|]. split; [lia|].
    split; [intros r Hr; lia|]. left. lia.
Qed.

(** X1: the ghost row.  For a piece on a row of the board
    [calculateGhostOffset] returns, changes nothing but [ghost_piece_y], and
    sets it to the lowest row that the piece reaches by falling straight
    down: it is not above the piece, the piece fits on every row from its
    own, exclusive, down to the ghost row, and below the ghost row it
    collides or the board ends. *)
Theorem calculateGhostOffset_lowest (w : Well) (p : Piece) :
  playable w p →
  ∃ g : Z,
    calculateGhostOffset w = Some (set_ghost_piece_y g w)
    ∧ active_piece_y w ≤ g < height (matrix w)
    ∧ (∀ r : Z, active_piece_y w < r ≤ g → free_at w (active_piece_x w) r = true)
    ∧ (g + 1 = height (matrix w)
       ∨ free_at w (active_piece_x w) (g + 1) = false).
Proof.
  intros (Hp & Hrect & Hh & Hy). unfold calculateGhostOffset.
  destruct (ghost_loop_lowest w p Hp Hrect Hh (S (S (length (matrix w))))
              (active_piece_y w) Hy) as (g & Hloop & Hrest).
  { unfold height. lia. }
  exists g. rewrite Hloop. split; [reflexivity|exact Hrest].
Qed.

End GhostFacts.

Lemma playable_pressing_well : playable pressing_well (demo_piece PieceType.T).
Proof.
  repeat split; try reflexivity; try exact rectangular_empty_matrix;
    vm_compute; discriminate.
Qed.

Lemma calculateGhostOffset_lowest_witness :
  ∃ g : Z,
    calculateGhostOffset pressing_well = Some (set_ghost_piece_y g pressing_well)
    ∧ active_piece_y pressing_well ≤ g < height (matrix pressing_well)
    ∧ (∀ r : Z, active_piece_y pressing_well < r ≤ g →
         free_at pressing_well (active_piece_x pressing_well) r = true)
    ∧ (g + 1 = height (matrix pressing_well)
       ∨ free_at pressing_well (active_piece_x pressing_well) (g + 1) = false).
Proof.
  apply (calculateGhostOffset_lowest pressing_well (demo_piece PieceType.T)).
  exact playable_pressing_well.
Defined.

Section MoveFacts.
Context `{Collaborators}.

(** The collision test reads the board and the grid of the piece only. *)
Lemma hasCollisionAt_ext (w w' : Well) (x y : Z) :
  matrix w' = matrix w → active_piece w' = active_piece w →
  hasCollisionAt w' x y = hasCollisionAt w x y.
Proof. unfold hasCollisionAt. intros -> ->. reflexivity. Qed.

Lemma free_at_ext (w w' : Well) (x y : Z) :
  matrix w' = matrix w → active_piece w' = active_piece w →
  free_at w' x y = free_at w x y.
Proof. unfold free_at. intros Hm Hp. rewrite (hasCollisionAt_ext w w' x y Hm Hp). reflexivity. Qed.

Lemma stop_if_infinity_position (w : Well) :
  matrix (stop_if_infinity w) = matrix w
  ∧ active_piece (stop_if_infinity w) = active_piece w
  ∧ active_piece_x (stop_if_infinity w) = active_piece_x w
  ∧ active_piece_y (stop_if_infinity w) = active_piece_y w
  ∧ ghost_piece_y (stop_if_infinity w) = ghost_piece_y w.
Proof. unfold stop_if_infinity. destruct (lock_infinity w); repeat split. Qed.

(** Being in play is a matter of the board, the piece, its position and
    its ghost row. *)
Lemma placed_ext (w w' : Well) (p : Piece) :
  matrix w' = matrix w → active_piece w' = active_piece w →
  active_piece_x w' = active_piece_x w → active_piece_y w' = active_piece_y w →
  ghost_piece_y w' = ghost_piece_y w →
  placed w p → placed w' p.
Proof.
  intros Hm Hp Hx Hy Hg ((Hpiece & Hrect & Hh & Hrow) & Hfits & Hrange & Hfree & Hstop).
  split; [|split].
  - unfold playable. rewrite Hm, Hp, Hy. auto.
  - unfold fits. rewrite Hx, Hy, (hasCollisionAt_ext w w' _ _ Hm Hp). exact Hfits.
  - unfold ghost_ok. rewrite Hm, Hx, Hy, Hg.
    split; [exact Hrange|]. split.
    + intros r Hr. rewrite (free_at_ext w w' _ _ Hm Hp). auto.
    + rewrite (free_at_ext w w' _ _ Hm Hp). exact Hstop.
Qed.

(** A piece that fits, with the ghost row that [calculateGhostOffset]
    finds, is in play. *)
Lemma ghost_row_placed (w : Well) (p : Piece) :
  playable w p → fits w →
  ∃ g : Z,
    calculateGhostOffset w = Some (set_ghost_piece_y g w)
    ∧ placed (set_ghost_piece_y g w) p.
Proof.
  intros Hplay Hfits. pose proof Hplay as (Hp & Hrect & Hh & Hy).
  unfold calculateGhostOffset.
  destruct (ghost_loop_lowest w p Hp Hrect Hh (S (S (length (matrix w))))
              (active_piece_y w) Hy) as (g & Hloop & Hrange & Hfree & Hstop).
  { unfold height. lia. }
  exists g. rewrite Hloop. split; [reflexivity|].
  split; [exact Hplay|]. split; [exact Hfits|].
  split; [exact Hrange|]. split; [exact Hfree|exact Hstop].
Qed.

(** After [calculateGhostOffset], and the stop of the countdown that the
    moves let follow, a piece that fits is in play. *)
Lemma recalculated_placed (w : Well) (p : Piece) :
  playable w p → fits w →
  ∃ g : Z,
    calculateGhostOffset w = Some (set_ghost_piece_y g w)
    ∧ placed (stop_if_infinity (set_ghost_piece_y g w)) p.
Proof.
  intros Hplay Hfits.
  destruct (ghost_row_placed w p Hplay Hfits) as (g & Hg & Hplaced).
  exists g. split; [exact Hg|].
  destruct (stop_if_infinity_position (set_ghost_piece_y g w))
    as (Hm & Hp & Hx & Hy & Hgh).
  apply (placed_ext (set_ghost_piece_y g w)); assumption.
Qed.

(** What the two moves by one column do with a piece in play. *)
Lemma horizontal_move_cases (left : bool) (w : Well) (p : Piece) :
  placed w p →
  ∃ w' : Well,
    (if left then moveLeftNow w else moveRightNow w) = Some w'
    ∧ if shift_in_range left w
         && free_at w (shifted left (active_piece_x w)) (active_piece_y w)
      then placed w' p
           ∧ active_piece_x w' = shifted left (active_piece_x w)
           ∧ active_piece_y w' = active_piece_y w
           ∧ matrix w' = matrix w
      else w' = w.
Proof.
  intros (Hplay & Hfits & Hghost).
  pose proof Hplay as (Hp & Hrect & Hh & Hy).
  assert (Hcol : ∀ x, hasCollisionAt w x (active_piece_y w)
                      = Some (negb (free_at w x (active_piece_y w)))).
  { intros x. apply (hasCollisionAt_total w p); auto; lia. }
  assert (Hmove : ∀ x, free_at w x (active_piece_y w) = true →
            ∃ w', (w1 ← calculateGhostOffset (set_active_piece_x x w);
                   Some (stop_if_infinity w1)) = Some w'
                  ∧ placed w' p ∧ active_piece_x w' = x
                  ∧ active_piece_y w' = active_piece_y w ∧ matrix w' = matrix w).
  { intros x Hfree.
    destruct (recalculated_placed (set_active_piece_x x w) p) as (g & Hg & Hplaced).
    - exact Hplay.
    - unfold fits. cbn. apply free_at_false in Hfree. exact Hfree.
    - rewrite Hg. cbn [mbind option_bind]. eexists. split; [reflexivity|].
      split; [exact Hplaced|].
      destruct (stop_if_infinity_position (set_ghost_piece_y g (set_active_piece_x x w)))
        as (Hm' & _ & Hx' & Hy' & _).
      auto. }
  unfold shift_in_range, shifted.
  destruct left; unfold moveLeftNow, moveRightNow; rewrite Hp;
    rewrite (bool_decide_eq_false_2 (Some p = None)) by discriminate; cbn [orb].
  - destruct (active_piece_x w - 1 <=? -3); cbn [negb andb]; [eauto|].
    rewrite Hcol. cbn [mbind option_bind]. rewrite negb_involutive.
    destruct (free_at w (active_piece_x w - 1) (active_piece_y w)) eqn:Hfree;
      [|eauto].
    destruct (Hmove _ Hfree) as (w' & Hrun & Hrest). exists w'. auto.
  - destruct (width (matrix w) <=? active_piece_x w + 1); cbn [negb andb]; [eauto|].
    rewrite Hcol. cbn [mbind option_bind]. rewrite negb_involutive.
    destruct (free_at w (active_piece_x w + 1) (active_piece_y w)) eqn:Hfree;
      [|eauto].
    destruct (Hmove _ Hfree) as (w' & Hrun & Hrest). exists w'. auto.
Qed.

(** X2: a move by one column.  For a piece in play [moveLeftNow] and
    [moveRightNow] return.  When the column is in the range that the
    function tests and the piece fits there, the piece is in play one column
    further, on the same row; otherwise the playfield is as it was.  In both
    cases the board, the key states, [skip_gravity] and the timers and
    delays of the soft drop and of gravity are as they were. *)
Theorem horizontal_move_keeps_placed (left : bool) (w : Well) (p : Piece) :
  placed w p →
  ∃ w' : Well,
    (if left then moveLeftNow w else moveRightNow w) = Some w'
    ∧ moves_keep w' = moves_keep w
    ∧ if shift_in_range left w
         && free_at w (shifted left (active_piece_x w)) (active_piece_y w)
      then placed w' p
           ∧ active_piece_x w' = shifted left (active_piece_x w)
           ∧ active_piece_y w' = active_piece_y w
      else w' = w.
Proof.
  intros Hplaced.
  destruct (horizontal_move_cases left w p Hplaced) as (w' & Hrun & Hcases).
  exists w'. split; [exact Hrun|]. split.
  - destruct left; [apply moveLeftNow_keeps|apply moveRightNow_keeps]; exact Hrun.
  - destruct (shift_in_range left w && _); [|exact Hcases].
    destruct Hcases as (Hp' & Hx & Hy & _). auto.
Qed.


End MoveFacts.

Section DropFacts.
Context `{Collaborators}.

Lemma lock_cell_settings (i j : nat) (w w' : Well) :
  lock_cell i j w = Some w' → settings w' = settings w.
Proof.
  unfold lock_cell. cbn zeta. intros Hl.
  repeat match type of Hl with
         | context [if ?x then _ else _] => destruct x eqn:?
         | mbind _ ?x = _ => destruct x eqn:?; cbn [mbind option_bind] in Hl
         end; try discriminate; injection Hl as <-; reflexivity.
Qed.

Lemma checkLineclear_settings (w w' : Well) :
  checkLineclear w = Some w' → settings w' = settings w.
Proof.
  unfold checkLineclear. cbn zeta.
  destruct (bool_decide _); [intros [= <-]; reflexivity|].
  destruct (for_each _ _ _) as [w2|] eqn:Hloop; cbn [mbind option_bind];
    [|discriminate].
  intros [= <-].
  apply (for_each_keeps _ settings) in Hloop.
  - transitivity (settings w2); [reflexivity|]. rewrite Hloop. reflexivity.
  - intros row s s'. unfold clear_pending_row.
    destruct (clear_row _ _); cbn [mbind option_bind]; [|discriminate].
    destruct (2 <=? _); intros [= <-]; reflexivity.
Qed.

Lemma lockThenRequestNext_settings (w w' : Well) :
  lockThenRequestNext w = Some w' → settings w' = settings w.
Proof.
  unfold lockThenRequestNext, lockAndReleasePiece.
  destruct (lock_cells w) as [w1|] eqn:Hcells; cbn [mbind option_bind];
    [|discriminate].
  destruct (checkLineclear _) as [w2|] eqn:Hclear; cbn [mbind option_bind];
    [|discriminate].
  intros [= <-]. transitivity (settings w2); [destruct (_ && _); reflexivity|].
  rewrite (checkLineclear_settings _ _ Hclear).
  transitivity (settings w1); [reflexivity|].
  revert Hcells. unfold lock_cells, lock_row. apply for_each_keeps. intros i s s'.
  apply for_each_keeps. intros j. apply lock_cell_settings.
Qed.

Lemma lockThenRequestNext_total (w : Well) (p : Piece) :
  active_piece w = Some p → rectangular (matrix w) → pending_on_board w →
  ∃ w' : Well, lockThenRequestNext w = Some w' ∧ active_piece w' = None.
Proof.
  intros Hp Hrect Hpend.
  destruct (lockAndReleasePiece_total w p Hp Hrect Hpend)
    as (wl & w1 & _ & Hlock & _ & _ & _ & Hnone & _).
  unfold lockThenRequestNext. rewrite Hlock. cbn [mbind option_bind].
  eexists. split; [reflexivity|].
  destruct (negb (gameover w1) && _); [|exact Hnone]. exact Hnone.
Qed.

(** What [moveDownNow] does with a piece in play. *)
Lemma step_down_cases (w : Well) (p : Piece) :
  placed w p → pending_on_board w →
  ∃ w' : Well,
    moveDownNow w = Some w'
    ∧ if (active_piece_y w + 1 <? height (matrix w))
         && free_at w (active_piece_x w) (active_piece_y w + 1)
      then w' = set_active_piece_y (active_piece_y w + 1) w ∧ placed w' p
      else if (active_piece_y w + 1 <? height (matrix w))
              && negb (harddrop_locks_instantly w)
              && tr_running (lock_countdown w)
           then lockThenRequestNext w = Some w' ∧ active_piece w' = None
           else w' = w.
Proof.
  intros (Hplay & Hfits & Hrange & Hfree & Hstop) Hpend.
  pose proof Hplay as (Hp & Hrect & Hh & Hy).
  unfold moveDownNow, isOnGround. rewrite Hp.
  rewrite (bool_decide_eq_false_2 (Some p = None)) by discriminate. cbn [orb].
  rewrite (wrapu_small (active_piece_y w + 1)) by (unfold UINT_MAX in *; lia).
  rewrite Z.leb_antisym.
  destruct (active_piece_y w + 1 <? height (matrix w)) eqn:Hnext;
    cbn [negb andb]; [|eauto].
  apply Z.ltb_lt in Hnext.
  rewrite (hasCollisionAt_total w p _ _ Hp Hrect) by lia.
  cbn [mbind option_bind]. rewrite negb_involutive.
  destruct (free_at w (active_piece_x w) (active_piece_y w + 1)) eqn:Hbelow.
  - eexists. split; [reflexivity|]. split; [reflexivity|].
    assert (Hlower : active_piece_y w + 1 ≤ ghost_piece_y w).
    { destruct (decide (active_piece_y w + 1 ≤ ghost_piece_y w)) as [|Hn]; [assumption|].
      assert (ghost_piece_y w = active_piece_y w) as Heq by lia.
      rewrite Heq in Hstop. destruct Hstop as [Hend|Hcoll]; [lia|congruence]. }
    split; [|split].
    + unfold playable. cbn. auto with lia.
    + unfold fits. cbn. apply free_at_false in Hbelow. exact Hbelow.
    + unfold ghost_ok. cbn. split; [lia|]. split; [|exact Hstop].
      intros r Hr. apply (Hfree r). lia.
  - destruct (negb (harddrop_locks_instantly w) && tr_running (lock_countdown w));
      [|eauto].
    destruct (lockThenRequestNext_total w p Hp Hrect Hpend) as (w' & Hrun & Hnone).
    exists w'. auto.
Qed.



(** A piece on its ghost row does not move down. *)
Lemma moveDownNow_on_ghost (w : Well) (p : Piece) :
  placed w p → pending_on_board w →
  let w0 := set_active_piece_y (ghost_piece_y w) w in
  ∃ w' : Well,
    moveDownNow w0 = Some w'
    ∧ if (ghost_piece_y w + 1 <? height (matrix w))
         && negb (harddrop_locks_instantly w) && tr_running (lock_countdown w)
      then lockThenRequestNext w0 = Some w' ∧ active_piece w' = None
      else w' = w0 ∧ placed w0 p.
Proof.
  intros (Hplay & Hfits & Hrange & Hfree & Hstop) Hpend w0.
  pose proof Hplay as (Hp & Hrect & Hh & Hy).
  assert (Hplaced0 : placed w0 p).
  { split; [|split].
    - unfold playable, w0. cbn. auto with lia.
    - unfold fits, w0. cbn.
      destruct (decide (ghost_piece_y w = active_piece_y w)) as [->|Hne];
        [exact Hfits|].
      apply free_at_false. apply Hfree. lia.
    - unfold ghost_ok, w0. cbn. split; [lia|]. split; [intros r Hr; lia|exact Hstop]. }
  destruct (step_down_cases w0 p Hplaced0 Hpend) as (w' & Hrun & Hcases).
  exists w'. split; [exact Hrun|].
  change (active_piece_y w0) with (ghost_piece_y w) in Hcases.
  change (matrix w0) with (matrix w) in Hcases.
  change (active_piece_x w0) with (active_piece_x w) in Hcases.
  change (harddrop_locks_instantly w0) with (harddrop_locks_instantly w) in Hcases.
  change (lock_countdown w0) with (lock_countdown w) in Hcases.
  change (free_at w0) with (free_at w) in Hcases.
  assert (Hblocked : (ghost_piece_y w + 1 <? height (matrix w))
            && free_at w (active_piece_x w) (ghost_piece_y w + 1) = false).
  { destruct Hstop as [Hend|Hcoll].
    - replace (ghost_piece_y w + 1 <? height (matrix w)) with false; [reflexivity|].
      symmetry. apply Z.ltb_ge. lia.
    - rewrite Hcoll. apply andb_false_r. }
  rewrite Hblocked in Hcases.
  destruct ((ghost_piece_y w + 1 <? height (matrix w))
            && negb (harddrop_locks_instantly w) && tr_running (lock_countdown w));
    [exact Hcases|]. split; [exact Hcases|exact Hplaced0].
Qed.

(** What a hard drop does with a piece in play. *)
Lemma hardDrop_cases (w : Well) (p : Piece) :
  placed w p → pending_on_board w →
  let w0 := set_active_piece_y (ghost_piece_y w) w in
  ∃ w' : Well,
    hardDrop w = Some w'
    ∧ fits w0
    ∧ if harddrop_locks_instantly w
         || (ghost_piece_y w + 1 <? height (matrix w)) && tr_running (lock_countdown w)
      then lockThenRequestNext w0 = Some w' ∧ active_piece w' = None
      else w' = w0 ∧ placed w0 p.
Proof.
  intros Hplaced Hpend w0.
  destruct (moveDownNow_on_ghost w p Hplaced Hpend) as (w1 & Hdown & Hcases).
  fold w0 in Hdown, Hcases.
  assert (Hfits0 : fits w0).
  { destruct Hplaced as (Hplay & Hfits & Hrange & Hfree & Hstop).
    unfold fits, w0. cbn.
    destruct (decide (ghost_piece_y w = active_piece_y w)) as [->|Hne];
      [exact Hfits|].
    apply free_at_false. apply Hfree. lia. }
  unfold hardDrop. fold w0. rewrite Hdown. cbn [mbind option_bind].
  destruct (harddrop_locks_instantly w) eqn:Hinstant.
  - cbn [negb andb orb] in *. rewrite andb_false_r in Hcases. cbn [andb] in Hcases.
    destruct Hcases as [-> Hplaced0].
    change (harddrop_locks_instantly w0) with (harddrop_locks_instantly w).
    rewrite Hinstant.
    destruct Hplaced0 as ((Hp0 & Hrect0 & _) & _).
    destruct (lockThenRequestNext_total w0 p Hp0 Hrect0 Hpend) as (w' & Hrun & Hnone).
    exists w'. auto.
  - cbn [negb orb] in *. rewrite andb_true_r in Hcases.
    destruct ((ghost_piece_y w + 1 <? height (matrix w)) && tr_running (lock_countdown w)).
    + destruct Hcases as [Hlock Hnone]. exists w1.
      assert (Hinst1 : harddrop_locks_instantly w1 = false).
      { apply lockThenRequestNext_settings in Hlock.
        apply (f_equal (λ s, s.1.1.1.1)) in Hlock. cbn in Hlock.
        rewrite Hlock. exact Hinstant. }
      rewrite Hinst1. auto.
    + destruct Hcases as [-> Hplaced0].
      change (harddrop_locks_instantly w0) with (harddrop_locks_instantly w).
      rewrite Hinstant. exists w0. auto.
Qed.


End DropFacts.

Section TurnFacts.
Context `{Collaborators}.

Lemma kick_to_fields (w : Well) (dx f : Z) :
  matrix (kick_to w dx f) = matrix w
  ∧ active_piece (kick_to w dx f) = active_piece w
  ∧ active_piece_x (kick_to w dx f) = active_piece_x w + dx
  ∧ active_piece_y (kick_to w dx f) = wrapu (active_piece_y w - f).
Proof. repeat split. Qed.

(** What one floor of the wall kick returns. *)
Lemma kick_floor_outcome (w : Well) (p : Piece) (f : Z) :
  active_piece w = Some p → rectangular (matrix w) → 0 < height (matrix w) →
  0 ≤ f ≤ active_piece_y w → active_piece_y w + 3 < UINT_MAX →
  ∃ r : option Well,
    kick_floor w f = Some r
    ∧ ∀ w', r = Some w' →
        ∃ dx : Z, w' = kick_to w dx f ∧ -2 ≤ dx ≤ 2
          ∧ free_at w (active_piece_x w + dx) (active_piece_y w - f) = true.
Proof.
  intros Hp Hrect Hh Hf Hmax.
  rewrite (kick_floor_find w p f Hp Hrect Hh Hf Hmax).
  eexists. split; [reflexivity|]. intros w' Hr.
  destruct (List.find _ _) as [[dx f']|] eqn:Hfind; [|discriminate].
  injection Hr as <-.
  apply List.find_some in Hfind as [Hin Hfree].
  apply List.filter_In in Hin as [Hin _].
  apply List.in_map_iff in Hin as (dx' & [= -> ->] & Hdx).
  exists dx. split; [reflexivity|].
  unfold kick_free in Hfree. cbn [fst snd] in Hfree.
  rewrite wrapu_small in Hfree by (unfold UINT_MAX in *; lia).
  split; [|exact Hfree].
  unfold kick_shifts in Hdx. destruct (is_I p); cbn in Hdx; lia.
Qed.

(** What the wall kick returns when the piece can rise by every floor
    level. *)
Lemma kick_loop_outcome (w : Well) (p : Piece) :
  active_piece w = Some p → rectangular (matrix w) → 0 < height (matrix w) →
  top_floor p ≤ active_piece_y w → active_piece_y w + 3 < UINT_MAX →
  ∀ (fuel : nat) (floor : Z),
    0 ≤ floor → 3 ≤ floor + Z.of_nat fuel →
    ∃ r : bool * Well,
      kick_loop fuel w floor = Some r
      ∧ (r = (false, w)
         ∨ ∃ dx f : Z, r = (true, kick_to w dx f)
             ∧ floor ≤ f ≤ top_floor p ∧ -2 ≤ dx ≤ 2
             ∧ free_at w (active_piece_x w + dx) (active_piece_y w - f) = true).
Proof.
  intros Hp Hrect Hh Htop Hmax.
  induction fuel as [|fuel IH]; intros floor Hfloor Hfuel.
  - rewrite (kick_loop_O w p) by exact Hp.
    replace (floor <? _) with false; [eauto|].
    symmetry. apply Z.ltb_ge. destruct (is_I p); lia.
  - rewrite (kick_loop_S _ w p) by exact Hp.
    destruct (floor <? (if is_I p then 3 else 2)) eqn:Hin; [|eauto].
    assert (Hle : floor ≤ top_floor p).
    { apply Z.ltb_lt in Hin. unfold top_floor. destruct (is_I p); lia. }
    destruct (kick_floor_outcome w p floor) as (r & Hr & Hfound); auto with lia.
    rewrite Hr. cbn [mbind option_bind]. destruct r as [w'|].
    + destruct (Hfound w' eq_refl) as (dx & -> & Hdx & Hfree).
      eexists. split; [reflexivity|]. right. exists dx, floor. auto with lia.
    + rewrite wrapu_small by (unfold UINT_MAX, top_floor in *; destruct (is_I p); lia).
      destruct (IH (floor + 1)) as (r & Hloop & Hcases); [lia|lia|].
      exists r. split; [exact Hloop|].
      destruct Hcases as [->|(dx & f & -> & Hf & Hrest)]; [auto|].
      right. exists dx, f. auto with lia.
Qed.

(** The body that [rotateCWNow] and [rotateCCWNow] share: [q] is the
    turned piece, [back] the turn that undoes it. *)
Lemma turn_body_placed (w : Well) (p q : Piece) (back : Piece → Piece) :
  placed w p → back q = p →
  top_floor q ≤ active_piece_y w →
  let w1 := set_active_piece (Some q) w in
  ∃ w' : Well,
    (c ← hasCollisionAt w1 (active_piece_x w1) (active_piece_y w1);
     r ← (if c : bool then placeByWallKick w1 else Some (true, w1));
     match r with
     | (false, w2) => Some (set_active_piece (back <$> active_piece w2) w2)
     | (true, w2) => w3 ← calculateGhostOffset w2; Some (stop_if_infinity w3)
     end) = Some w'
    ∧ (w' = w
       ∨ placed w' q ∧ matrix w' = matrix w
         ∧ active_piece_x w - 2 ≤ active_piece_x w' ≤ active_piece_x w + 2
         ∧ active_piece_y w - top_floor q ≤ active_piece_y w' ≤ active_piece_y w).
Proof.
  intros (Hplay & Hfits & Hghost) Hback Htop w1.
  pose proof Hplay as (Hp & Hrect & Hh & Hy).
  assert (Hplay1 : playable w1 q) by (unfold playable, w1; cbn; auto).
  assert (Hland : ∀ dx f, 0 ≤ f ≤ top_floor q → -2 ≤ dx ≤ 2 →
            free_at w1 (active_piece_x w + dx) (active_piece_y w - f) = true →
            wrapu (active_piece_y w - f) = active_piece_y w - f →
            ∃ w', (w3 ← calculateGhostOffset (kick_to w1 dx f);
                   Some (stop_if_infinity w3)) = Some w'
              ∧ placed w' q ∧ matrix w' = matrix w
              ∧ active_piece_x w - 2 ≤ active_piece_x w' ≤ active_piece_x w + 2
              ∧ active_piece_y w - top_floor q ≤ active_piece_y w'
                ≤ active_piece_y w).
  { intros dx f Hf Hdx Hfree Hwrap.
    destruct (kick_to_fields w1 dx f) as (Hkm & Hkp & Hkx & Hky).
    change (active_piece_y w1) with (active_piece_y w) in Hky.
    rewrite Hwrap in Hky.
    change (matrix w1) with (matrix w) in Hkm.
    change (active_piece w1) with (Some q) in Hkp.
    change (active_piece_x w1) with (active_piece_x w) in Hkx.
    destruct (recalculated_placed (kick_to w1 dx f) q) as (g & Hg & Hplaced).
    - unfold playable. rewrite Hkm, Hkp, Hky. auto with lia.
    - unfold fits. rewrite Hkx, Hky.
      rewrite (hasCollisionAt_ext w1) by assumption.
      apply free_at_false. exact Hfree.
    - rewrite Hg. cbn [mbind option_bind]. eexists. split; [reflexivity|].
      split; [exact Hplaced|].
      destruct (stop_if_infinity_position (set_ghost_piece_y g (kick_to w1 dx f)))
        as (Hm' & _ & Hx' & Hy' & _).
      rewrite Hm', Hx', Hy'.
      change (matrix (set_ghost_piece_y g (kick_to w1 dx f)))
        with (matrix (kick_to w1 dx f)).
      change (active_piece_x (set_ghost_piece_y g (kick_to w1 dx f)))
        with (active_piece_x (kick_to w1 dx f)).
      change (active_piece_y (set_ghost_piece_y g (kick_to w1 dx f)))
        with (active_piece_y (kick_to w1 dx f)).
      rewrite Hkm, Hkx, Hky. auto with lia. }
  rewrite (hasCollisionAt_total w1 q) by (unfold w1; cbn; auto with lia).
  cbn [mbind option_bind].
  destruct (free_at w1 (active_piece_x w1) (active_piece_y w1)) eqn:Hnaive;
    cbn [negb mbind option_bind].
  - destruct (Hland 0 0) as (w' & Hrun & Hrest).
    + unfold top_floor. destruct (is_I q); lia.
    + lia.
    + rewrite Z.add_0_r, Z.sub_0_r. exact Hnaive.
    + rewrite Z.sub_0_r. apply wrapu_small; unfold UINT_MAX in *; lia.
    + exists w'. split; [|right; exact Hrest].
      rewrite <- Hrun. unfold kick_to.
      replace (wrapu (active_piece_y w1 - 0)) with (active_piece_y w1)
        by (rewrite Z.sub_0_r; symmetry; apply wrapu_small;
            change (active_piece_y w1) with (active_piece_y w);
            unfold UINT_MAX in *; lia).
      rewrite Z.add_0_r. destruct w; reflexivity.
  - destruct Hplay1 as (Hp1 & Hrect1 & Hh1 & Hy1).
    destruct (kick_loop_outcome w1 q Hp1 Hrect1) with (fuel := 3%nat) (floor := 0)
      as (r & Hkick & Hcases); [lia|exact Htop|lia|lia|lia|].
    unfold placeByWallKick. rewrite Hkick. cbn [mbind option_bind].
    destruct Hcases as [->|(dx & f & -> & Hf & Hdx & Hfree)].
    + eexists. split; [reflexivity|]. left.
      rewrite Hp1. cbn [fmap option_fmap option_map]. rewrite Hback.
      apply set_active_piece_back. exact Hp.
    + destruct (Hland dx f) as (w' & Hrun & Hrest); auto.
      * apply wrapu_small; unfold UINT_MAX in *; lia.
      * exists w'. auto.
Qed.

(** What a rotation does with a piece in play that can rise by every floor
    level of the wall kick. *)
Lemma rotate_now_cases (d : Direction) (w : Well) (p : Piece) :
  placed w p →
  top_floor (turn d p) ≤ active_piece_y w →
  ∃ w' : Well,
    rotate_now d w = Some w'
    ∧ (w' = w
       ∨ placed w' (turn d p)
         ∧ matrix w' = matrix w
         ∧ active_piece_x w - 2 ≤ active_piece_x w' ≤ active_piece_x w + 2
         ∧ active_piece_y w - top_floor (turn d p) ≤ active_piece_y w'
           ≤ active_piece_y w).
Proof.
  intros Hplaced Htop.
  pose proof Hplaced as ((Hp & _) & _).
  destruct d; cbn [turn rotate_now] in *; unfold rotateCWNow, rotateCCWNow;
    rewrite Hp.
  - apply (turn_body_placed w p (rotateCW p) rotateCCW Hplaced); [|exact Htop].
    apply rotateCCW_rotateCW.
  - apply (turn_body_placed w p (rotateCCW p) rotateCW Hplaced); [|exact Htop].
    apply rotateCW_rotateCCW.
Qed.

(** X5: a rotation.  For a piece in play that can rise by every floor level
    of the wall kick, [rotateCWNow] and [rotateCCWNow] return, and they
    leave the board, the key states, [skip_gravity] and the timers and
    delays of the soft drop and of gravity as they are.  Either the
    playfield is as it was, or the turned piece is in play, at most two
    columns aside and at most as many rows higher as the wall kick has floor
    levels above the first. *)
Theorem rotation_keeps_placed (d : Direction) (w : Well) (p : Piece) :
  placed w p →
  top_floor (turn d p) ≤ active_piece_y w →
  ∃ w' : Well,
    rotate_now d w = Some w'
    ∧ moves_keep w' = moves_keep w
    ∧ (w' = w
       ∨ placed w' (turn d p)
         ∧ active_piece_x w - 2 ≤ active_piece_x w' ≤ active_piece_x w + 2
         ∧ active_piece_y w - top_floor (turn d p) ≤ active_piece_y w'
           ≤ active_piece_y w).
Proof.
  intros Hplaced Htop.
  destruct (rotate_now_cases d w p Hplaced Htop) as (w' & Hrun & Hcases).
  exists w'. split; [exact Hrun|]. split.
  - destruct d; [apply rotateCWNow_keeps|apply rotateCCWNow_keeps]; exact Hrun.
  - destruct Hcases as [->|(Hp' & _ & Hx & Hy)]; auto.
Qed.


End TurnFacts.

Section NoPiece.
Context `{Collaborators}.

(** X6: a hard drop without a piece.  [hardDrop] asserts that there is an
    active piece, and [handleKeys] calls it for a hard drop key without a
    test.  With the assertion compiled out, no piece, the lock on a hard
    drop switched on and the column offset and the ghost row on the board,
    the call reaches [lockAndReleasePiece], which reads the grid of the
    piece through the empty pointer: there is no defined result. *)
Theorem hardDrop_without_piece (w : Well) :
  active_piece w = None →
  harddrop_locks_instantly w = true →
  0 ≤ ghost_piece_y w < height (matrix w) →
  0 ≤ active_piece_x w < width (matrix w) →
  hardDrop w = None
  ∧ ∀ e : InputEvent,
      ev_down e = true →
      ev_type e = InputType.UP ∨ ev_type e = InputType.GAME_HARDDROP →
      handle_event e w = None.
Proof.
  intros Hnone Hinstant Hghost Hx.
  assert (Hdrop : hardDrop w = None).
  { unfold hardDrop, moveDownNow.
    change (active_piece (set_active_piece_y (ghost_piece_y w) w)) with (active_piece w).
    rewrite Hnone. rewrite bool_decide_eq_true_2 by reflexivity.
    cbn [orb mbind option_bind].
    change (harddrop_locks_instantly (set_active_piece_y (ghost_piece_y w) w))
      with (harddrop_locks_instantly w).
    rewrite Hinstant.
    set (w0 := set_active_piece_y (ghost_piece_y w) w).
    assert (Hcell : lock_cell 0 0 w0 = None).
    { unfold lock_cell. cbn zeta.
      change (active_piece_y w0) with (ghost_piece_y w).
      change (active_piece_x w0) with (active_piece_x w).
      change (matrix w0) with (matrix w).
      change (active_piece w0) with (active_piece w).
      change (Z.of_nat 0) with 0. rewrite !Z.add_0_r.
      assert (Hr : wrapu (ghost_piece_y w) ≤ ghost_piece_y w)
        by (apply Z.mod_le; lia).
      assert (Hc : wrapu (active_piece_x w) ≤ active_piece_x w)
        by (apply Z.mod_le; lia).
      replace (height (matrix w) <=? wrapu (ghost_piece_y w)) with false
        by (symmetry; apply Z.leb_gt; lia).
      replace (width (matrix w) <=? wrapu (active_piece_x w)) with false
        by (symmetry; apply Z.leb_gt; lia).
      replace (active_piece_x w <? 0) with false
        by (symmetry; apply Z.ltb_ge; lia).
      cbn [orb]. rewrite Hnone. reflexivity. }
    assert (Hrow : lock_row 0 w0 = None).
    { unfold lock_row. cbn [for_each]. rewrite Hcell. reflexivity. }
    unfold lockThenRequestNext, lockAndReleasePiece, lock_cells.
    cbn [for_each]. rewrite Hrow. reflexivity. }
  split; [exact Hdrop|].
  intros e Hdown Htype. unfold handle_event. rewrite Hdown.
  destruct Htype as [-> | ->]; rewrite Hdrop; reflexivity.
Qed.

End NoPiece.

Lemma placed_falling_well : placed falling_well (demo_piece PieceType.T).
Proof.
  assert (Hplay : playable falling_well (demo_piece PieceType.T)).
  { repeat split; try reflexivity; try exact rectangular_ledge_matrix;
      vm_compute; discriminate. }
  destruct (ghost_row_placed falling_well _ Hplay eq_refl) as (g & Hg & Hplaced).
  assert (g = 10) as ->.
  { vm_compute in Hg. injection Hg as <-. reflexivity. }
  exact Hplaced.
Qed.

Lemma pending_on_board_falling_well : pending_on_board falling_well.
Proof. intros r Hr. apply elem_of_empty in Hr. destruct Hr. Qed.

Lemma horizontal_move_keeps_placed_witness :
  ∃ w' : Well,
    moveLeftNow falling_well = Some w'
    ∧ moves_keep w' = moves_keep falling_well
    ∧ if shift_in_range true falling_well
         && free_at falling_well (shifted true (active_piece_x falling_well))
                    (active_piece_y falling_well)
      then placed w' (demo_piece PieceType.T)
           ∧ active_piece_x w' = shifted true (active_piece_x falling_well)
           ∧ active_piece_y w' = active_piece_y falling_well
      else w' = falling_well.
Proof.
  apply (horizontal_move_keeps_placed true falling_well (demo_piece PieceType.T)).
  exact placed_falling_well.
Defined.





Lemma rotation_keeps_placed_witness :
  ∃ w' : Well,
    rotateCWNow falling_well = Some w'
    ∧ moves_keep w' = moves_keep falling_well
    ∧ (w' = falling_well
       ∨ placed w' (rotateCW (demo_piece PieceType.T))
         ∧ active_piece_x falling_well - 2 ≤ active_piece_x w'
           ≤ active_piece_x falling_well + 2
         ∧ active_piece_y falling_well - top_floor (rotateCW (demo_piece PieceType.T))
           ≤ active_piece_y w' ≤ active_piece_y falling_well).
Proof.
  apply (rotation_keeps_placed CW falling_well (demo_piece PieceType.T)).
  - exact placed_falling_well.
  - vm_compute. discriminate.
Defined.

Lemma hardDrop_without_piece_witness :
  hardDrop stacked_well = None
  ∧ ∀ e : InputEvent,
      ev_down e = true →
      ev_type e = InputType.UP ∨ ev_type e = InputType.GAME_HARDDROP →
      handle_event e stacked_well = None.
Proof.
  apply (hardDrop_without_piece stacked_well); try reflexivity;
    vm_compute; split; congruence.
Defined.

(** ** Full rows: detection, removal, and the events of a lock *)

Lemma insert_if_filled_elem (m : Matrix) (P : gset nat) (a r : nat) :
  r ∈ insert_if_filled m P a ↔ r ∈ P ∨ (r = a ∧ is_full m r = true).
Proof.
  unfold insert_if_filled, is_full. split.
  - destruct (m !! a) as [row|] eqn:Hrow; [|auto].
    destruct (row_filled row) eqn:Hfull; [|auto].
    intros [->%elem_of_singleton|Hr]%elem_of_union; [|auto].
    right. rewrite Hrow. auto.
  - intros [Hr|[-> Hfull]].
    + destruct (m !! a) as [row|]; [|exact Hr].
      destruct (row_filled row); [|exact Hr]. apply elem_of_union. auto.
    + destruct (m !! a) as [row|]; [|discriminate]. rewrite Hfull.
      apply elem_of_union. left. apply elem_of_singleton. reflexivity.
Qed.

Lemma insert_if_filled_iff (m : Matrix) (l : list nat) : ∀ (P : gset nat) (r : nat),
  r ∈ foldl (insert_if_filled m) P l ↔ r ∈ P ∨ (r ∈ l ∧ is_full m r = true).
Proof.
  induction l as [|a l IH]; intros P r; cbn [foldl].
  - split; [auto|]. intros [Hr|[Hr _]]; [exact Hr|inversion Hr].
  - rewrite IH, insert_if_filled_elem, elem_of_cons. tauto.
Qed.

Lemma scan_filled_iff (m : Matrix) (P : gset nat) (r : nat) :
  r ∈ scan_filled m P ↔ r ∈ P ∨ is_full m r = true.
Proof.
  unfold scan_filled. rewrite insert_if_filled_iff.
  split; [tauto|]. intros [Hr|Hr]; [auto|]. right. split; [|exact Hr].
  apply elem_of_seq. unfold is_full in Hr.
  destruct (m !! r) as [row|] eqn:Hrow; [|discriminate].
  apply lookup_lt_Some in Hrow. lia.
Qed.

Lemma emptied_emptied (row : list Cell) : emptied (emptied row) = emptied row.
Proof. unfold emptied. rewrite length_replicate. reflexivity. Qed.

Lemma row_filled_emptied (row : list Cell) :
  row ≠ [] → row_filled (emptied row) = false.
Proof. destruct row; [congruence|reflexivity]. Qed.

Section LineFacts.
Context `{Collaborators}.

(** The loop of [checkLineclear] over the rows [l] of the board. *)
Lemma clear_rows_loop (l : list nat) : ∀ s : Well,
  (∀ r, r ∈ l → (r < length (matrix s))%nat) →
  ∃ s' : Well,
    for_each clear_pending_row l s = Some s'
    ∧ length (matrix s') = length (matrix s)
    ∧ (∀ (r : nat) (row : list Cell), matrix s !! r = Some row →
         matrix s' !! r = Some (if bool_decide (r ∈ l) then emptied row else row))
    ∧ blocking_anims s'
      = blocking_anims s
        ++ ((λ r, LineClearAnim (Z.of_nat r)) <$> List.filter (λ r, 2 <=? Z.of_nat r) l)
    ∧ s' = set_blocking_anims (blocking_anims s') (set_matrix (matrix s') s).
Proof.
  induction l as [|a l IH]; intros s Hbound; cbn [for_each].
  - exists s. split; [reflexivity|]. split; [reflexivity|]. split.
    + intros r row Hrow. rewrite bool_decide_eq_false_2 by (intros Hin; inversion Hin).
      exact Hrow.
    + split; [cbn; rewrite app_nil_r; reflexivity|]. destruct s; reflexivity.
  - destruct (lookup_lt_is_Some_2 (matrix s) a) as [ra Hra]; [apply Hbound; left|].
    set (s0 := set_matrix (<[a := replicate (length ra) None]> (matrix s)) s).
    set (s1 := if 2 <=? Z.of_nat a
               then set_blocking_anims
                      (blocking_anims s0 ++ [LineClearAnim (Z.of_nat a)]) s0
               else s0).
    assert (Hstep : clear_pending_row a s = Some s1).
    { unfold clear_pending_row, clear_row. rewrite Hra. reflexivity. }
    rewrite Hstep. cbn [mbind option_bind].
    assert (Hm1 : matrix s1 = <[a := replicate (length ra) None]> (matrix s))
      by (unfold s1; destruct (2 <=? Z.of_nat a); reflexivity).
    assert (Hb1 : blocking_anims s1
              = blocking_anims s ++ (if 2 <=? Z.of_nat a
                                     then [LineClearAnim (Z.of_nat a)] else [])).
    { unfold s1; destruct (2 <=? Z.of_nat a); cbn; [reflexivity|].
      rewrite app_nil_r. reflexivity. }
    assert (Hf1 : s1 = set_blocking_anims (blocking_anims s1) (set_matrix (matrix s1) s))
      by (unfold s1; destruct (2 <=? Z.of_nat a); reflexivity).
    destruct (IH s1) as (s' & Hrun & Hlen & Hrows & Hanims & Hframe).
    { intros r Hr. rewrite Hm1, length_insert. apply Hbound. right. exact Hr. }
    exists s'. split; [exact Hrun|]. split.
    { rewrite Hlen, Hm1, length_insert. reflexivity. }
    split; [|split].
    + intros r row Hrow. destruct (decide (r = a)) as [->|Hne].
      * rewrite Hra in Hrow. injection Hrow as <-.
        rewrite bool_decide_eq_true_2 by left.
        rewrite (Hrows a (emptied ra)).
        -- rewrite emptied_emptied. destruct (bool_decide (a ∈ l)); reflexivity.
        -- rewrite Hm1. apply list_lookup_insert_eq.
           apply lookup_lt_Some in Hra. exact Hra.
      * rewrite (Hrows r row).
        -- f_equal. destruct (bool_decide (r ∈ l)) eqn:Hin.
           ++ rewrite bool_decide_eq_true_2; [reflexivity|].
              right. apply bool_decide_eq_true in Hin. exact Hin.
           ++ rewrite bool_decide_eq_false_2; [reflexivity|].
              apply bool_decide_eq_false in Hin. intros Hin'.
              apply elem_of_cons in Hin' as [?|?]; contradiction.
        -- rewrite Hm1. rewrite list_lookup_insert_ne by congruence. exact Hrow.
    + rewrite Hanims, Hb1. cbn [List.filter].
      destruct (2 <=? Z.of_nat a); cbn [fmap list_fmap app];
        rewrite <- app_assoc; reflexivity.
    + rewrite Hframe at 1. rewrite Hf1. reflexivity.
Qed.

(** What [checkLineclear] leaves. *)
Lemma checkLineclear_rows (w : Well) :
  pending_on_board w →
  ∃ w' : Well,
    checkLineclear w = Some w'
    ∧ (∀ r : nat, r ∈ pending_cleared_rows w'
         ↔ r ∈ pending_cleared_rows w ∨ is_full (matrix w) r = true)
    ∧ length (matrix w') = length (matrix w)
    ∧ (∀ (r : nat) (row : list Cell), matrix w !! r = Some row →
         matrix w' !! r
         = Some (if bool_decide (r ∈ pending_cleared_rows w') then emptied row else row))
    ∧ (∀ (r : nat) (row : list Cell), matrix w' !! r = Some row →
         row ≠ [] → row_filled row = false)
    ∧ blocking_anims w'
      = blocking_anims w
        ++ ((λ r, LineClearAnim (Z.of_nat r)) <$> animated_rows (pending_cleared_rows w'))
    ∧ (if bool_decide (pending_cleared_rows w' = ∅)
       then keystates w' = keystates w
            ∧ das_timer w' = das_timer w
            ∧ horizontal_delay_current w' = horizontal_delay_current w
       else keystates w' = (λ _, false) <$> keystates w
            ∧ das_timer w' = horizontal_delay_normal w
            ∧ horizontal_delay_current w' = horizontal_delay_normal w).
Proof.
  intros Hbound.
  set (P := scan_filled (matrix w) (pending_cleared_rows w)).
  set (w1 := set_pending_cleared_rows P w).
  assert (HP : ∀ r, r ∈ P ↔ r ∈ pending_cleared_rows w ∨ is_full (matrix w) r = true)
    by (intros r; apply scan_filled_iff).
  assert (Hnofull : ∀ m' : Matrix,
            length m' = length (matrix w) →
            (∀ r row, matrix w !! r = Some row →
               m' !! r = Some (if bool_decide (r ∈ P) then emptied row else row)) →
            ∀ r row, m' !! r = Some row → row ≠ [] → row_filled row = false).
  { intros m' Hlen Hrows r row Hrow Hne.
    destruct (lookup_lt_is_Some_2 (matrix w) r) as [row0 Hrow0].
    { rewrite <- Hlen. apply lookup_lt_Some in Hrow. exact Hrow. }
    rewrite (Hrows r row0 Hrow0) in Hrow. injection Hrow as <-.
    destruct (bool_decide (r ∈ P)) eqn:Hin.
    - apply row_filled_emptied. intros ->. apply Hne. reflexivity.
    - apply bool_decide_eq_false in Hin.
      destruct (row_filled row0) eqn:Hfull; [|reflexivity].
      exfalso. apply Hin. apply HP. right. unfold is_full. rewrite Hrow0. exact Hfull. }
  unfold checkLineclear. fold P. fold w1.
  change (pending_cleared_rows w1) with P.
  destruct (bool_decide (size P = 0%nat)) eqn:Hsize.
  - apply bool_decide_eq_true in Hsize. apply size_empty_iff in Hsize.
    apply leibniz_equiv in Hsize.
    exists w1. split; [reflexivity|].
    change (pending_cleared_rows w1) with P. change (matrix w1) with (matrix w).
    assert (Hrows : ∀ r row, matrix w !! r = Some row →
              matrix w !! r = Some (if bool_decide (r ∈ P) then emptied row else row)).
    { intros r row Hrow. rewrite bool_decide_eq_false_2; [exact Hrow|].
      rewrite Hsize. apply not_elem_of_empty. }
    split; [exact HP|]. split; [reflexivity|]. split; [exact Hrows|].
    split; [apply Hnofull; [reflexivity|exact Hrows]|].
    split.
    + rewrite Hsize. unfold animated_rows, ascending. rewrite elements_empty.
      cbn. rewrite app_nil_r. reflexivity.
    + rewrite bool_decide_eq_true_2 by exact Hsize. repeat split.
  - apply bool_decide_eq_false in Hsize.
    assert (Hne : P ≠ ∅) by (intros HP0; apply Hsize; rewrite HP0; apply size_empty).
    destruct (clear_rows_loop (ascending P) w1)
      as (w2 & Hrun & Hlen & Hrows & Hanims & Hframe).
    { intros r Hr%ascending_elem. apply HP in Hr as [Hr|Hr]; [apply Hbound; exact Hr|].
      unfold is_full in Hr. destruct (matrix w !! r) as [row|] eqn:Hrow; [|discriminate].
      apply lookup_lt_Some in Hrow. exact Hrow. }
    rewrite Hrun. cbn [mbind option_bind].
    exists (resetInput w2). split; [reflexivity|].
    assert (Hpend : pending_cleared_rows (resetInput w2) = P)
      by (rewrite Hframe; reflexivity).
    assert (Hmat : matrix (resetInput w2) = matrix w2) by reflexivity.
    assert (Hrows' : ∀ r row, matrix w !! r = Some row →
              matrix w2 !! r = Some (if bool_decide (r ∈ P) then emptied row else row)).
    { intros r row Hrow. rewrite (Hrows r row Hrow).
      rewrite (bool_decide_ext (r ∈ ascending P) (r ∈ P)) by apply ascending_elem.
      reflexivity. }
    rewrite Hpend, Hmat.
    split; [exact HP|]. split; [exact Hlen|]. split; [exact Hrows'|].
    split; [apply Hnofull; [exact Hlen|exact Hrows']|].
    split; [exact Hanims|].
    rewrite bool_decide_eq_false_2 by exact Hne.
    rewrite Hframe. repeat split.
Qed.

(** X7: the detection of full rows.  With the pending rows on the board
    [checkLineclear] returns.  Afterwards a row is pending exactly when it
    was pending or was full; the board has its height, the pending rows have
    every cell null and the other rows are as they were, so that no row with
    a cell is full; the rows from the third on got a line clear animation
    each, in ascending order, behind the blocking animations there were;
    when a row is pending, every key counts as released and the DAS counter
    and the repeat delay are back at the initial delay, while with no row
    pending the input state is as it was; the game over flag, the active
    piece and the events notified are as they were. *)
Theorem checkLineclear_clears_full_rows (w : Well) :
  pending_on_board w →
  ∃ w' : Well,
    checkLineclear w = Some w'
    ∧ (∀ r : nat, r ∈ pending_cleared_rows w'
         ↔ r ∈ pending_cleared_rows w ∨ is_full (matrix w) r = true)
    ∧ length (matrix w') = length (matrix w)
    ∧ (∀ (r : nat) (row : list Cell), matrix w !! r = Some row →
         matrix w' !! r
         = Some (if bool_decide (r ∈ pending_cleared_rows w') then emptied row else row))
    ∧ (∀ (r : nat) (row : list Cell), matrix w' !! r = Some row →
         row ≠ [] → row_filled row = false)
    ∧ blocking_anims w'
      = blocking_anims w
        ++ ((λ r, LineClearAnim (Z.of_nat r)) <$> animated_rows (pending_cleared_rows w'))
    ∧ (if bool_decide (pending_cleared_rows w' = ∅)
       then keystates w' = keystates w
            ∧ das_timer w' = das_timer w
            ∧ horizontal_delay_current w' = horizontal_delay_current w
       else keystates w' = (λ _, false) <$> keystates w
            ∧ das_timer w' = horizontal_delay_normal w
            ∧ horizontal_delay_current w' = horizontal_delay_normal w)
    ∧ gameover w' = gameover w
    ∧ active_piece w' = active_piece w
    ∧ notified w' = notified w.
Proof.
  intros Hpend.
  destruct (checkLineclear_rows w Hpend)
    as (w' & Hrun & HP & Hlen & Hrows & Hnofull & Hanims & Hkeys).
  destruct (checkLineclear_total w Hpend) as (w'' & Hrun' & Hinv).
  rewrite Hrun in Hrun'. injection Hrun' as <-.
  destruct Hinv as (_ & _ & Hg & Ha & Hn & _).
  exists w'. split; [exact Hrun|]. split; [exact HP|]. split; [exact Hlen|].
  split; [exact Hrows|]. split; [exact Hnofull|]. split; [exact Hanims|].
  split; [exact Hkeys|]. auto.
Qed.

End LineFacts.

Lemma rows_where_agree {A} (f : nat → bool) (l1 : list A) : ∀ (l2 : list A) (i0 : nat),
  length l1 = length l2 →
  (∀ i, f (i0 + i)%nat = true → l1 !! i = l2 !! i) →
  rows_where f i0 l1 = rows_where f i0 l2.
Proof.
  induction l1 as [|a l1 IH]; intros [|b l2] i0 Hlen Hsame; try discriminate;
    [reflexivity|].
  cbn [rows_where]. rewrite (IH l2 (S i0)).
  - destruct (f i0) eqn:Hf; [|reflexivity].
    specialize (Hsame 0%nat). rewrite Nat.add_0_r in Hsame.
    specialize (Hsame Hf). injection Hsame as ->. reflexivity.
  - cbn in Hlen. lia.
  - intros i Hi. apply (Hsame (S i)). rewrite <- Hi. f_equal. lia.
Qed.

Lemma rows_where_filter {A} (f : nat → bool) (g : A → bool) (l : list A) : ∀ i0 : nat,
  (∀ i a, l !! i = Some a → f (i0 + i)%nat = g a) →
  rows_where f i0 l = List.filter g l.
Proof.
  induction l as [|a l IH]; intros i0 Hfg; [reflexivity|].
  cbn [rows_where List.filter].
  rewrite <- (Hfg 0%nat a eq_refl), Nat.add_0_r.
  rewrite (IH (S i0)); [reflexivity|].
  intros i b Hb. rewrite <- (Hfg (S i) b Hb). f_equal. lia.
Qed.

Lemma rows_where_Forall {A} (f : nat → bool) (Q : A → Prop) (l : list A) : ∀ i0 : nat,
  (∀ i a, l !! i = Some a → f (i0 + i)%nat = true → Q a) →
  Forall Q (rows_where f i0 l).
Proof.
  induction l as [|a l IH]; intros i0 HQ; [constructor|].
  cbn [rows_where].
  assert (Hrest : Forall Q (rows_where f (S i0) l)).
  { apply IH. intros i b Hb Hf. apply (HQ (S i) b Hb).
    rewrite <- Hf. f_equal. lia. }
  destruct (f i0) eqn:Hf; [|exact Hrest].
  constructor; [|exact Hrest]. apply (HQ 0%nat a eq_refl).
  rewrite Nat.add_0_r. exact Hf.
Qed.

Lemma Forall_eq_replicate {A} (x : A) (l : list A) :
  Forall (λ a, a = x) l → l = replicate (length l) x.
Proof. induction 1 as [|a l -> _ IH]; [reflexivity|]. cbn. f_equal. exact IH. Qed.

(** The size of a set of indices below [n], by counting. *)
Lemma size_count_from (P : gset nat) (n : nat) :
  (∀ r, r ∈ P → (r < n)%nat) →
  size P = count_from (λ j, bool_decide (j ∈ P)) 0 n.
Proof.
  intros Hbound. unfold count_from, size, set_size. cbn.
  apply Permutation_length. apply NoDup_Permutation.
  - apply NoDup_elements.
  - apply NoDup_ListNoDup. apply List.NoDup_filter. apply List.seq_NoDup.
  - intros r. rewrite elem_of_elements. rewrite list_elem_of_In, List.filter_In.
    rewrite List.in_seq, bool_decide_eq_true. split; [|tauto].
    intros Hr. split; [|exact Hr]. apply Hbound in Hr. lia.
Qed.

Section PipelineFacts.
Context `{Collaborators}.

(** X8: a line clear from the detection to the removal.  On a rectangular
    board with no row pending, [checkLineclear] and then [removeEmptyRows],
    which [update] calls once the line clear animations have ended, return
    and leave the rows that were not full, in their order, below as many
    empty rows as there were full rows; [LINE_CLEAR] with this number is
    notified and no row is pending. *)
Theorem line_clear_drops_rows (w : Well) :
  pending_cleared_rows w = ∅ →
  rectangular (matrix w) →
  let k := length (List.filter row_filled (matrix w)) in
  ∃ w1 w2 : Well,
    checkLineclear w = Some w1
    ∧ removeEmptyRows w1 = Some w2
    ∧ matrix w2
      = replicate k (replicate (Z.to_nat (width (matrix w))) None)
        ++ List.filter (λ row, negb (row_filled row)) (matrix w)
    ∧ notified w2 = notified w ++ [LINE_CLEAR (Z.of_nat k)]
    ∧ pending_cleared_rows w2 = ∅.
Proof.
  intros Hnone Hrect k.
  destruct (checkLineclear_rows w) as (w1 & Hrun & HP & Hlen & Hrows & _).
  { intros r Hr. rewrite Hnone in Hr. apply elem_of_empty in Hr. destruct Hr. }
  assert (Hnotified : notified w1 = notified w).
  { destruct (checkLineclear_total w) as (w1' & Hrun' & Hinv).
    - intros r Hr. rewrite Hnone in Hr. apply elem_of_empty in Hr. destruct Hr.
    - rewrite Hrun in Hrun'. injection Hrun' as <-.
      destruct Hinv as (_ & _ & _ & _ & Hn & _). exact Hn. }
  set (P := pending_cleared_rows w1) in *.
  assert (HPfull : ∀ r, r ∈ P ↔ is_full (matrix w) r = true).
  { intros r. rewrite HP, Hnone. split; [intros [Hr|Hr]; [|exact Hr]|auto].
    apply elem_of_empty in Hr. destruct Hr. }
  assert (Hbound : ∀ r, r ∈ P → (r < length (matrix w1))%nat).
  { intros r Hr%HPfull. unfold is_full in Hr.
    destruct (matrix w !! r) as [row|] eqn:Hrow; [|discriminate].
    apply lookup_lt_Some in Hrow. rewrite Hlen. exact Hrow. }
  assert (HinP : ∀ i row, matrix w !! i = Some row →
            bool_decide (i ∈ P) = row_filled row).
  { intros i row Hrow. destruct (row_filled row) eqn:Hfull.
    - apply bool_decide_eq_true. apply HPfull. unfold is_full.
      rewrite Hrow. exact Hfull.
    - apply bool_decide_eq_false. intros Hin%HPfull. unfold is_full in Hin.
      rewrite Hrow in Hin. congruence. }
  assert (Hk : count_from (λ j, bool_decide (j ∈ P)) 0 (length (matrix w)) = k).
  { rewrite <- rows_where_length. unfold k. f_equal.
    apply rows_where_filter. intros i row Hrow. apply (HinP i row Hrow). }
  assert (Hsize : size P = k).
  { rewrite (size_count_from P (length (matrix w))); [exact Hk|].
    intros r Hr. rewrite <- Hlen. apply Hbound. exact Hr. }
  destruct (compact_loop_board (matrix w1) P Hbound) as (top & P' & Hcompact & Hperm).
  assert (Hsurvive : surviving_rows P (matrix w1)
            = List.filter (λ row, negb (row_filled row)) (matrix w)).
  { unfold surviving_rows.
    rewrite (rows_where_agree _ (matrix w1) (matrix w) 0 Hlen).
    - apply rows_where_filter. intros i row Hrow. cbn [Nat.add].
      rewrite (HinP i row Hrow). reflexivity.
    - intros i Hi. cbn [Nat.add] in Hi. apply negb_true_iff in Hi.
      destruct (matrix w !! i) as [row|] eqn:Hrow.
      + rewrite (Hrows i row Hrow). fold P. rewrite Hi. reflexivity.
      + apply lookup_ge_None. rewrite Hlen. apply lookup_ge_None. exact Hrow. }
  assert (Htop : top = replicate k (replicate (Z.to_nat (width (matrix w))) None)).
  { assert (Hall : Forall (λ row, row = replicate (Z.to_nat (width (matrix w))) None) top).
    { rewrite Hperm. unfold cleared_rows. apply rows_where_Forall.
      intros i row Hrow Hi. cbn [Nat.add] in Hi.
      destruct (lookup_lt_is_Some_2 (matrix w) i) as [row0 Hrow0].
      { rewrite <- Hlen. apply lookup_lt_Some in Hrow. exact Hrow. }
      rewrite (Hrows i row0 Hrow0) in Hrow. fold P in Hrow. rewrite Hi in Hrow.
      injection Hrow as <-. unfold emptied. f_equal.
      unfold rectangular in Hrect. rewrite Forall_lookup in Hrect.
      specialize (Hrect i row0 Hrow0). cbn in Hrect. lia. }
    rewrite (Forall_eq_replicate _ top Hall). f_equal.
    rewrite Hperm. unfold cleared_rows. rewrite rows_where_length, Hlen. exact Hk. }
  exists w1. eexists. split; [exact Hrun|]. split.
  - unfold removeEmptyRows.
    cbn [notify set_notified matrix pending_cleared_rows].
    fold P. rewrite Hcompact. cbn [mbind option_bind fst]. reflexivity.
  - cbn [matrix set_pending_cleared_rows set_matrix notified pending_cleared_rows
         notify set_notified].
    fold P. rewrite Hsurvive, Htop, Hsize, Hnotified. repeat split.
Qed.

End PipelineFacts.

Lemma line_clear_drops_rows_witness :
  let k := length (List.filter row_filled (matrix filled_well)) in
  ∃ w1 w2 : Well,
    checkLineclear filled_well = Some w1
    ∧ removeEmptyRows w1 = Some w2
    ∧ matrix w2
      = replicate k (replicate (Z.to_nat (width (matrix filled_well))) None)
        ++ List.filter (λ row, negb (row_filled row)) (matrix filled_well)
    ∧ notified w2 = notified filled_well ++ [LINE_CLEAR (Z.of_nat k)]
    ∧ pending_cleared_rows w2 = ∅.
Proof.
  apply (line_clear_drops_rows filled_well); [reflexivity|].
  unfold rectangular. repeat constructor.
Defined.

Lemma checkLineclear_clears_full_rows_witness :
  ∃ w' : Well,
    checkLineclear filled_well = Some w'
    ∧ (∀ r : nat, r ∈ pending_cleared_rows w'
         ↔ r ∈ pending_cleared_rows filled_well ∨ is_full (matrix filled_well) r = true)
    ∧ length (matrix w') = length (matrix filled_well)
    ∧ (∀ (r : nat) (row : list Cell), matrix filled_well !! r = Some row →
         matrix w' !! r
         = Some (if bool_decide (r ∈ pending_cleared_rows w') then emptied row else row))
    ∧ (∀ (r : nat) (row : list Cell), matrix w' !! r = Some row →
         row ≠ [] → row_filled row = false)
    ∧ blocking_anims w'
      = blocking_anims filled_well
        ++ ((λ r, @LineClearAnim demo (Z.of_nat r))
              <$> animated_rows (pending_cleared_rows w'))
    ∧ (if bool_decide (pending_cleared_rows w' = ∅)
       then keystates w' = keystates filled_well
            ∧ das_timer w' = das_timer filled_well
            ∧ horizontal_delay_current w' = horizontal_delay_current filled_well
       else keystates w' = (λ _, false) <$> keystates filled_well
            ∧ das_timer w' = horizontal_delay_normal filled_well
            ∧ horizontal_delay_current w' = horizontal_delay_normal filled_well)
    ∧ gameover w' = gameover filled_well
    ∧ active_piece w' = active_piece filled_well
    ∧ notified w' = notified filled_well.
Proof.
  apply (checkLineclear_clears_full_rows filled_well).
  intros r Hr. apply elem_of_empty in Hr. destruct Hr.
Defined.

Section LockEvents.
Context `{Collaborators}.

(** X9: the events of a lock.  With a piece on a rectangular board, the
    pending rows on the board, the game not over and no blocking animation
    left, [lockThenRequestNext] returns with the piece released and has
    notified [PIECE_LOCKED] and then, unless a row from the third on is
    pending, so that a line clear animation started, [NEXT_REQUESTED]; rows
    that are pending in the two hidden rows alone do not keep
    [NEXT_REQUESTED] back. *)
Theorem lock_notifies_in_order (w : Well) (p : Piece) :
  active_piece w = Some p →
  rectangular (matrix w) →
  pending_on_board w →
  gameover w = false →
  blocking_anims w = [] →
  ∃ w' : Well,
    lockThenRequestNext w = Some w'
    ∧ active_piece w' = None
    ∧ gameover w' = false
    ∧ notified w'
      = notified w
        ++ PIECE_LOCKED
           :: (if bool_decide (animated_rows (pending_cleared_rows w') = [])
               then [NEXT_REQUESTED] else []).
Proof.
  intros Hp Hrect Hpend Hover Hanims.
  destruct (lock_cells_locked w p Hp Hrect) as (wl & Hlock & Hm & Hrectl & Hframe).
  set (w3 := notify PIECE_LOCKED
               (set_lock_countdown (tr_stop (lock_countdown (set_active_piece None wl)))
                  (set_active_piece None wl))).
  assert (Hlen : length (matrix wl) = length (matrix w)).
  { rewrite Hm. apply locked_dims. }
  destruct (lock_frame_fields w wl Hframe) as (Hgl & Hnl & Hpl).
  assert (Hbl : blocking_anims wl = blocking_anims w) by (rewrite Hframe; reflexivity).
  assert (Hpend3 : pending_on_board w3).
  { intros r Hr. change (matrix w3) with (matrix wl). rewrite Hlen. apply Hpend.
    change (pending_cleared_rows w3) with (pending_cleared_rows wl) in Hr.
    rewrite Hpl in Hr. exact Hr. }
  destruct (checkLineclear_rows w3 Hpend3) as (w4 & Hclear & _ & _ & _ & _ & Hb4 & _).
  destruct (checkLineclear_total w3 Hpend3) as (w4' & Hclear' & Hinv).
  rewrite Hclear in Hclear'. injection Hclear' as <-.
  destruct Hinv as (_ & _ & Hg4 & Ha4 & Hn4 & _).
  assert (Hb3 : blocking_anims w3 = [])
    by (change (blocking_anims w3) with (blocking_anims wl); congruence).
  assert (Hg3 : gameover w3 = false)
    by (change (gameover w3) with (gameover wl); congruence).
  assert (Hn3 : notified w3 = notified w ++ [PIECE_LOCKED])
    by (change (notified w3) with (notified wl ++ [PIECE_LOCKED]); congruence).
  rewrite Hb3 in Hb4. cbn [app] in Hb4.
  unfold lockThenRequestNext, lockAndReleasePiece. rewrite Hlock.
  cbn [mbind option_bind]. fold w3. rewrite Hclear. cbn [mbind option_bind].
  rewrite Hg4, Hg3. cbn [negb andb].
  rewrite Hb4, length_fmap.
  destruct (animated_rows (pending_cleared_rows w4)) as [|r rows] eqn:Hrows.
  - rewrite bool_decide_eq_true_2 by reflexivity.
    eexists. split; [reflexivity|].
    change (pending_cleared_rows (notify NEXT_REQUESTED w4))
      with (pending_cleared_rows w4).
    change (active_piece (notify NEXT_REQUESTED w4)) with (active_piece w4).
    change (gameover (notify NEXT_REQUESTED w4)) with (gameover w4).
    change (notified (notify NEXT_REQUESTED w4))
      with (notified w4 ++ [NEXT_REQUESTED]).
    rewrite Ha4, Hg4, Hg3, Hn4, Hn3, Hrows, <- app_assoc.
    rewrite bool_decide_eq_true_2 by reflexivity. repeat split.
  - rewrite bool_decide_eq_false_2 by discriminate.
    eexists. split; [reflexivity|].
    rewrite Ha4, Hg4, Hg3, Hn4, Hn3, Hrows.
    rewrite bool_decide_eq_false_2 by discriminate. repeat split.
Qed.

End LockEvents.

Lemma lock_notifies_in_order_witness :
  ∃ w' : Well,
    lockThenRequestNext snug_well = Some w'
    ∧ active_piece w' = None
    ∧ gameover w' = false
    ∧ notified w'
      = notified snug_well
        ++ PIECE_LOCKED
           :: (if bool_decide (animated_rows (pending_cleared_rows w') = [])
               then [NEXT_REQUESTED] else []).
Proof.
  apply (lock_notifies_in_order snug_well (demo_piece PieceType.T));
    try reflexivity.
  - unfold rectangular. vm_compute. repeat constructor.
  - intros r Hr. apply elem_of_empty in Hr. destruct Hr.
Defined.

Section LockRoundTrip.
Context `{Collaborators}.

(** X10: a locked piece is in the way.  On a rectangular board, for a piece
    with an occupied mask cell, at a column offset of at most 2147483647 and
    a row offset from 0 to 4294967291, so that none of the four row sums
    wraps around, the loops of [lockAndReleasePiece] run to their end, and
    the collision test for the same grid at the same offset on the board
    that they leave returns true.  The bound on the row offset is needed:
    from the row offset 4294967295 the row sums of the loops wrap around to
    the first rows of the board, where the collision test, whose row
    counter starts at the offset itself, does not look. *)
Theorem locked_piece_collides (w : Well) (p : Piece) :
  active_piece w = Some p →
  rectangular (matrix w) →
  0 ≤ active_piece_y w → active_piece_y w + 3 < UINT_MAX →
  active_piece_x w ≤ 2147483647 →
  (∃ i j : nat, (i < 4)%nat ∧ (j < 4)%nat ∧ is_Some (mask (currentGrid p) i j)) →
  ∃ wl : Well,
    lock_cells w = Some wl
    ∧ collides (matrix wl) (Some (currentGrid p))
               (active_piece_x w) (active_piece_y w) = Some true.
Proof.
  intros Hp Hrect Hy Hmax Hx (i & j & Hi & Hj & Hcell).
  destruct (lock_cells_locked w p Hp Hrect) as (wl & Hlock & Hm & Hrectl & _).
  exists wl. split; [exact Hlock|].
  rewrite (collides_hits _ _ _ _ Hrectl Hy Hmax). f_equal.
  apply grid_hits_iff; [exact Hrectl|exact Hy|].
  exists i, j. split; [exact Hi|]. split; [exact Hj|]. split; [exact Hcell|].
  destruct (locked_dims (currentGrid p) (active_piece_x w) (active_piece_y w)
              grid_positions (matrix w)) as [Hlen Hwid].
  assert (Hh : height (matrix wl) = height (matrix w))
    by (unfold height; rewrite Hm, Hlen; reflexivity).
  assert (Hw : width (matrix wl) = width (matrix w))
    by (rewrite Hm; exact Hwid).
  rewrite Hw, Hh.
  destruct (decide (active_piece_x w + Z.of_nat j < 0)) as [|Hc0]; [auto|].
  destruct (decide (width (matrix w) ≤ active_piece_x w + Z.of_nat j)) as [|Hc1];
    [auto|].
  destruct (decide (height (matrix w) ≤ active_piece_y w + Z.of_nat i)) as [|Hr];
    [auto|].
  left.
  assert (Hwrap : wrapu (active_piece_y w + Z.of_nat i) = active_piece_y w + Z.of_nat i)
    by (apply wrapu_small; unfold UINT_MAX in *; lia).
  assert (Hmino : has_mino (mask (currentGrid p) i j) = true)
    by (destruct Hcell as [c ->]; reflexivity).
  unfold board. rewrite Hm.
  rewrite (locked_written (currentGrid p) _ _ i j
             (active_piece_y w + Z.of_nat i) (active_piece_x w + Z.of_nat j)).
  - exact Hcell.
  - exact grid_positions_NoDup.
  - exact grid_positions_lt.
  - exact Hrect.
  - apply grid_positions_complete; assumption.
  - exact Hmino.
  - rewrite lock_target_plain; [|exact Hx|exact Hj|lia|lia].
    rewrite Hwrap. reflexivity.
Qed.

End LockRoundTrip.

Lemma locked_piece_collides_witness :
  hasCollisionAt snug_well (active_piece_x snug_well) (active_piece_y snug_well)
  = Some false
  ∧ ∃ wl : Well,
      lock_cells snug_well = Some wl
      ∧ collides (matrix wl) (Some (currentGrid (demo_piece PieceType.T)))
                 (active_piece_x snug_well) (active_piece_y snug_well)
        = Some true.
Proof.
  split; [vm_compute; reflexivity|].
  apply (locked_piece_collides snug_well (demo_piece PieceType.T)).
  - reflexivity.
  - unfold rectangular. vm_compute. repeat constructor.
  - vm_compute. discriminate.
  - vm_compute. reflexivity.
  - vm_compute. discriminate.
  - exists 0%nat, 1%nat. split; [lia|]. split; [lia|]. vm_compute. eauto.
Defined.

(** The bound on the row offset cannot be dropped.  A turn of the T piece
    on the top row, over the minos of row 2, leaves it at the row offset
    4294967295; the loops of [lockAndReleasePiece], whose row sums wrap
    around, then write it to the first rows of the board, where the
    collision test for the same grid at the same offset does not find it. *)
Lemma wrapped_piece_is_locked_unseen :
  ∃ (w wl : @Well demo) (p : Piece),
    rotateCWNow crowded_well = Some w
    ∧ active_piece w = Some p
    ∧ active_piece_y w = 4294967295
    ∧ lock_cells w = Some wl
    ∧ has_mino (board (matrix w) 0 5) = false
    ∧ has_mino (board (matrix wl) 0 5) = true
    ∧ collides (matrix wl) (Some (currentGrid p))
               (active_piece_x w) (active_piece_y w) = Some false.
Proof.
  destruct (rotateCWNow crowded_well) as [w|] eqn:Hturn;
    [|vm_compute in Hturn; discriminate Hturn].
  destruct (active_piece w) as [p|] eqn:Hp;
    [|vm_compute in Hturn; injection Hturn as <-; discriminate Hp].
  destruct (lock_cells w) as [wl|] eqn:Hlock;
    [|vm_compute in Hturn; injection Hturn as <-; vm_compute in Hlock;
      discriminate Hlock].
  exists w, wl, p. split; [reflexivity|]. split; [exact Hp|].
  vm_compute in Hturn. injection Hturn as <-.
  vm_compute in Hp. injection Hp as <-.
  vm_compute in Hlock. injection Hlock as <-.
  repeat split; vm_compute; reflexivity.
Qed.

(** ** The lock of a piece and the board buffer *)

Section LockBoard.
Context `{Collaborators}.

(** Rows that keep their lengths keep the width of the board. *)
Lemma width_rows (m m' : Matrix) :
  length m' = length m →
  (∀ (r : nat) (row : list Cell), m !! r = Some row →
     ∃ row' : list Cell, m' !! r = Some row' ∧ length row' = length row) →
  width m' = width m.
Proof.
  intros Hlen Hrows. destruct m as [|row0 m].
  - destruct m'; [reflexivity|discriminate].
  - destruct (Hrows 0%nat row0 eq_refl) as (row0' & Hrow0' & Hl0).
    rewrite (width_lookup_0 _ _ Hrow0'), Hl0. reflexivity.
Qed.

(** C10: [lockAndReleasePiece] never reaches outside the board buffer.  With
    a piece at a column offset in the range of [int], on a rectangular board
    whose pending rows are rows of the board, the function returns; the
    board keeps its height and its width.  In its two loops a mask cell
    whose row (the unsigned sum of the row offset and the grid row) or
    column lies outside the board is skipped: the body of the loop leaves
    every state with this board size and these offsets as it is.  Every
    occupied mask cell that lies inside the board is found in the board
    cell at the piece's offset when the loops are done, in the state [wl];
    every other board cell keeps its content.  The piece is then released,
    and with it what the skipped cells held; the rows that are pending
    after [checkLineclear] are those that were pending and the rows that
    are full after the loops, all of them rows of the board; these rows are
    emptied and every other row is the row that the loops left. *)
Theorem lockAndReleasePiece_within_board (w : Well) (p : Piece) :
  active_piece w = Some p →
  rectangular (matrix w) →
  active_piece_x w ≤ 2147483647 →
  pending_on_board w →
  ∃ wl w' : Well,
    lock_cells w = Some wl ∧
    lockAndReleasePiece w = Some w' ∧
    (∀ (i j : nat) (s : Well), (i < 4)%nat → (j < 4)%nat →
       ¬ (wrapu (active_piece_y w + Z.of_nat i) < height (matrix w)
          ∧ 0 ≤ active_piece_x w + Z.of_nat j < width (matrix w)) →
       height (matrix s) = height (matrix w) →
       width (matrix s) = width (matrix w) →
       active_piece_x s = active_piece_x w →
       active_piece_y s = active_piece_y w →
       lock_cell i j s = Some s) ∧
    (∀ i j : nat, (i < 4)%nat → (j < 4)%nat →
       is_Some (mask (currentGrid p) i j) →
       wrapu (active_piece_y w + Z.of_nat i) < height (matrix w) →
       0 ≤ active_piece_x w + Z.of_nat j < width (matrix w) →
       matrix_at (matrix wl) (wrapu (active_piece_y w + Z.of_nat i))
                 (active_piece_x w + Z.of_nat j)
       = Some (mask (currentGrid p) i j)) ∧
    (∀ r c : Z,
       (∀ i j : nat, (i < 4)%nat → (j < 4)%nat →
          is_Some (mask (currentGrid p) i j) →
          ¬ (r = wrapu (active_piece_y w + Z.of_nat i)
             ∧ c = active_piece_x w + Z.of_nat j)) →
       matrix_at (matrix wl) r c = matrix_at (matrix w) r c) ∧
    active_piece w' = None ∧
    length (matrix w') = length (matrix w) ∧
    width (matrix w') = width (matrix w) ∧
    rectangular (matrix w') ∧
    (∀ r : nat, r ∈ pending_cleared_rows w'
       ↔ r ∈ pending_cleared_rows w ∨ is_full (matrix wl) r = true) ∧
    pending_on_board w' ∧
    (∀ (r : nat) (row : list Cell), matrix wl !! r = Some row →
       matrix w' !! r
       = Some (if bool_decide (r ∈ pending_cleared_rows w')
               then emptied row else row)).
Proof.
  intros Hp Hrect Hx Hpend.
  destruct (lock_cells_board w p Hp Hrect Hx)
    as (wl & Hlock & Hlen & Hwid & Hrectl & _ & Hwritten & Hrest).
  destruct (lock_cells_locked w p Hp Hrect) as (wl' & Hlock' & _ & _ & Hframe).
  rewrite Hlock in Hlock'. injection Hlock' as <-.
  destruct (lock_frame_fields w wl Hframe) as (_ & _ & Hpl).
  set (w3 := notify PIECE_LOCKED
               (set_lock_countdown (tr_stop (lock_countdown (set_active_piece None wl)))
                  (set_active_piece None wl))).
  assert (Hpend3 : pending_on_board w3).
  { intros r Hr. change (matrix w3) with (matrix wl). rewrite Hlen. apply Hpend.
    change (pending_cleared_rows w3) with (pending_cleared_rows wl) in Hr.
    rewrite Hpl in Hr. exact Hr. }
  destruct (checkLineclear_rows w3 Hpend3)
    as (w' & Hclear & Hset & Hlen' & Hrows & _).
  destruct (checkLineclear_total w3 Hpend3) as (w'' & Hclear' & Hinv).
  rewrite Hclear in Hclear'. injection Hclear' as <-.
  destruct Hinv as (_ & _ & _ & Hpiece & _ & _).
  change (matrix w3) with (matrix wl) in Hset, Hlen', Hrows.
  change (pending_cleared_rows w3) with (pending_cleared_rows wl) in Hset.
  rewrite Hpl in Hset.
  assert (Hsame : ∀ (r : nat) (row : list Cell), matrix wl !! r = Some row →
            ∃ row' : list Cell, matrix w' !! r = Some row' ∧ length row' = length row).
  { intros r row Hrow. rewrite (Hrows r row Hrow). eexists. split; [reflexivity|].
    destruct (bool_decide _); [|reflexivity]. unfold emptied. apply length_replicate. }
  assert (Hwid' : width (matrix w') = width (matrix wl))
    by (apply width_rows; [exact Hlen'|exact Hsame]).
  exists wl, w'. split; [exact Hlock|]. split.
  { unfold lockAndReleasePiece. rewrite Hlock. cbn [mbind option_bind].
    fold w3. exact Hclear. }
  split.
  { intros i j s Hi Hj Hout Hhs Hws Hxs Hys. unfold lock_cell.
    rewrite Hhs, Hws, Hxs, Hys.
    destruct ((height (matrix w) <=? wrapu (active_piece_y w + Z.of_nat i))
              || (width (matrix w) <=? wrapu (active_piece_x w + Z.of_nat j))
              || (active_piece_x w + Z.of_nat j <? 0)) eqn:Hguard; [reflexivity|].
    exfalso. apply Hout.
    apply orb_false_iff in Hguard as [Hguard Hneg].
    apply orb_false_iff in Hguard as [Hrow Hcol].
    rewrite (wrapu_small (active_piece_x w + Z.of_nat j)) in Hcol
      by (unfold UINT_MAX; lia).
    lia. }
  split; [exact Hwritten|]. split; [exact Hrest|].
  split; [rewrite Hpiece; reflexivity|].
  split; [rewrite Hlen'; exact Hlen|].
  split; [rewrite Hwid'; exact Hwid|].
  split.
  { unfold rectangular in *. rewrite Forall_lookup in Hrectl. apply Forall_lookup.
    intros r row' Hrow'.
    destruct (lookup_lt_is_Some_2 (matrix wl) r) as [row Hrow].
    { rewrite <- Hlen'. apply lookup_lt_Some in Hrow'. exact Hrow'. }
    destruct (Hsame r row Hrow) as (row'' & Hrow'' & Hl).
    rewrite Hrow' in Hrow''. injection Hrow'' as <-.
    rewrite Hwid', Hl. exact (Hrectl r row Hrow). }
  split; [exact Hset|].
  split; [|exact Hrows].
  intros r Hr. rewrite Hlen', Hlen. apply Hset in Hr as [Hr|Hr]; [apply Hpend; exact Hr|].
  unfold is_full in Hr. destruct (matrix wl !! r) as [row|] eqn:Hrow; [|discriminate].
  rewrite <- Hlen. apply lookup_lt_Some in Hrow. exact Hrow.
Qed.

End LockBoard.

Lemma pending_on_board_overhanging_well : pending_on_board overhanging_well.
Proof. intros r Hr. apply elem_of_empty in Hr. destruct Hr. Qed.

Lemma lockAndReleasePiece_within_board_witness :
  ∃ wl w' : @Well demo,
    lock_cells overhanging_well = Some wl ∧
    lockAndReleasePiece overhanging_well = Some w' ∧
    (∀ (i j : nat) (s : @Well demo), (i < 4)%nat → (j < 4)%nat →
       ¬ (wrapu (active_piece_y overhanging_well + Z.of_nat i)
            < height (matrix overhanging_well)
          ∧ 0 ≤ active_piece_x overhanging_well + Z.of_nat j
              < width (matrix overhanging_well)) →
       height (matrix s) = height (matrix overhanging_well) →
       width (matrix s) = width (matrix overhanging_well) →
       active_piece_x s = active_piece_x overhanging_well →
       active_piece_y s = active_piece_y overhanging_well →
       lock_cell i j s = Some s) ∧
    (∀ i j : nat, (i < 4)%nat → (j < 4)%nat →
       is_Some (mask (currentGrid (demo_piece PieceType.T)) i j) →
       wrapu (active_piece_y overhanging_well + Z.of_nat i)
         < height (matrix overhanging_well) →
       0 ≤ active_piece_x overhanging_well + Z.of_nat j
         < width (matrix overhanging_well) →
       matrix_at (matrix wl) (wrapu (active_piece_y overhanging_well + Z.of_nat i))
                 (active_piece_x overhanging_well + Z.of_nat j)
       = Some (mask (currentGrid (demo_piece PieceType.T)) i j)) ∧
    (∀ r c : Z,
       (∀ i j : nat, (i < 4)%nat → (j < 4)%nat →
          is_Some (mask (currentGrid (demo_piece PieceType.T)) i j) →
          ¬ (r = wrapu (active_piece_y overhanging_well + Z.of_nat i)
             ∧ c = active_piece_x overhanging_well + Z.of_nat j)) →
       matrix_at (matrix wl) r c = matrix_at (matrix overhanging_well) r c) ∧
    active_piece w' = None ∧
    length (matrix w') = length (matrix overhanging_well) ∧
    width (matrix w') = width (matrix overhanging_well) ∧
    rectangular (matrix w') ∧
    (∀ r : nat, r ∈ pending_cleared_rows w'
       ↔ r ∈ pending_cleared_rows overhanging_well ∨ is_full (matrix wl) r = true) ∧
    pending_on_board w' ∧
    (∀ (r : nat) (row : list Cell), matrix wl !! r = Some row →
       matrix w' !! r
       = Some (if bool_decide (r ∈ pending_cleared_rows w')
               then emptied row else row)).
Proof.
  apply (lockAndReleasePiece_within_board overhanging_well (demo_piece PieceType.T)).
  - reflexivity.
  - exact rectangular_empty_matrix.
  - vm_compute. discriminate.
  - exact pending_on_board_overhanging_well.
Defined.

(** The pending rows have to be rows of the board: [checkLineclear] indexes
    the board with them unchecked.  With the row 22 pending on a board of 22
    rows the loops run to their end and the function faults after them. *)
Lemma lockAndReleasePiece_pending_off_board :
  is_Some (lock_cells (set_pending_cleared_rows {[22%nat]} overhanging_well))
  ∧ lockAndReleasePiece (set_pending_cleared_rows {[22%nat]} overhanging_well)
    = None.
Proof.
  split.
  - destruct (lock_cells _) as [wl|] eqn:Hlock; [eauto|].
    vm_compute in Hlock. discriminate Hlock.
  - vm_compute. reflexivity.
Qed.

(** ** A new piece, keys, gravity and the end of the game *)

Section SpawnPlaced.
Context `{Collaborators}.

(** The loop of [addPiece], from the row offset [y1], when the piece fits
    on the row [y0] above it and collides on the rows between. *)
Lemma spawn_loop_finds (type : PieceType.t) (w : Well) (y0 : Z) :
  rectangular (matrix w) →
  3 ≤ height (matrix w) → height (matrix w) + 3 < UINT_MAX →
  0 ≤ y0 →
  free_at (spawned type w y0) 3 y0 = true →
  ∀ (fuel : nat) (y1 : Z),
    y0 < y1 ≤ 3 → y1 - y0 ≤ Z.of_nat fuel →
    (∀ y : Z, y0 < y < y1 → collides_at (spawned type w y) 3 y = true) →
    ∃ w' : Well,
      spawn_loop fuel (spawned type w y1) = Some (true, w')
      ∧ w' = set_ghost_piece_y (ghost_piece_y w') (spawned type w y0)
      ∧ placed w' (make_uptr type).
Proof.
  intros Hrect Hh3 Hh Hy0 Hfree.
  induction fuel as [|fuel IH]; intros y1 Hy1 Hfuel Habove; [lia|].
  rewrite spawn_loop_S.
  change (active_piece_y (spawned type w y1)) with y1.
  change (active_piece_x (spawned type w y1)) with 3.
  rewrite (wrapu_small (y1 - 1)) by (unfold UINT_MAX; lia).
  change (set_active_piece_y (y1 - 1) (spawned type w y1))
    with (spawned type w (y1 - 1)).
  replace (0 <? y1) with true by (symmetry; apply Z.ltb_lt; lia).
  destruct (decide (y1 - 1 = y0)) as [Heq|Hne].
  - rewrite Heq. rewrite (free_at_false _ _ _ Hfree). cbn [mbind option_bind negb].
    destruct (ghost_row_placed (spawned type w y0) (make_uptr type))
      as (g & Hg & Hplaced).
    + unfold playable, spawned. cbn. auto with lia.
    + unfold fits. apply free_at_false in Hfree. exact Hfree.
    + rewrite Hg. cbn [mbind option_bind]. eexists. split; [reflexivity|].
      split; [reflexivity|exact Hplaced].
  - rewrite (collides_at_true _ _ _ (Habove (y1 - 1) ltac:(lia))).
    cbn [mbind option_bind negb].
    apply IH; [lia|lia|]. intros y Hy. apply Habove. lia.
Qed.

(** X11: a new piece.  On a rectangular board of at least three rows, when
    the new piece fits at the spawn column 3 on one of the rows 2, 1 and 0
    and collides on the rows probed before it, [addPiece] returns with the
    piece in play on that row, its ghost row set, and nothing else changed:
    the game is not over by this call and nothing is notified. *)
Theorem addPiece_spawns_on_first_free_row (type : PieceType.t) (w : Well) (y0 : Z) :
  rectangular (matrix w) →
  3 ≤ height (matrix w) → height (matrix w) + 3 < UINT_MAX →
  0 ≤ y0 ≤ 2 →
  free_at (spawned type w y0) 3 y0 = true →
  (∀ y : Z, y0 < y ≤ 2 → collides_at (spawned type w y) 3 y = true) →
  ∃ w' : Well,
    addPiece type w = Some w'
    ∧ w' = set_ghost_piece_y (ghost_piece_y w') (spawned type w y0)
    ∧ placed w' (make_uptr type).
Proof.
  intros Hrect Hh3 Hh Hy0 Hfree Habove.
  destruct (spawn_loop_finds type w y0 Hrect Hh3 Hh (proj1 Hy0) Hfree 3%nat 3)
    as (w' & Hloop & Hrest); [lia|lia| |].
  { intros y Hy. apply Habove. lia. }
  exists w'. split; [|exact Hrest].
  unfold addPiece.
  change (set_active_piece_y 3
            (set_active_piece_x 3 (set_active_piece (Some (make_uptr type)) w)))
    with (spawned type w 3).
  rewrite Hloop. reflexivity.
Qed.

End SpawnPlaced.

Lemma addPiece_spawns_on_first_free_row_witness :
  ∃ w' : Well,
    addPiece PieceType.T (@Well_new demo) = Some w'
    ∧ w' = set_ghost_piece_y (ghost_piece_y w') (spawned PieceType.T (@Well_new demo) 2)
    ∧ placed w' (@make_uptr demo PieceType.T).
Proof.
  apply (addPiece_spawns_on_first_free_row PieceType.T (@Well_new demo) 2).
  - exact rectangular_empty_matrix.
  - vm_compute. discriminate.
  - vm_compute. reflexivity.
  - lia.
  - vm_compute. reflexivity.
  - intros y Hy. lia.
Defined.

Section KeyFacts.
Context `{Collaborators}.

Lemma updateKeystate_fold (events : list InputEvent) : ∀ (w : Well) (k : InputType.t),
  let w' := foldl (λ w' e, set_keystates (<[ev_type e := ev_down e]> (keystates w')) w')
                  w events in
  keystates w' !! k
  = match last_event_of k events with
    | Some e => Some (ev_down e)
    | None => keystates w !! k
    end
  ∧ w' = set_keystates (keystates w') w.
Proof.
  unfold last_event_of.
  induction events as [|e events IH]; intros w k; cbn [foldl].
  - split; [reflexivity|]. destruct w; reflexivity.
  - destruct (IH (set_keystates (<[ev_type e := ev_down e]> (keystates w)) w) k)
      as [Hkey Hframe].
    split.
    + rewrite Hkey. rewrite filter_cons.
      destruct (decide (ev_type e = k)) as [Heq|Hne].
      * rewrite last_cons.
        destruct (last (filter (λ e0, ev_type e0 = k) events)); [reflexivity|].
        cbn. rewrite Heq. apply lookup_insert_eq.
      * destruct (last (filter (λ e0, ev_type e0 = k) events)); [reflexivity|].
        cbn. apply lookup_insert_ne. exact Hne.
    + rewrite Hframe at 1. reflexivity.
Qed.

(** X12: the key states of a frame.  [updateKeystate] keeps the key states
    of the frame before as the previous ones; for each key the new state is
    that of the last event of the frame for this key, and the old state when
    the frame has none; nothing else changes. *)
Theorem updateKeystate_last_event_wins (events : list InputEvent) (w : Well)
    (k : InputType.t) :
  previous_keystates (updateKeystate events w) = keystates w
  ∧ keystates (updateKeystate events w) !! k
    = match last_event_of k events with
      | Some e => Some (ev_down e)
      | None => keystates w !! k
      end
  ∧ updateKeystate events w
    = set_keystates (keystates (updateKeystate events w))
        (set_previous_keystates (keystates w) w).
Proof.
  unfold updateKeystate.
  destruct (updateKeystate_fold events (set_previous_keystates (keystates w) w) k)
    as [Hkey Hframe].
  cbn zeta in Hkey, Hframe. split; [|split].
  - rewrite Hframe. reflexivity.
  - exact Hkey.
  - exact Hframe.
Qed.

Lemma update_gameover (events : list InputEvent) (w : Well) :
  gameover w = true → update events w = Some (updateAnimations w).
Proof.
  intros Hover. unfold update. cbn zeta.
  change (gameover (updateAnimations w)) with (gameover w). rewrite Hover.
  reflexivity.
Qed.

(** X13: the end of the game.  Once [gameover] is set, [update] returns in
    every frame, whatever its events, and only steps the animations: after
    any number of frames the flag is set and the playfield is as it was but
    for the two lists of animations, stepped once per frame. *)
Theorem gameover_is_final (frames : list (list InputEvent)) (w : Well) :
  gameover w = true →
  run_frames frames w
  = Some (set_blocking_anims (age_animations (length frames) (blocking_anims w))
            (set_animations (age_animations (length frames) (animations w)) w)).
Proof.
  unfold run_frames, age_animations. revert w.
  induction frames as [|events frames IH]; intros w Hover; cbn [for_each length].
  - destruct w; reflexivity.
  - rewrite (update_gameover events w Hover). cbn [mbind option_bind].
    rewrite IH by exact Hover.
    rewrite !Nat.iter_succ_r. reflexivity.
Qed.

End KeyFacts.

Lemma gameover_is_final_witness :
  run_frames [[mkInputEvent InputType.LEFT true]; []]
             (set_gameover true clearing_well)
  = Some (set_blocking_anims
            (@age_animations demo 2 (blocking_anims (set_gameover true clearing_well)))
            (set_animations
               (@age_animations demo 2 (animations (set_gameover true clearing_well)))
               (set_gameover true clearing_well))).
Proof.
  apply (gameover_is_final [[mkInputEvent InputType.LEFT true]; []]
           (set_gameover true clearing_well)).
  reflexivity.
Defined.

Section GravityFacts.
Context `{Collaborators}.

(** A lock leaves the pending rows on the board. *)
Lemma lockThenRequestNext_pending (w w' : Well) (p : Piece) :
  active_piece w = Some p → rectangular (matrix w) → pending_on_board w →
  lockThenRequestNext w = Some w' → pending_on_board w'.
Proof.
  intros Hp Hrect Hpend Hrun.
  destruct (lock_cells_locked w p Hp Hrect) as (wl & Hlock & Hm & _ & Hframe).
  destruct (lock_frame_fields w wl Hframe) as (_ & _ & Hpl).
  assert (Hlen : length (matrix wl) = length (matrix w)).
  { rewrite Hm. apply locked_dims. }
  set (w3 := notify PIECE_LOCKED
               (set_lock_countdown (tr_stop (lock_countdown (set_active_piece None wl)))
                  (set_active_piece None wl))).
  assert (Hpend3 : pending_on_board w3).
  { intros r Hr. change (matrix w3) with (matrix wl). rewrite Hlen. apply Hpend.
    change (pending_cleared_rows w3) with (pending_cleared_rows wl) in Hr.
    rewrite Hpl in Hr. exact Hr. }
  destruct (checkLineclear_rows w3 Hpend3) as (w4 & Hclear & HP & Hlen4 & _).
  unfold lockThenRequestNext, lockAndReleasePiece in Hrun. rewrite Hlock in Hrun.
  cbn [mbind option_bind] in Hrun. fold w3 in Hrun. rewrite Hclear in Hrun.
  cbn [mbind option_bind] in Hrun.
  assert (Hpend4 : pending_on_board w4).
  { intros r Hr. rewrite Hlen4. apply HP in Hr as [Hr|Hr]; [apply Hpend3; exact Hr|].
    unfold is_full in Hr. destruct (matrix w3 !! r) as [row|] eqn:Hrow; [|discriminate].
    apply lookup_lt_Some in Hrow. exact Hrow. }
  injection Hrun as <-. destruct (_ && _); exact Hpend4.
Qed.

(** One call of [applyGravity]. *)
Lemma applyGravity_settled (w : Well) :
  settled w → pending_on_board w →
  ∃ w' : Well,
    applyGravity w = Some w' ∧ settled w' ∧ pending_on_board w'.
Proof.
  intros Hsettled Hpend.
  set (w0 := set_gravity_steps (S (gravity_steps w)) w).
  unfold applyGravity. fold w0.
  destruct Hsettled as [Hnone|[p Hplaced]].
  - exists w0. split; [|split; [left; exact Hnone|exact Hpend]].
    unfold moveDownNow. change (active_piece w0) with (active_piece w).
    rewrite Hnone. rewrite bool_decide_eq_true_2 by reflexivity. reflexivity.
  - assert (Hplaced0 : placed w0 p) by exact Hplaced.
    assert (Hpend0 : pending_on_board w0) by exact Hpend.
    destruct (step_down_cases w0 p Hplaced0 Hpend0) as (w' & Hrun & Hcases).
    exists w'. split; [exact Hrun|].
    destruct (_ && free_at _ _ _).
    + destruct Hcases as [-> Hplaced']. split; [right; eauto|exact Hpend0].
    + destruct (_ && _).
      * destruct Hcases as [Hlock Hnone]. split; [left; exact Hnone|].
        destruct Hplaced0 as ((Hp & Hrect & _) & _).
        apply (lockThenRequestNext_pending w0 w' p Hp Hrect Hpend0 Hlock).
      * subst w'. split; [right; eauto|exact Hpend0].
Qed.

(** X3: a step down.  For a piece in play, with the pending rows on the
    board, [moveDownNow] returns.  When the next row is on the board and the
    piece fits there, the piece is in play one row lower and nothing else
    changed, the ghost row neither; otherwise, when the next row is on the
    board, the piece does not lock on a hard drop and the lock countdown
    runs, the piece is locked and released; otherwise the playfield is as it
    was.  In each case no piece is active afterwards or the piece is in
    play, and the pending rows are on the board. *)
Theorem moveDownNow_keeps_placed (w : Well) (p : Piece) :
  placed w p → pending_on_board w →
  ∃ w' : Well,
    moveDownNow w = Some w'
    ∧ settled w' ∧ pending_on_board w'
    ∧ if (active_piece_y w + 1 <? height (matrix w))
         && free_at w (active_piece_x w) (active_piece_y w + 1)
      then w' = set_active_piece_y (active_piece_y w + 1) w ∧ placed w' p
      else if (active_piece_y w + 1 <? height (matrix w))
              && negb (harddrop_locks_instantly w)
              && tr_running (lock_countdown w)
           then lockThenRequestNext w = Some w' ∧ active_piece w' = None
           else w' = w.
Proof.
  intros Hplaced Hpend.
  destruct (step_down_cases w p Hplaced Hpend) as (w' & Hrun & Hcases).
  exists w'. split; [exact Hrun|].
  destruct ((active_piece_y w + 1 <? height (matrix w))
            && free_at w (active_piece_x w) (active_piece_y w + 1)).
  - destruct Hcases as [Hw' Hplaced']. split; [right; eauto|].
    split; [rewrite Hw'; exact Hpend|auto].
  - destruct ((active_piece_y w + 1 <? height (matrix w))
              && negb (harddrop_locks_instantly w) && tr_running (lock_countdown w)).
    + destruct Hcases as [Hlock Hnone]. split; [left; exact Hnone|].
      destruct Hplaced as ((Hp & Hrect & _) & _).
      split; [|auto].
      apply (lockThenRequestNext_pending w w' p Hp Hrect Hpend Hlock).
    + subst w'. split; [right; eauto|]. auto.
Qed.

(** X4: a hard drop.  For a piece in play, with the pending rows on the
    board, [hardDrop] returns.  The piece is put on its ghost row, where it
    fits; it is locked there and released when the piece locks on a hard
    drop, or when the countdown runs and the ghost row is above the last row
    of the board; otherwise it stays in play on the ghost row.  The column
    offset, [skip_gravity] and the timers and delays of the soft drop and of
    gravity are as they were, and the pending rows are on the board. *)
Theorem hardDrop_lands_on_ghost_row (w : Well) (p : Piece) :
  placed w p → pending_on_board w →
  let w0 := set_active_piece_y (ghost_piece_y w) w in
  ∃ w' : Well,
    hardDrop w = Some w'
    ∧ fits w0
    ∧ drops_keep w' = drops_keep w
    ∧ pending_on_board w'
    ∧ if harddrop_locks_instantly w
         || (ghost_piece_y w + 1 <? height (matrix w)) && tr_running (lock_countdown w)
      then lockThenRequestNext w0 = Some w' ∧ active_piece w' = None
      else w' = w0 ∧ placed w0 p.
Proof.
  intros Hplaced Hpend w0.
  destruct (hardDrop_cases w p Hplaced Hpend) as (w' & Hrun & Hfits & Hcases).
  fold w0 in Hfits, Hcases.
  exists w'. split; [exact Hrun|]. split; [exact Hfits|].
  split; [apply hardDrop_keeps; exact Hrun|].
  destruct (harddrop_locks_instantly w
            || (ghost_piece_y w + 1 <? height (matrix w)) && tr_running (lock_countdown w)).
  - split; [|exact Hcases]. destruct Hcases as [Hlock _].
    destruct Hplaced as ((Hp & Hrect & _) & _).
    apply (lockThenRequestNext_pending w0 w' p Hp Hrect Hpend Hlock).
  - split; [|exact Hcases]. destruct Hcases as [-> _]. exact Hpend.
Qed.

(** The loop of [updateGravity]. *)
Lemma gravity_loop_runs (fuel : nat) : ∀ w : Well,
  settled w → pending_on_board w →
  0 < gravity_delay w → 0 ≤ gravity_timer w →
  (Z.to_nat (gravity_timer w / gravity_delay w) ≤ fuel)%nat →
  ∃ w' : Well,
    gravity_loop fuel w = Some w'
    ∧ gravity_timer w' = gravity_timer w mod gravity_delay w
    ∧ gravity_delay w' = gravity_delay w
    ∧ gravity_steps w'
      = (gravity_steps w
         + if skip_gravity w then 0
           else Z.to_nat (gravity_timer w / gravity_delay w))%nat
    ∧ settled w' ∧ pending_on_board w'.
Proof.
  induction fuel as [|fuel IH]; intros w Hsettled Hpend Hdelay Htimer Hfuel.
  - assert (Hsmall : gravity_timer w < gravity_delay w).
    { destruct (Z_lt_le_dec (gravity_timer w) (gravity_delay w)) as [|Hle]; [assumption|].
      assert (1 ≤ gravity_timer w / gravity_delay w)
        by (apply Z.div_le_lower_bound; lia). lia. }
    cbn [gravity_loop].
    replace (gravity_delay w <=? gravity_timer w) with false
      by (symmetry; apply Z.leb_gt; exact Hsmall).
    exists w. split; [reflexivity|].
    rewrite Z.mod_small, Z.div_small by lia.
    split; [reflexivity|]. split; [reflexivity|].
    split; [destruct (skip_gravity w); cbn; lia|auto].
  - cbn [gravity_loop].
    destruct (gravity_delay w <=? gravity_timer w) eqn:Hdue.
    + apply Z.leb_le in Hdue.
      set (w1 := set_gravity_timer (gravity_timer w - gravity_delay w) w).
      assert (Hdiv : gravity_timer w / gravity_delay w
                     = (gravity_timer w - gravity_delay w) / gravity_delay w + 1).
      { replace (gravity_timer w) with
          ((gravity_timer w - gravity_delay w) + 1 * gravity_delay w) at 1 by lia.
        apply Z.div_add. lia. }
      assert (Hmod : gravity_timer w mod gravity_delay w
                     = (gravity_timer w - gravity_delay w) mod gravity_delay w).
      { replace (gravity_timer w) with
          ((gravity_timer w - gravity_delay w) + 1 * gravity_delay w) at 1 by lia.
        apply Z.mod_add. lia. }
      assert (Hpos : 0 ≤ (gravity_timer w - gravity_delay w) / gravity_delay w)
        by (apply Z.div_pos; lia).
      assert (Hstep : ∃ w2,
                (if negb (skip_gravity w1) then applyGravity w1 else Some w1) = Some w2
                ∧ settled w2 ∧ pending_on_board w2
                ∧ gravity_timer w2 = gravity_timer w - gravity_delay w
                ∧ gravity_delay w2 = gravity_delay w
                ∧ skip_gravity w2 = skip_gravity w
                ∧ gravity_steps w2
                  = (gravity_steps w + if skip_gravity w then 0 else 1)%nat).
      { change (skip_gravity w1) with (skip_gravity w).
        destruct (skip_gravity w) eqn:Hskip; cbn [negb].
        - exists w1. split; [reflexivity|]. split; [exact Hsettled|].
          split; [exact Hpend|]. cbn. rewrite Hskip. auto with lia.
        - destruct (applyGravity_settled w1) as (w2 & Hrun & Hs2 & Hp2);
            [exact Hsettled|exact Hpend|].
          exists w2. split; [exact Hrun|]. split; [exact Hs2|]. split; [exact Hp2|].
          apply applyGravity_steps in Hrun as (Hsteps & Hsk & Hd & Ht).
          cbn in Hsteps, Hsk, Hd, Ht. rewrite Hsteps, Hsk, Hd, Ht, Hskip.
          auto with lia. }
      destruct Hstep as (w2 & Hrun & Hs2 & Hp2 & Ht2 & Hd2 & Hsk2 & Hst2).
      rewrite Hrun. cbn [mbind option_bind].
      destruct (IH w2 Hs2 Hp2) as (w' & Hloop & Ht' & Hd' & Hst' & Hs' & Hp').
      * rewrite Hd2. exact Hdelay.
      * rewrite Ht2. lia.
      * rewrite Ht2, Hd2. lia.
      * exists w'. split; [exact Hloop|].
        rewrite Ht', Hd', Hst', Ht2, Hd2, Hsk2, Hst2, Hmod, Hdiv.
        split; [reflexivity|]. split; [reflexivity|].
        split; [|auto]. destruct (skip_gravity w); lia.
    + apply Z.leb_gt in Hdue. exists w. split; [reflexivity|].
      rewrite Z.mod_small, Z.div_small by lia.
      split; [reflexivity|]. split; [reflexivity|].
      split; [destruct (skip_gravity w); cbn; lia|auto].
Qed.

(** X14: gravity in a frame.  With no piece or a piece in play, the pending
    rows on the board, a gravity delay above zero and a gravity timer that
    the frame does not leave negative, [updateGravity] returns: the loop
    ends.  It leaves on the timer the rest of the time over the delay, and
    it has called [applyGravity] once for every full delay in the time,
    and not at all when [skip_gravity] is set; afterwards no piece is
    active or the piece is still in play. *)
Theorem updateGravity_terminates (w : Well) :
  settled w → pending_on_board w →
  0 < gravity_delay w → 0 ≤ gravity_timer w + frame →
  ∃ w' : Well,
    updateGravity w = Some w'
    ∧ gravity_timer w' = (gravity_timer w + frame) mod gravity_delay w
    ∧ gravity_steps w'
      = (gravity_steps w
         + if skip_gravity w then 0
           else Z.to_nat ((gravity_timer w + frame) / gravity_delay w))%nat
    ∧ settled w' ∧ pending_on_board w'.
Proof.
  intros Hsettled Hpend Hdelay Htimer. unfold updateGravity. cbn zeta.
  set (w1 := set_gravity_timer (gravity_timer w + frame) w).
  destruct (gravity_loop_runs (Z.to_nat (gravity_timer w1 / gravity_delay w1)) w1)
    as (w' & Hloop & Ht & _ & Hst & Hs & Hp);
    [exact Hsettled|exact Hpend|exact Hdelay|exact Htimer|lia|].
  exists w'. split; [exact Hloop|]. auto.
Qed.

End GravityFacts.

Lemma updateGravity_terminates_witness :
  ∃ w' : Well,
    updateGravity dropping_well = Some w'
    ∧ gravity_timer w'
      = (gravity_timer dropping_well + @frame demo) mod gravity_delay dropping_well
    ∧ gravity_steps w'
      = (gravity_steps dropping_well
         + if skip_gravity dropping_well then 0
           else Z.to_nat ((gravity_timer dropping_well + @frame demo)
                          / gravity_delay dropping_well))%nat
    ∧ settled w' ∧ pending_on_board w'.
Proof.
  apply (updateGravity_terminates dropping_well).
  - right. exists (demo_piece PieceType.T). exact placed_falling_well.
  - exact pending_on_board_falling_well.
  - reflexivity.
  - vm_compute. discriminate.
Defined.

Section KickWrap.
Context `{Collaborators}.



End KickWrap.


Lemma moveDownNow_keeps_placed_witness :
  ∃ w' : Well,
    moveDownNow falling_well = Some w'
    ∧ settled w' ∧ pending_on_board w'
    ∧ w' = set_active_piece_y 3 falling_well
    ∧ placed w' (demo_piece PieceType.T).
Proof.
  destruct (moveDownNow_keeps_placed falling_well (demo_piece PieceType.T)
              placed_falling_well pending_on_board_falling_well)
    as (w' & Hrun & Hsettled & Hpend & Hcases).
  exists w'. split; [exact Hrun|]. split; [exact Hsettled|].
  split; [exact Hpend|exact Hcases].
Defined.

Lemma hardDrop_lands_on_ghost_row_witness :
  ∃ w' : Well,
    hardDrop falling_well = Some w'
    ∧ fits (set_active_piece_y 10 falling_well)
    ∧ drops_keep w' = drops_keep falling_well
    ∧ pending_on_board w'
    ∧ lockThenRequestNext (set_active_piece_y 10 falling_well) = Some w'
    ∧ active_piece w' = None.
Proof.
  destruct (hardDrop_lands_on_ghost_row falling_well (demo_piece PieceType.T)
              placed_falling_well pending_on_board_falling_well)
    as (w' & Hrun & Hfits & Hkeep & Hpend & Hcases).
  exists w'. split; [exact Hrun|]. split; [exact Hfits|]. split; [exact Hkeep|].
  split; [exact Hpend|exact Hcases].
Defined.

(** ** The preview of the piece supply *)

(** The reads [l.at(0)], ..., [l.at(n - 1)] of a list of at least [n]
    elements. *)
Lemma mapM_lookup_seq {A} (l : list A) (n : nat) :
  (n ≤ length l)%nat → mapM (λ i, l !! i) (seq 0 n) = Some (take n l).
Proof.
  intros Hn. apply mapM_Some.
  apply Forall2_same_length_lookup_2.
  - rewrite length_seq, length_take. lia.
  - intros i x y Hx Hy. apply lookup_seq in Hx as [-> _]. cbn.
    apply lookup_take_Some in Hy as [Hy _]. exact Hy.
Qed.

Section SupplyFacts.
Variable random_shuffle : nat → list PieceType.t → list PieceType.t.
Hypothesis random_shuffle_permutes : ∀ k l, random_shuffle k l ≡ₚ l.

Lemma generate_pieces_length (q : PieceQueue) :
  length (possible_pieces q) = 7%nat →
  length (piece_queue (generate_pieces random_shuffle q))
  = (length (piece_queue q) + 7)%nat
  ∧ length (possible_pieces (generate_pieces random_shuffle q)) = 7%nat.
Proof.
  intros Hp. cbn [generate_pieces piece_queue possible_pieces].
  rewrite length_app, random_shuffle_permutes, Hp. auto.
Qed.

Lemma PieceQueue_new_inv (d : nat) :
  (d ≤ 6)%nat → supply_inv d (PieceQueue_new random_shuffle d).
Proof.
  intros Hd. unfold supply_inv, PieceQueue_new.
  destruct (generate_pieces_length (mkPieceQueue d [] PieceType.allTypes 0))
    as [Hq Hp]; [reflexivity|].
  rewrite Hq, Hp. cbn. split; [reflexivity|]. split; [reflexivity|lia].
Qed.

(** [next] takes the front of the queue and keeps the invariant. *)
Lemma next_inv (d : nat) (q : PieceQueue) :
  (d ≤ 6)%nat → supply_inv d q →
  ∃ (t : PieceType.t) (q' : PieceQueue) (added : list PieceType.t),
    next random_shuffle q = Some (t, q')
    ∧ t :: piece_queue q' = piece_queue q ++ added
    ∧ supply_inv d q'.
Proof.
  intros Hd (Hcount & Hposs & Hlen). unfold next.
  destruct (piece_queue q) as [|t rest] eqn:Hq; [cbn in Hlen; lia|].
  cbn [length] in Hlen.
  set (q1 := mkPieceQueue (displayed_piece_count q) rest (possible_pieces q)
                          (shuffles q)).
  destruct (bool_decide (length (piece_queue q1) ≤ displayed_piece_count q1)%nat)
    eqn:Hfew.
  - apply bool_decide_eq_true in Hfew. cbn in Hfew.
    destruct (generate_pieces_length q1) as [Hq' Hp']; [exact Hposs|].
    exists t, (generate_pieces random_shuffle q1),
      (random_shuffle (shuffles q) (possible_pieces q)).
    split; [reflexivity|]. split; [reflexivity|].
    unfold supply_inv. rewrite Hq', Hp'. cbn. repeat split; lia.
  - apply bool_decide_eq_false in Hfew. cbn in Hfew.
    exists t, q1, []. split; [reflexivity|].
    split; [cbn; rewrite app_nil_r; reflexivity|].
    unfold supply_inv. cbn. repeat split; lia.
Qed.

Lemma draws_inv (d n : nat) : ∀ q : PieceQueue,
  (d ≤ 6)%nat → supply_inv d q →
  ∃ (l : list PieceType.t) (q' : PieceQueue) (added : list PieceType.t),
    draws random_shuffle n q = Some (l, q')
    ∧ length l = n
    ∧ l ++ piece_queue q' = piece_queue q ++ added
    ∧ supply_inv d q'.
Proof.
  induction n as [|n IH]; intros q Hd Hinv.
  - exists [], q, []. cbn. rewrite app_nil_r. auto.
  - destruct (next_inv d q Hd Hinv) as (t & q1 & added1 & Hnext & Hfront & Hinv1).
    destruct (IH q1 Hd Hinv1) as (l & q' & added & Hdraws & Hlen & Hrest & Hinv').
    exists (t :: l), q', (added1 ++ added).
    cbn [draws]. rewrite Hnext. cbn [mbind option_bind fst snd].
    rewrite Hdraws. cbn [mbind option_bind fst snd].
    split; [reflexivity|]. split; [cbn; lia|]. split; [|exact Hinv'].
    cbn [app]. rewrite Hrest, app_comm_cons, Hfront, <- app_assoc. reflexivity.
Qed.

(** X16: the preview.  With a preview of at most six pieces and a shuffle
    that permutes, after any number of draws from a new supply the queue is
    longer than the preview, by at most seven pieces, so that the
    [assert] of [next] holds; [draw] reads inside the queue, and the pieces
    that it draws are, in this order, the pieces that the next calls of
    [next] return. *)
Theorem preview_shows_next_pieces (d m : nat) :
  (d ≤ 6)%nat →
  ∃ (l0 : list PieceType.t) (q : PieceQueue),
    draws random_shuffle m (PieceQueue_new random_shuffle d) = Some (l0, q)
    ∧ queue_exceeds_preview q
    ∧ (length (piece_queue q) ≤ d + 7)%nat
    ∧ ∃ (l : list PieceType.t) (q' : PieceQueue),
        drawn_pieces q = Some l
        ∧ length l = d
        ∧ draws random_shuffle d q = Some (l, q').
Proof.
  intros Hd.
  destruct (draws_inv d m _ Hd (PieceQueue_new_inv d Hd))
    as (l0 & q & _ & Hdraws & _ & _ & Hinv).
  exists l0, q. split; [exact Hdraws|].
  pose proof Hinv as (Hcount & _ & Hlen).
  split; [unfold queue_exceeds_preview; lia|]. split; [lia|].
  destruct (draws_inv d d q Hd Hinv) as (l & q' & added & Hnext & Hl & Hfifo & _).
  exists l, q'. split; [|split; [exact Hl|exact Hnext]].
  unfold drawn_pieces. rewrite Hcount, mapM_lookup_seq by lia. f_equal.
  apply (f_equal (take d)) in Hfifo.
  rewrite take_app_length' in Hfifo by (symmetry; exact Hl).
  rewrite take_app_le in Hfifo by lia. symmetry. exact Hfifo.
Qed.

End SupplyFacts.

Lemma preview_shows_next_pieces_witness :
  ∃ (l0 : list PieceType.t) (q : PieceQueue),
    draws shuffle_reverse 9 (PieceQueue_new shuffle_reverse 5) = Some (l0, q)
    ∧ queue_exceeds_preview q
    ∧ (length (piece_queue q) ≤ 5 + 7)%nat
    ∧ ∃ (l : list PieceType.t) (q' : PieceQueue),
        drawn_pieces q = Some l
        ∧ length l = 5%nat
        ∧ draws shuffle_reverse 5 q = Some (l, q').
Proof.
  apply (preview_shows_next_pieces shuffle_reverse shuffle_reverse_permutes 5 9).
  lia.
Defined.

(** ** A frame of a game *)

Section MovesRest.
Context `{Collaborators}.

Lemma calculateGhostOffset_rest (w w' : Well) :
  calculateGhostOffset w = Some w' → moves_rest w' = moves_rest w.
Proof. intros ->%calculateGhostOffset_ghost. reflexivity. Qed.

Lemma stop_if_infinity_rest (w : Well) :
  moves_rest (stop_if_infinity w) = moves_rest w.
Proof. unfold stop_if_infinity. destruct (lock_infinity w); reflexivity. Qed.

Lemma kick_floor_rest (w w' : Well) (f : Z) :
  kick_floor w f = Some (Some w') → moves_rest w' = moves_rest w.
Proof.
  unfold kick_floor. cbn zeta. intros Hk.
  repeat match type of Hk with
         | context [hasCollisionAt ?a ?b ?c] =>
             destruct (hasCollisionAt a b c) as [[|]|];
             cbn [mbind option_bind negb fmap option_fmap option_map] in Hk
         | context [active_piece w] =>
             destruct (active_piece w);
             cbn [mbind option_bind negb fmap option_fmap option_map] in Hk
         | context [bool_decide ?P] => destruct (bool_decide P)
         | context [matrix w !! 0%nat] =>
             destruct (matrix w !! 0%nat);
             cbn [mbind option_bind negb fmap option_fmap option_map] in Hk
         | context [?a <? ?b] =>
             destruct (a <? b);
             cbn [mbind option_bind negb fmap option_fmap option_map] in Hk
         | context [?a <=? ?b] =>
             destruct (a <=? b);
             cbn [mbind option_bind negb fmap option_fmap option_map] in Hk
         end; try discriminate; injection Hk as <-; reflexivity.
Qed.

Lemma kick_loop_rest (fuel : nat) : ∀ (w w' : Well) (floor : Z) (b : bool),
  kick_loop fuel w floor = Some (b, w') → moves_rest w' = moves_rest w.
Proof.
  induction fuel as [|fuel IH]; intros w w' floor b; cbn [kick_loop];
    destruct (active_piece w) as [p|]; cbn [mbind option_bind]; try discriminate;
    destruct (floor <? _); try discriminate; try (intros [= <- <-]; reflexivity).
  destruct (kick_floor w floor) as [[w1|]|] eqn:Hfloor; cbn [mbind option_bind];
    try discriminate.
  - intros [= <- <-]. eapply kick_floor_rest. exact Hfloor.
  - apply IH.
Qed.

Lemma rotate_now_rest (d : Direction) (w w' : Well) :
  rotate_now d w = Some w' → moves_rest w' = moves_rest w.
Proof.
  destruct d; cbn [rotate_now]; unfold rotateCWNow, rotateCCWNow;
    (destruct (active_piece w) as [p|]; [|intros [= <-]; reflexivity]);
    cbn zeta;
    (destruct (hasCollisionAt _ _ _) as [[|]|]; cbn [mbind option_bind];
       try discriminate);
    try (destruct (placeByWallKick _) as [[[|] w2]|] eqn:Hkick;
         cbn [mbind option_bind]; try discriminate; apply kick_loop_rest in Hkick);
    try (destruct (calculateGhostOffset _) as [w3|] eqn:Hghost;
         cbn [mbind option_bind]; [|discriminate];
         intros [= <-]; rewrite stop_if_infinity_rest;
         rewrite (calculateGhostOffset_rest _ _ Hghost), ?Hkick; reflexivity);
    intros [= <-]; (transitivity (moves_rest w2); [reflexivity|]);
    rewrite Hkick; reflexivity.
Qed.

Lemma move_now_rest (left : bool) (w w' : Well) :
  (if left then moveLeftNow w else moveRightNow w) = Some w' →
  moves_rest w' = moves_rest w.
Proof.
  destruct left; unfold moveLeftNow, moveRightNow;
    (destruct (_ || _); [intros [= <-]; reflexivity|]);
    (destruct (hasCollisionAt _ _ _) as [[|]|]; cbn [mbind option_bind negb];
       try discriminate; [intros [= <-]; reflexivity|]);
    (destruct (calculateGhostOffset _) as [w3|] eqn:Hghost; cbn [mbind option_bind];
       [|discriminate]);
    intros [= <-]; rewrite stop_if_infinity_rest;
    rewrite (calculateGhostOffset_rest _ _ Hghost); reflexivity.
Qed.

Lemma move_now_keeps (left : bool) (w w' : Well) :
  (if left then moveLeftNow w else moveRightNow w) = Some w' →
  moves_keep w' = moves_keep w.
Proof. destruct left; [apply moveLeftNow_keeps|apply moveRightNow_keeps]. Qed.

Lemma rotate_now_keeps (d : Direction) (w w' : Well) :
  rotate_now d w = Some w' → moves_keep w' = moves_keep w.
Proof. destruct d; [apply rotateCWNow_keeps|apply rotateCCWNow_keeps]. Qed.

(** Being in a game is a matter of these fields. *)
Lemma in_game_ext (w w' : Well) :
  matrix w' = matrix w → active_piece w' = active_piece w →
  active_piece_x w' = active_piece_x w → active_piece_y w' = active_piece_y w →
  ghost_piece_y w' = ghost_piece_y w →
  pending_cleared_rows w' = pending_cleared_rows w →
  keystates w' = keystates w →
  harddrop_locks_instantly w' = harddrop_locks_instantly w →
  gravity_delay w' = gravity_delay w → gravity_timer w' = gravity_timer w →
  in_game w → in_game w'.
Proof.
  intros Hm Hp Hx Hy Hg Hpd Hk Hh Hd Ht
    (Hs & Hpend & Hnone & Hkeys & Hhard & Hdelay & Htimer & Hboard).
  unfold in_game, pending_on_board. rewrite Hm, Hp, Hpd, Hk, Hh, Hd, Ht.
  split; [|auto 10].
  destruct Hs as [Hs|[p Hs]]; [left; congruence|right; exists p].
  apply (placed_ext w); assumption.
Qed.

(** A move or a rotation changes, of what a game needs, the piece and its
    position alone. *)
Lemma moved_in_game (w w' : Well) (p' : Piece) :
  moves_keep w' = moves_keep w → moves_rest w' = moves_rest w →
  in_game w → is_Some (active_piece w) → placed w' p' →
  in_game w' ∧ gameover w' = gameover w.
Proof.
  intros Hkeep Hrest (Hs & Hpend & Hnone & Hkeys & Hhard & Hdelay & Htimer & Hboard)
    Hsome Hplaced.
  assert (Hm : matrix w' = matrix w) by (apply (f_equal (λ s, s.1.1.1.1.1.1.1.1)) in Hkeep; exact Hkeep).
  assert (Hk : keystates w' = keystates w) by (apply (f_equal (λ s, s.1.1.1.1.1.1.1.2)) in Hkeep; exact Hkeep).
  assert (Hd : gravity_delay w' = gravity_delay w) by (apply (f_equal (λ s, s.1.1.2)) in Hkeep; exact Hkeep).
  assert (Ht : gravity_timer w' = gravity_timer w) by (apply (f_equal (λ s, s.1.2)) in Hkeep; exact Hkeep).
  assert (Hh : harddrop_locks_instantly w' = harddrop_locks_instantly w)
    by (apply (f_equal (λ s, s.1.1.1.1.1.1.1)) in Hrest; exact Hrest).
  assert (Hpd : pending_cleared_rows w' = pending_cleared_rows w)
    by (apply (f_equal (λ s, s.1.1.2)) in Hrest; exact Hrest).
  assert (Hover : gameover w' = gameover w)
    by (apply (f_equal (λ s, s.1.2)) in Hrest; exact Hrest).
  split; [|exact Hover].
  unfold in_game, pending_on_board. rewrite Hm, Hpd, Hk, Hh, Hd, Ht.
  split; [right; eauto|]. split; [exact Hpend|]. split; [|auto].
  destruct Hnone as [Hnone|Hnone]; [left; exact Hnone|].
  rewrite Hnone in Hsome. destruct Hsome as [? [=]].
Qed.

Lemma in_game_piece (w : Well) :
  in_game w →
  active_piece w = None
  ∨ ∃ p : Piece, placed w p ∧ active_piece w = Some p.
Proof.
  intros ([Hnone|[p Hplaced]] & _); [left; exact Hnone|right].
  exists p. split; [exact Hplaced|]. destruct Hplaced as ((Hp & _) & _). exact Hp.
Qed.

Lemma top_floor_le_2 (p : Piece) : top_floor p ≤ 2.
Proof. unfold top_floor. destruct (is_I p); lia. Qed.

(** A piece in play, put on its ghost row, is in play. *)
Lemma on_ghost_placed (w : Well) (p : Piece) :
  placed w p → placed (set_active_piece_y (ghost_piece_y w) w) p.
Proof.
  intros ((Hp & Hrect & Hh & Hy) & Hfits & Hrange & Hfree & Hstop).
  split; [|split].
  - unfold playable. cbn. auto with lia.
  - unfold fits. cbn.
    destruct (decide (ghost_piece_y w = active_piece_y w)) as [->|Hne];
      [exact Hfits|].
    apply free_at_false. apply Hfree. lia.
  - unfold ghost_ok. cbn. split; [lia|]. split; [intros r Hr; lia|exact Hstop].
Qed.

Lemma move_now_in_game (left : bool) (w : Well) :
  in_game w →
  ∃ w' : Well,
    (if left then moveLeftNow w else moveRightNow w) = Some w'
    ∧ in_game w' ∧ gameover w' = gameover w
    ∧ (active_piece w = None → active_piece w' = None).
Proof.
  intros Hgame. destruct (in_game_piece w Hgame) as [Hnone|(p & Hplaced & Hp)].
  - exists w. split; [|auto].
    destruct left; unfold moveLeftNow, moveRightNow; rewrite Hnone;
      rewrite bool_decide_eq_true_2 by reflexivity; reflexivity.
  - destruct (horizontal_move_cases left w p Hplaced) as (w' & Hrun & Hcases).
    exists w'. split; [exact Hrun|].
    destruct (shift_in_range left w && _).
    + destruct Hcases as (Hplaced' & _).
      destruct (moved_in_game w w' p (move_now_keeps left w w' Hrun)
                  (move_now_rest left w w' Hrun) Hgame) as [Hg Hover];
        [rewrite Hp; eauto|exact Hplaced'|].
      split; [exact Hg|]. split; [exact Hover|]. congruence.
    + subst w'. auto.
Qed.

Lemma rotate_now_in_game (d : Direction) (w : Well) :
  in_game w →
  (∀ p : Piece, active_piece w = Some p → 2 ≤ active_piece_y w) →
  ∃ w' : Well,
    rotate_now d w = Some w'
    ∧ in_game w' ∧ gameover w' = gameover w
    ∧ (active_piece w = None → active_piece w' = None).
Proof.
  intros Hgame Hrow. destruct (in_game_piece w Hgame) as [Hnone|(p & Hplaced & Hp)].
  - exists w. split; [|auto].
    destruct d; cbn [rotate_now]; unfold rotateCWNow, rotateCCWNow; rewrite Hnone;
      reflexivity.
  - destruct (rotate_now_cases d w p Hplaced) as (w' & Hrun & Hcases).
    { pose proof (top_floor_le_2 (turn d p)). specialize (Hrow p Hp). lia. }
    exists w'. split; [exact Hrun|].
    destruct Hcases as [->|(Hplaced' & _)]; [auto|].
    destruct (moved_in_game w w' (turn d p) (rotate_now_keeps d w w' Hrun)
                (rotate_now_rest d w w' Hrun) Hgame) as [Hg Hover];
      [rewrite Hp; eauto|exact Hplaced'|].
    split; [exact Hg|]. split; [exact Hover|]. congruence.
Qed.

(** With the lock on a hard drop switched on [moveDownNow] locks nothing. *)
Lemma moveDownNow_in_game (w : Well) :
  in_game w →
  ∃ w' : Well,
    moveDownNow w = Some w'
    ∧ in_game w' ∧ gameover w' = gameover w
    ∧ active_piece w' = active_piece w
    ∧ drops_keep w' = drops_keep w.
Proof.
  intros Hgame. destruct (in_game_piece w Hgame) as [Hnone|(p & Hplaced & Hp)].
  - exists w. split; [|auto].
    unfold moveDownNow. rewrite Hnone.
    rewrite bool_decide_eq_true_2 by reflexivity. reflexivity.
  - pose proof Hgame as (_ & Hpend & _ & _ & Hhard & _).
    destruct (step_down_cases w p Hplaced Hpend) as (w' & Hrun & Hcases).
    exists w'. split; [exact Hrun|].
    rewrite Hhard in Hcases. cbn [negb] in Hcases.
    rewrite andb_false_r in Hcases. cbn [andb] in Hcases.
    destruct (_ && free_at _ _ _).
    + destruct Hcases as [Hw' Hplaced'].
      destruct (moved_in_game w w' p) as [Hg Hover];
        [rewrite Hw'; reflexivity|rewrite Hw'; reflexivity|exact Hgame
        |rewrite Hp; eauto|exact Hplaced'|].
      rewrite Hw' at 3 4. auto.
    + subst w'. auto.
Qed.

(** A lock leaves the states of the keys in place. *)
Lemma lockThenRequestNext_keys (w w' : Well) (p : Piece) :
  active_piece w = Some p → rectangular (matrix w) → pending_on_board w →
  lockThenRequestNext w = Some w' →
  keys_ready (keystates w) → keys_ready (keystates w').
Proof.
  intros Hp Hrect Hpend Hrun Hkeys.
  destruct (lock_cells_locked w p Hp Hrect) as (wl & Hlock & Hm & _ & Hframe).
  destruct (lock_frame_fields w wl Hframe) as (_ & _ & Hpl).
  assert (Hkl : keystates wl = keystates w) by (rewrite Hframe; reflexivity).
  assert (Hlen : length (matrix wl) = length (matrix w)).
  { rewrite Hm. apply locked_dims. }
  set (w3 := notify PIECE_LOCKED
               (set_lock_countdown (tr_stop (lock_countdown (set_active_piece None wl)))
                  (set_active_piece None wl))).
  assert (Hpend3 : pending_on_board w3).
  { intros r Hr. change (matrix w3) with (matrix wl). rewrite Hlen. apply Hpend.
    change (pending_cleared_rows w3) with (pending_cleared_rows wl) in Hr.
    rewrite Hpl in Hr. exact Hr. }
  destruct (checkLineclear_rows w3 Hpend3)
    as (w4 & Hclear & _ & _ & _ & _ & _ & Hk4).
  unfold lockThenRequestNext, lockAndReleasePiece in Hrun. rewrite Hlock in Hrun.
  cbn [mbind option_bind] in Hrun. fold w3 in Hrun. rewrite Hclear in Hrun.
  cbn [mbind option_bind] in Hrun.
  assert (Hkeys4 : keys_ready (keystates w4)).
  { change (keystates w3) with (keystates wl) in Hk4. rewrite Hkl in Hk4.
    destruct (bool_decide (pending_cleared_rows w4 = ∅)).
    - destruct Hk4 as (-> & _). exact Hkeys.
    - destruct Hk4 as (-> & _). intros k Hk. rewrite lookup_fmap.
      destruct (Hkeys k Hk) as [b ->]. eauto. }
  injection Hrun as <-. destruct (_ && _); exact Hkeys4.
Qed.

Lemma lockThenRequestNext_gameover (w w' : Well) (p : Piece) :
  active_piece w = Some p → rectangular (matrix w) → pending_on_board w →
  lockThenRequestNext w = Some w' → gameover w' = gameover w.
Proof.
  intros Hp Hrect Hpend Hrun.
  destruct (lockAndReleasePiece_total w p Hp Hrect Hpend)
    as (wl & w1 & _ & Hlock & _ & _ & Hg & _).
  unfold lockThenRequestNext in Hrun. rewrite Hlock in Hrun.
  cbn [mbind option_bind] in Hrun. injection Hrun as <-.
  destruct (_ && _); exact Hg.
Qed.

(** A board whose rows keep their lengths stays as the code takes it to
    be. *)
Lemma board_ok_rows (m m' : Matrix) :
  length m' = length m →
  (∀ (r : nat) (row : list Cell), m !! r = Some row →
     ∃ row' : list Cell, m' !! r = Some row' ∧ length row' = length row) →
  board_ok m → board_ok m'.
Proof.
  intros Hlen Hrows (Hrect & Hh3 & Hmax).
  assert (Hheight : height m' = height m) by (unfold height; rewrite Hlen; reflexivity).
  assert (Hwidth : width m' = width m).
  { destruct (lookup_lt_is_Some_2 m 0%nat) as [row0 Hrow0];
      [unfold height in Hh3; lia|].
    destruct (Hrows 0%nat row0 Hrow0) as (row0' & Hrow0' & Hl0).
    rewrite (width_lookup_0 m row0 Hrow0), (width_lookup_0 m' row0' Hrow0'), Hl0.
    reflexivity. }
  split; [|rewrite Hheight; auto].
  unfold rectangular in *. rewrite Forall_lookup in Hrect. apply Forall_lookup.
  intros r row' Hrow'.
  destruct (lookup_lt_is_Some_2 m r) as [row Hrow].
  { rewrite <- Hlen. apply lookup_lt_Some in Hrow'. exact Hrow'. }
  destruct (Hrows r row Hrow) as (row'' & Hrow'' & Hl).
  rewrite Hrow' in Hrow''. injection Hrow'' as <-.
  rewrite Hwidth, Hl. exact (Hrect r row Hrow).
Qed.

(** A lock leaves the board as the code takes it to be. *)
Lemma lockAndReleasePiece_board (w w' : Well) (p : Piece) :
  active_piece w = Some p → board_ok (matrix w) → pending_on_board w →
  lockAndReleasePiece w = Some w' → board_ok (matrix w').
Proof.
  intros Hp Hboard Hpend Hrun. pose proof Hboard as (Hrect & Hh3 & Hmax).
  destruct (lock_cells_locked w p Hp Hrect) as (wl & Hlock & Hm & Hrectl & Hframe).
  destruct (lock_frame_fields w wl Hframe) as (_ & _ & Hpl).
  destruct (locked_dims (currentGrid p) (active_piece_x w) (active_piece_y w)
              grid_positions (matrix w)) as [Hlen Hwid].
  rewrite <- Hm in Hlen.
  assert (Hboardl : board_ok (matrix wl)).
  { split; [exact Hrectl|]. unfold height. rewrite Hlen. auto. }
  set (w3 := notify PIECE_LOCKED
               (set_lock_countdown (tr_stop (lock_countdown (set_active_piece None wl)))
                  (set_active_piece None wl))).
  assert (Hpend3 : pending_on_board w3).
  { intros r Hr. change (matrix w3) with (matrix wl). rewrite Hlen. apply Hpend.
    change (pending_cleared_rows w3) with (pending_cleared_rows wl) in Hr.
    rewrite Hpl in Hr. exact Hr. }
  destruct (checkLineclear_rows w3 Hpend3) as (w4 & Hclear & _ & Hlen4 & Hrows4 & _).
  unfold lockAndReleasePiece in Hrun. rewrite Hlock in Hrun.
  cbn [mbind option_bind] in Hrun. fold w3 in Hrun. rewrite Hclear in Hrun.
  injection Hrun as <-.
  apply (board_ok_rows (matrix wl)); [exact Hlen4| |exact Hboardl].
  intros r row Hrow. change (matrix w3) with (matrix wl) in Hrows4.
  rewrite (Hrows4 r row Hrow). eexists. split; [reflexivity|].
  destruct (bool_decide _); [|reflexivity]. unfold emptied. apply length_replicate.
Qed.

Lemma lockThenRequestNext_board (w w' : Well) (p : Piece) :
  active_piece w = Some p → board_ok (matrix w) → pending_on_board w →
  lockThenRequestNext w = Some w' → board_ok (matrix w').
Proof.
  intros Hp Hboard Hpend Hrun. unfold lockThenRequestNext in Hrun.
  destruct (lockAndReleasePiece w) as [w1|] eqn:Hlock; [|discriminate].
  cbn [mbind option_bind] in Hrun. injection Hrun as <-.
  pose proof (lockAndReleasePiece_board w w1 p Hp Hboard Hpend Hlock) as Hboard1.
  destruct (_ && _); exact Hboard1.
Qed.

Lemma lock_in_game (w : Well) (p : Piece) :
  in_game w → active_piece w = Some p →
  ∃ w' : Well,
    lockThenRequestNext w = Some w'
    ∧ in_game w' ∧ gameover w' = gameover w ∧ active_piece w' = None
    ∧ drops_keep w' = drops_keep w.
Proof.
  intros Hgame Hp.
  pose proof Hgame as (_ & Hpend & _ & Hkeys & Hhard & Hdelay & Htimer & Hboard).
  destruct (in_game_piece w Hgame) as [Hnone|(p' & Hplaced & _)]; [congruence|].
  destruct Hplaced as ((_ & Hrect & _) & _).
  destruct (lockThenRequestNext_total w p Hp Hrect Hpend) as (w' & Hrun & Hnone).
  exists w'. split; [exact Hrun|].
  pose proof (lockThenRequestNext_keeps w w' Hrun) as Hkeep.
  pose proof (lockThenRequestNext_settings w w' Hrun) as Hset.
  assert (Hd : gravity_delay w' = gravity_delay w)
    by (apply (f_equal (λ s, s.1.1.2)) in Hkeep; exact Hkeep).
  assert (Ht : gravity_timer w' = gravity_timer w)
    by (apply (f_equal (λ s, s.1.2)) in Hkeep; exact Hkeep).
  assert (Hh : harddrop_locks_instantly w' = harddrop_locks_instantly w)
    by (apply (f_equal (λ s, s.1.1.1.1)) in Hset; exact Hset).
  split; [|split; [exact (lockThenRequestNext_gameover w w' p Hp Hrect Hpend Hrun)|auto]].
  unfold in_game. rewrite Hd, Ht, Hh.
  split; [left; exact Hnone|].
  split; [exact (lockThenRequestNext_pending w w' p Hp Hrect Hpend Hrun)|].
  split; [right; exact Hnone|].
  split; [exact (lockThenRequestNext_keys w w' p Hp Hrect Hpend Hrun Hkeys)|].
  split; [exact Hhard|]. split; [exact Hdelay|]. split; [exact Htimer|].
  exact (lockThenRequestNext_board w w' p Hp Hboard Hpend Hrun).
Qed.

Lemma hardDrop_in_game (w : Well) (p : Piece) :
  in_game w → active_piece w = Some p →
  ∃ w' : Well,
    hardDrop w = Some w'
    ∧ in_game w' ∧ gameover w' = gameover w ∧ active_piece w' = None.
Proof.
  intros Hgame Hp.
  pose proof Hgame as (_ & Hpend & _ & _ & Hhard & _).
  destruct (in_game_piece w Hgame) as [Hnone|(p' & Hplaced & Hp')]; [congruence|].
  destruct (hardDrop_cases w p' Hplaced Hpend) as (w' & Hrun & _ & Hcases).
  rewrite Hhard in Hcases. cbn [orb] in Hcases. destruct Hcases as [Hlock Hnone].
  set (w0 := set_active_piece_y (ghost_piece_y w) w) in *.
  assert (Hgame0 : in_game w0).
  { apply (moved_in_game w w0 p'); [reflexivity|reflexivity|exact Hgame
      |rewrite Hp; eauto|apply on_ghost_placed; exact Hplaced]. }
  destruct (lock_in_game w0 p Hgame0 Hp) as (w'' & Hlock' & Hg & Hover & _).
  rewrite Hlock in Hlock'. injection Hlock' as <-.
  exists w'. auto.
Qed.

End MovesRest.

Section FrameSafety.
Context `{Collaborators}.

(** One event of the frame. *)
Lemma handle_event_in_game (e : InputEvent) (w : Well) :
  in_game w →
  (is_harddrop e = true → is_Some (active_piece w)) →
  ∃ w' : Well,
    handle_event e w = Some w'
    ∧ in_game w' ∧ gameover w' = gameover w
    ∧ (if is_harddrop e then active_piece w' = None
       else active_piece w' = active_piece w
            ∧ active_piece_y w' = active_piece_y w).
Proof.
  intros Hgame Hpiece. unfold handle_event, is_harddrop in *.
  assert (Hdrop : ev_down e = true →
            ev_type e = InputType.UP ∨ ev_type e = InputType.GAME_HARDDROP →
            ∃ w', (w1 ← hardDrop w; Some (set_skip_gravity true w1)) = Some w'
                  ∧ in_game w' ∧ gameover w' = gameover w ∧ active_piece w' = None).
  { intros Hdown Htype.
    destruct Hpiece as [p Hp].
    { rewrite Hdown. destruct Htype as [-> | ->]; reflexivity. }
    destruct (hardDrop_in_game w p Hgame Hp) as (w1 & Hrun & Hg & Hover & Hnone).
    rewrite Hrun. cbn [mbind option_bind]. eexists. split; [reflexivity|].
    split; [|auto]. apply (in_game_ext w1); try reflexivity. exact Hg. }
  destruct (ev_down e) eqn:Hdown; cbn [andb].
  - destruct (ev_type e) eqn:Htype;
      try (exists w; split; [reflexivity|auto]; fail);
      try (apply Hdrop; auto; fail).
    eexists. split; [reflexivity|]. split; [|auto].
    apply (in_game_ext w); try reflexivity. exact Hgame.
  - destruct (ev_type e) eqn:Htype;
      try (exists w; split; [reflexivity|auto]; fail);
      (eexists; split; [reflexivity|]; split; [|auto];
       apply (in_game_ext w); try reflexivity; exact Hgame).
Qed.

(** The loop of [handleKeys] over the events. *)
Lemma handle_events_in_game (events : list InputEvent) : ∀ w : Well,
  in_game w → frame_safe events w →
  ∃ w' : Well,
    for_each handle_event events w = Some w'
    ∧ in_game w' ∧ gameover w' = gameover w
    ∧ (∀ p : Piece, active_piece w' = Some p → 2 ≤ active_piece_y w').
Proof.
  unfold frame_safe, hard_drops.
  induction events as [|e events IH]; intros w Hgame [Hdrops Hrow];
    cbn [for_each List.filter] in *.
  - exists w. auto.
  - destruct (handle_event_in_game e w Hgame) as (w1 & Hrun & Hg1 & Hover1 & Hpiece1).
    { intros He. rewrite He in Hdrops. cbn [length] in Hdrops.
      destruct (active_piece w); [eauto|lia]. }
    rewrite Hrun. cbn [mbind option_bind].
    destruct (IH w1 Hg1) as (w' & Hloop & Hg' & Hover' & Hrow').
    { destruct (is_harddrop e).
      - rewrite Hpiece1. cbn [length] in Hdrops.
        split; [destruct (active_piece w); lia|discriminate].
      - destruct Hpiece1 as [Hp1 Hy1]. rewrite Hp1, Hy1. auto. }
    exists w'. split; [exact Hloop|]. split; [exact Hg'|].
    split; [congruence|exact Hrow'].
Qed.

Lemma keys_ready_lookup (ks : gmap InputType.t bool) (k : InputType.t) :
  keys_ready ks →
  k ∈ [InputType.LEFT; InputType.RIGHT; InputType.DOWN; InputType.A; InputType.B] →
  ∃ b : bool, ks !! k = Some b.
Proof. intros Hkeys Hk. exact (Hkeys k Hk). Qed.

Lemma rotation_phase_in_game (w : Well) :
  in_game w →
  (∀ p : Piece, active_piece w = Some p → 2 ≤ active_piece_y w) →
  ∃ w' : Well,
    rotation_phase w = Some w' ∧ in_game w' ∧ gameover w' = gameover w.
Proof.
  intros Hgame Hrow. pose proof Hgame as (_ & _ & _ & Hkeys & _).
  destruct (keys_ready_lookup _ InputType.A Hkeys) as [a Ha];
    [repeat constructor|].
  destruct (keys_ready_lookup _ InputType.B Hkeys) as [b Hb];
    [repeat constructor|].
  unfold rotation_phase. cbn zeta.
  set (w1 := set_rotation_timer (rotation_timer w - frame) w).
  change (keystates w1) with (keystates w). rewrite Ha, Hb.
  cbn [mbind option_bind].
  assert (Hgame1 : in_game w1) by (apply (in_game_ext w); try reflexivity; exact Hgame).
  destruct (negb (eqb a b) && (rotation_timer w1 <=? 0)); [|exists w1; auto].
  destruct (rotate_now_in_game (if a then CCW else CW) w1 Hgame1 Hrow)
    as (w2 & Hrun & Hg2 & Hover2 & _).
  assert (Hrun' : (if a then rotateCCWNow w1 else rotateCWNow w1) = Some w2)
    by (destruct a; exact Hrun).
  rewrite Hrun'. cbn [mbind option_bind]. eexists. split; [reflexivity|].
  split; [|exact Hover2]. apply (in_game_ext w2); try reflexivity. exact Hg2.
Qed.

Lemma horizontal_phase_in_game (w : Well) :
  in_game w →
  ∃ w' : Well,
    horizontal_phase w = Some w' ∧ in_game w' ∧ gameover w' = gameover w.
Proof.
  intros Hgame. pose proof Hgame as (_ & _ & _ & Hkeys & _).
  destruct (keys_ready_lookup _ InputType.LEFT Hkeys) as [l Hl];
    [repeat constructor|].
  destruct (keys_ready_lookup _ InputType.RIGHT Hkeys) as [r Hr];
    [repeat constructor|].
  unfold horizontal_phase. cbn zeta.
  set (w1 := set_horizontal_timer (horizontal_timer w - frame) w).
  assert (Hgame1 : in_game w1) by (apply (in_game_ext w); try reflexivity; exact Hgame).
  destruct (horizontal_timer w1 <=? 0); [|exists w1; auto].
  change (keystates w1) with (keystates w). rewrite Hl, Hr.
  cbn [mbind option_bind].
  destruct (negb (eqb l r)); [|exists w1; auto].
  destruct (move_now_in_game l w1 Hgame1) as (w2 & Hrun & Hg2 & Hover2 & _).
  assert (Hrun' : (if l then moveLeftNow w1 else moveRightNow w1) = Some w2)
    by exact Hrun.
  rewrite Hrun'. cbn [mbind option_bind]. eexists. split; [reflexivity|].
  split; [|destruct (_ <? 0); exact Hover2].
  apply (in_game_ext w2); try (destruct (_ <? 0); reflexivity). exact Hg2.
Qed.

Lemma softdrop_phase_in_game (w : Well) :
  in_game w →
  ∃ w' : Well,
    softdrop_phase w = Some w' ∧ in_game w' ∧ gameover w' = gameover w.
Proof.
  intros Hgame. pose proof Hgame as (_ & _ & _ & Hkeys & _).
  destruct (keys_ready_lookup _ InputType.DOWN Hkeys) as [d Hd];
    [repeat constructor|].
  unfold softdrop_phase. cbn zeta.
  set (w1 := set_softdrop_timer (softdrop_timer w - frame) w).
  assert (Hgame1 : in_game w1) by (apply (in_game_ext w); try reflexivity; exact Hgame).
  change (keystates w1) with (keystates w). rewrite Hd.
  cbn [mbind option_bind].
  destruct (d && (softdrop_timer w1 <=? 0)); [|exists w1; auto].
  destruct (moveDownNow_in_game w1 Hgame1) as (w2 & Hrun & Hg2 & Hover2 & _).
  rewrite Hrun. cbn [mbind option_bind]. eexists. split; [reflexivity|].
  split; [|exact Hover2]. apply (in_game_ext w2); try reflexivity. exact Hg2.
Qed.

Lemma handleKeys_in_game (events : list InputEvent) (w : Well) :
  in_game w → keys_ready (previous_keystates w) → frame_safe events w →
  ∃ w' : Well,
    handleKeys events w = Some w' ∧ in_game w' ∧ gameover w' = gameover w.
Proof.
  intros Hgame Hprev Hsafe. pose proof Hgame as (_ & _ & _ & Hkeys & _).
  destruct (keys_ready_lookup _ InputType.DOWN Hkeys) as [d Hd];
    [repeat constructor|].
  destruct (keys_ready_lookup _ InputType.DOWN Hprev) as [pd Hpd];
    [repeat constructor|].
  unfold handleKeys.
  assert (Hinit : ∃ b, init_skip_gravity w = Some (set_skip_gravity b w)).
  { unfold init_skip_gravity. rewrite Hd. cbn [mbind option_bind].
    destruct d; [rewrite Hpd|]; cbn [mbind option_bind]; eauto. }
  destruct Hinit as [b ->]. cbn [mbind option_bind].
  set (w1 := set_skip_gravity b w).
  assert (Hgame1 : in_game w1) by (apply (in_game_ext w); try reflexivity; exact Hgame).
  destruct (handle_events_in_game events w1 Hgame1 Hsafe)
    as (w2 & Hrun2 & Hg2 & Hover2 & Hrow2).
  rewrite Hrun2. cbn [mbind option_bind].
  destruct (rotation_phase_in_game w2 Hg2 Hrow2) as (w3 & Hrun3 & Hg3 & Hover3).
  rewrite Hrun3. cbn [mbind option_bind].
  destruct (horizontal_phase_in_game w3 Hg3) as (w4 & Hrun4 & Hg4 & Hover4).
  rewrite Hrun4. cbn [mbind option_bind].
  destruct (softdrop_phase_in_game w4 Hg4) as (w5 & Hrun5 & Hg5 & Hover5).
  exists w5. split; [exact Hrun5|]. split; [exact Hg5|].
  rewrite Hover5, Hover4, Hover3, Hover2. reflexivity.
Qed.

End FrameSafety.

Section FrameEnd.
Context `{Collaborators}.

Lemma rows_where_partition {A} (f : nat → bool) (l : list A) : ∀ i0 : nat,
  rows_where f i0 l ++ rows_where (λ i, negb (f i)) i0 l ≡ₚ l.
Proof.
  induction l as [|r l IH]; intros i0; cbn [rows_where]; [reflexivity|].
  destruct (f i0); cbn [negb app].
  - rewrite IH. reflexivity.
  - rewrite <- Permutation_middle, IH. reflexivity.
Qed.

(** The board that [removeEmptyRows] leaves is as the code takes it to
    be. *)
Lemma compacted_board_ok (m top : Matrix) (P : gset nat) :
  top ≡ₚ cleared_rows P m → board_ok m →
  board_ok (top ++ surviving_rows P m).
Proof.
  intros Htop (Hrect & Hh3 & Hmax).
  assert (Hperm : top ++ surviving_rows P m ≡ₚ m).
  { rewrite Htop. unfold cleared_rows, surviving_rows. apply rows_where_partition. }
  assert (Hlen : length (top ++ surviving_rows P m) = length m)
    by (rewrite Hperm; reflexivity).
  assert (Hall : Forall (λ r : list Cell, Z.of_nat (length r) = width m)
                        (top ++ surviving_rows P m))
    by (rewrite Hperm; exact Hrect).
  assert (Hwidth : width (top ++ surviving_rows P m) = width m).
  { destruct (top ++ surviving_rows P m) as [|r0 rest] eqn:Hm'.
    - cbn in Hlen. unfold height in Hh3. lia.
    - apply Forall_cons in Hall as [Hr0 _]. exact Hr0. }
  split; [|unfold height in *; rewrite Hlen; auto].
  unfold rectangular. rewrite Hwidth. exact Hall.
Qed.

Lemma in_game_timer (w : Well) (t : Duration) :
  in_game w → 0 ≤ t → in_game (set_gravity_timer t w).
Proof.
  intros (Hs & Hpend & Hnone & Hkeys & Hhard & Hdelay & _ & Hboard) Ht.
  unfold in_game. cbn [gravity_timer gravity_delay set_gravity_timer].
  split; [|auto 10].
  destruct Hs as [Hs|[p Hs]]; [left; exact Hs|right; exists p].
  apply (placed_ext w); try reflexivity. exact Hs.
Qed.

(** The loop of [updateGravity] in a game. *)
Lemma gravity_loop_in_game (fuel : nat) : ∀ w : Well,
  in_game w →
  (Z.to_nat (gravity_timer w / gravity_delay w) ≤ fuel)%nat →
  ∃ w' : Well,
    gravity_loop fuel w = Some w'
    ∧ in_game w' ∧ gameover w' = gameover w
    ∧ active_piece w' = active_piece w.
Proof.
  induction fuel as [|fuel IH]; intros w Hgame Hfuel;
    pose proof Hgame as (_ & _ & _ & _ & _ & Hdelay & Htimer & _);
    cbn [gravity_loop];
    destruct (gravity_delay w <=? gravity_timer w) eqn:Hdue;
    try (exists w; auto; fail); apply Z.leb_le in Hdue.
  - assert (1 ≤ gravity_timer w / gravity_delay w)
      by (apply Z.div_le_lower_bound; lia). lia.
  - set (w1 := set_gravity_timer (gravity_timer w - gravity_delay w) w).
    assert (Hgame1 : in_game w1) by (apply in_game_timer; [exact Hgame|lia]).
    assert (Hdiv : gravity_timer w / gravity_delay w
                   = (gravity_timer w - gravity_delay w) / gravity_delay w + 1).
    { replace (gravity_timer w) with
        ((gravity_timer w - gravity_delay w) + 1 * gravity_delay w) at 1 by lia.
      apply Z.div_add. lia. }
    assert (Hpos : 0 ≤ (gravity_timer w - gravity_delay w) / gravity_delay w)
      by (apply Z.div_pos; lia).
    assert (Hstep : ∃ w2,
              (if negb (skip_gravity w1) then applyGravity w1 else Some w1) = Some w2
              ∧ in_game w2 ∧ gameover w2 = gameover w
              ∧ active_piece w2 = active_piece w
              ∧ gravity_timer w2 = gravity_timer w - gravity_delay w
              ∧ gravity_delay w2 = gravity_delay w).
    { destruct (negb (skip_gravity w1)); [|exists w1; auto 10].
      unfold applyGravity.
      set (w0 := set_gravity_steps (S (gravity_steps w1)) w1).
      assert (Hgame0 : in_game w0)
        by (apply (in_game_ext w1); try reflexivity; exact Hgame1).
      destruct (moveDownNow_in_game w0 Hgame0) as (w2 & Hrun & Hg2 & Hover2 & Hp2 & Hkeep).
      exists w2. split; [exact Hrun|]. split; [exact Hg2|].
      split; [exact Hover2|]. split; [exact Hp2|].
      split.
      - apply (f_equal (λ s, s.1.2)) in Hkeep. exact Hkeep.
      - apply (f_equal (λ s, s.1.1.2)) in Hkeep. exact Hkeep. }
    destruct Hstep as (w2 & Hrun & Hg2 & Hover2 & Hp2 & Ht2 & Hd2).
    rewrite Hrun. cbn [mbind option_bind].
    destruct (IH w2 Hg2) as (w' & Hloop & Hg' & Hover' & Hp').
    { rewrite Ht2, Hd2. lia. }
    exists w'. split; [exact Hloop|]. split; [exact Hg'|].
    split; congruence.
Qed.

Lemma updateGravity_in_game (w : Well) :
  0 ≤ frame → in_game w →
  ∃ w' : Well,
    updateGravity w = Some w'
    ∧ in_game w' ∧ gameover w' = gameover w
    ∧ active_piece w' = active_piece w.
Proof.
  intros Hframe Hgame. pose proof Hgame as (_ & _ & _ & _ & _ & _ & Htimer & _).
  unfold updateGravity. cbn zeta.
  set (w1 := set_gravity_timer (gravity_timer w + frame) w).
  apply (gravity_loop_in_game _ w1); [|lia].
  apply in_game_timer; [exact Hgame|lia].
Qed.

Lemma updateLockDelay_in_game (w : Well) (p : Piece) :
  in_game w → active_piece w = Some p →
  ∃ w' : Well,
    updateLockDelay w = Some w' ∧ in_game w' ∧ gameover w' = gameover w.
Proof.
  intros Hgame Hp.
  destruct (in_game_piece w Hgame) as [Hnone|(p' & Hplaced & _)]; [congruence|].
  destruct Hplaced as ((_ & Hrect & Hh & Hy) & _).
  unfold updateLockDelay, isOnGround.
  rewrite (hasCollisionAt_total w p _ _ Hp Hrect);
    [|rewrite wrapu_small by (unfold UINT_MAX in *; lia); lia
     |rewrite wrapu_small by (unfold UINT_MAX in *; lia); lia].
  cbn [mbind option_bind].
  set (c := if negb (free_at w (active_piece_x w) (wrapu (active_piece_y w + 1)))
            then tr_unpause (lock_countdown w) else tr_stop (lock_countdown w)).
  set (w1 := set_lock_countdown (tr_update frame c).1 w).
  assert (Hgame1 : in_game w1) by (apply (in_game_ext w); try reflexivity; exact Hgame).
  destruct ((tr_update frame c).2); [|exists w1; auto].
  destruct (lock_in_game w1 p Hgame1 Hp) as (w' & Hrun & Hg & Hover & _).
  exists w'. auto.
Qed.

Lemma updateKeystate_in_game (events : list InputEvent) (w : Well) :
  in_game w →
  in_game (updateKeystate events w)
  ∧ keys_ready (previous_keystates (updateKeystate events w))
  ∧ active_piece (updateKeystate events w) = active_piece w
  ∧ active_piece_y (updateKeystate events w) = active_piece_y w
  ∧ gameover (updateKeystate events w) = gameover w.
Proof.
  intros Hgame. pose proof Hgame as (Hs & Hpend & Hnone & Hkeys & Hrest).
  unfold updateKeystate.
  set (w0 := set_previous_keystates (keystates w) w).
  assert (Hfold : ∀ k, let w' := foldl (λ w' e, set_keystates
                                 (<[ev_type e := ev_down e]> (keystates w')) w')
                                w0 events in
            (keystates w' !! k
             = match last_event_of k events with
               | Some e => Some (ev_down e)
               | None => keystates w0 !! k
               end)
            ∧ w' = set_keystates (keystates w') w0)
    by (intros k; apply updateKeystate_fold).
  cbn zeta in Hfold.
  set (w' := foldl _ w0 events) in *.
  destruct (Hfold InputType.LEFT) as [_ Hframe].
  assert (Hkeys' : keys_ready (keystates w')).
  { intros k Hk. destruct (Hfold k) as [-> _].
    destruct (last_event_of k events); [eauto|]. apply Hkeys. exact Hk. }
  rewrite Hframe. cbn [previous_keystates active_piece active_piece_y gameover
                       set_keystates set_previous_keystates w0].
  split; [|auto].
  unfold in_game, pending_on_board.
  cbn [keystates matrix pending_cleared_rows active_piece harddrop_locks_instantly
       gravity_delay gravity_timer set_keystates set_previous_keystates w0].
  split; [|auto 10].
  destruct Hs as [Hs|[p Hs]]; [left; exact Hs|right; exists p].
  apply (placed_ext w); try reflexivity. exact Hs.
Qed.

(** X17: a frame of a game.  Between two frames of a game no piece is
    active or a piece is in play, the pending rows are rows of the board and
    no piece is active while rows are pending, the keys of [handleKeys] have
    a state, a hard drop locks, the gravity delay is above zero and the
    gravity timer is not negative.  From such a playfield, with a frame
    duration that is not negative, and with events among which a hard drop
    is pressed only with an active piece, and once, and an active piece not
    above row 2, [update] returns, the playfield is such a playfield again,
    and [gameover] is as it was. *)
Theorem update_keeps_in_game (events : list InputEvent) (w : Well) :
  0 ≤ frame → in_game w → frame_safe events w →
  ∃ w' : Well,
    update events w = Some w' ∧ in_game w' ∧ gameover w' = gameover w.
Proof.
  intros Hframe Hgame Hsafe. unfold update. cbn zeta.
  set (w1 := updateAnimations w).
  assert (Hgame1 : in_game w1) by (apply (in_game_ext w); try reflexivity; exact Hgame).
  change (gameover w1) with (gameover w).
  destruct (gameover w) eqn:Hover; [exists w1; auto|].
  change (pending_cleared_rows w1) with (pending_cleared_rows w).
  destruct (bool_decide (size (pending_cleared_rows w) = 0%nat)) eqn:Hsize;
    cbn [negb].
  - apply bool_decide_eq_true in Hsize.
    destruct (updateKeystate_in_game events w1 Hgame1)
      as (Hgame2 & Hprev2 & Hp2 & Hy2 & Hover2).
    destruct (handleKeys_in_game events (updateKeystate events w1) Hgame2 Hprev2)
      as (w3 & Hrun3 & Hg3 & Hover3).
    { unfold frame_safe. rewrite Hp2, Hy2. exact Hsafe. }
    rewrite Hrun3. cbn [mbind option_bind].
    destruct (active_piece w3) as [p|] eqn:Hp3.
    + rewrite bool_decide_eq_false_2 by discriminate.
      destruct (updateGravity_in_game w3 Hframe Hg3) as (w4 & Hrun4 & Hg4 & Hover4 & Hp4).
      rewrite Hrun4. cbn [mbind option_bind].
      destruct (updateLockDelay_in_game w4 p Hg4) as (w5 & Hrun5 & Hg5 & Hover5);
        [congruence|].
      exists w5. split; [exact Hrun5|]. split; [exact Hg5|].
      rewrite Hover5, Hover4, Hover3, Hover2. exact Hover.
    + rewrite bool_decide_eq_true_2 by reflexivity.
      exists w3. split; [reflexivity|]. split; [exact Hg3|].
      rewrite Hover3, Hover2. exact Hover.
  - apply bool_decide_eq_false in Hsize.
    destruct (bool_decide (length (blocking_anims w1) = 0%nat)); [|exists w1; auto].
    pose proof Hgame1 as (Hs & Hpend & Hnone & Hkeys & Hhard & Hdelay & Htimer & Hboard).
    assert (Hnopiece : active_piece w = None).
    { destruct Hnone as [Hempty|Hnone]; [|exact Hnone].
      exfalso. apply Hsize. change (pending_cleared_rows w1) with (pending_cleared_rows w) in Hempty.
      rewrite Hempty. apply size_empty. }
    unfold removeEmptyRows.
    destruct (compact_loop_board (matrix w1) (pending_cleared_rows w1) Hpend)
      as (top & P' & Hcompact & Hperm).
    cbn [notify set_notified matrix pending_cleared_rows].
    change (matrix w1) with (matrix w) in *.
    change (pending_cleared_rows w1) with (pending_cleared_rows w) in *.
    rewrite Hcompact. cbn [mbind option_bind fst].
    eexists. split; [reflexivity|]. split; [|exact Hover].
    unfold in_game, pending_on_board.
    cbn [active_piece pending_cleared_rows keystates harddrop_locks_instantly
         gravity_delay gravity_timer notify set_notified set_lock_countdown
         set_pending_cleared_rows set_matrix settled matrix].
    split; [left; exact Hnopiece|].
    split; [intros r Hr; apply elem_of_empty in Hr; destruct Hr|].
    split; [left; reflexivity|].
    split; [exact Hkeys|]. split; [exact Hhard|]. split; [exact Hdelay|].
    split; [exact Htimer|].
    apply compacted_board_ok; [exact Hperm|exact Hboard].
Qed.

End FrameEnd.

Section SpawnInGame.
Context `{Collaborators}.

(** The lock of a piece, in play or not, of a playfield that is otherwise
    as in a game. *)
Lemma lock_gives_in_game (w : Well) (p : Piece) :
  active_piece w = Some p → board_ok (matrix w) → pending_on_board w →
  keys_ready (keystates w) → harddrop_locks_instantly w = true →
  0 < gravity_delay w → 0 ≤ gravity_timer w →
  ∃ w' : Well,
    lockAndReleasePiece w = Some w'
    ∧ in_game w' ∧ gameover w' = gameover w ∧ active_piece w' = None.
Proof.
  intros Hp Hboard Hpend Hkeys Hhard Hdelay Htimer.
  pose proof Hboard as (Hrect & _).
  destruct (lockAndReleasePiece_total w p Hp Hrect Hpend)
    as (wl & w1 & _ & Hlock & _ & _ & Hover & Hnone & _).
  exists w1. split; [exact Hlock|]. split; [|auto].
  set (w' := if negb (gameover w1) && bool_decide (length (blocking_anims w1) = 0%nat)
             then notify NEXT_REQUESTED w1 else w1).
  assert (Hrun : lockThenRequestNext w = Some w')
    by (unfold lockThenRequestNext; rewrite Hlock; reflexivity).
  pose proof (lockThenRequestNext_keeps w w' Hrun) as Hkeep.
  pose proof (lockThenRequestNext_settings w w' Hrun) as Hset.
  pose proof (lockThenRequestNext_pending w w' p Hp Hrect Hpend Hrun) as Hpend'.
  pose proof (lockThenRequestNext_keys w w' p Hp Hrect Hpend Hrun Hkeys) as Hkeys'.
  pose proof (lockAndReleasePiece_board w w1 p Hp Hboard Hpend Hlock) as Hboard1.
  assert (Hd : gravity_delay w' = gravity_delay w)
    by (apply (f_equal (λ s, s.1.1.2)) in Hkeep; exact Hkeep).
  assert (Ht : gravity_timer w' = gravity_timer w)
    by (apply (f_equal (λ s, s.1.2)) in Hkeep; exact Hkeep).
  assert (Hh : harddrop_locks_instantly w' = harddrop_locks_instantly w)
    by (apply (f_equal (λ s, s.1.1.1.1)) in Hset; exact Hset).
  assert (Hsame : matrix w' = matrix w1 ∧ pending_cleared_rows w' = pending_cleared_rows w1
                  ∧ keystates w' = keystates w1
                  ∧ harddrop_locks_instantly w' = harddrop_locks_instantly w1
                  ∧ gravity_delay w' = gravity_delay w1
                  ∧ gravity_timer w' = gravity_timer w1)
    by (unfold w'; destruct (_ && _); repeat split).
  destruct Hsame as (Hm1 & Hp1 & Hk1 & Hh1 & Hd1 & Ht1).
  unfold in_game, pending_on_board in *.
  rewrite <- Hm1, <- Hp1, <- Hk1, <- Hh1, <- Hd1, <- Ht1, Hd, Ht, Hh.
  split; [left; exact Hnone|]. split; [exact Hpend'|].
  split; [right; exact Hnone|]. rewrite Hm1. auto 10.
Qed.

Lemma not_free_collides (w : Well) (p : Piece) (x y : Z) :
  active_piece w = Some p → rectangular (matrix w) →
  0 ≤ y → y + 3 < UINT_MAX →
  free_at w x y = false → collides_at w x y = true.
Proof.
  intros Hp Hrect Hy Hmax Hfree. unfold collides_at.
  rewrite (hasCollisionAt_total w p x y Hp Hrect Hy Hmax), Hfree. reflexivity.
Qed.

(** The loop of [addPiece] when the piece collides on each row probed. *)
Lemma spawn_loop_blocked (type : PieceType.t) (w : Well) :
  spawn_blocked type w = true →
  spawn_loop 3 (spawned type w 3) = Some (false, spawned type w 0).
Proof.
  unfold spawn_blocked, spawn_rows. cbn [forallb]. intros Hblocked.
  apply andb_true_iff in Hblocked as [H2%collides_at_true Hblocked].
  apply andb_true_iff in Hblocked as [H1%collides_at_true Hblocked].
  apply andb_true_iff in Hblocked as [H0%collides_at_true _].
  rewrite spawn_loop_S.
  change (active_piece_y (spawned type w 3)) with 3.
  change (active_piece_x (spawned type w 3)) with 3.
  change (wrapu (3 - 1)) with 2. change (0 <? 3) with true. cbv iota.
  change (set_active_piece_y 2 (spawned type w 3)) with (spawned type w 2).
  rewrite H2. cbn [mbind option_bind negb].
  rewrite spawn_loop_S.
  change (active_piece_y (spawned type w 2)) with 2.
  change (active_piece_x (spawned type w 2)) with 3.
  change (wrapu (2 - 1)) with 1. change (0 <? 2) with true. cbv iota.
  change (set_active_piece_y 1 (spawned type w 2)) with (spawned type w 1).
  rewrite H1. cbn [mbind option_bind negb].
  rewrite spawn_loop_S.
  change (active_piece_y (spawned type w 1)) with 1.
  change (active_piece_x (spawned type w 1)) with 3.
  change (wrapu (1 - 1)) with 0. change (0 <? 1) with true. cbv iota.
  change (set_active_piece_y 0 (spawned type w 1)) with (spawned type w 0).
  rewrite H0. cbn [mbind option_bind negb]. reflexivity.
Qed.

(** X18: a new piece in a game.  From a playfield as between two frames of
    a game, with no piece active and no row pending, [addPiece] returns a
    playfield as between two frames of a game.  When the new piece collides
    on each of the rows probed, the game is over and no piece is active;
    otherwise [gameover] is as it was and the new piece is in play. *)
Theorem addPiece_keeps_in_game (type : PieceType.t) (w : Well) :
  in_game w → active_piece w = None → pending_cleared_rows w = ∅ →
  ∃ w' : Well,
    addPiece type w = Some w'
    ∧ in_game w'
    ∧ if spawn_blocked type w
      then gameover w' = true ∧ active_piece w' = None
      else gameover w' = gameover w ∧ placed w' (make_uptr type).
Proof.
  intros Hgame Hnone Hempty.
  pose proof Hgame as (_ & Hpend & _ & Hkeys & Hhard & Hdelay & Htimer & Hboard).
  pose proof Hboard as (Hrect & Hh3 & Hmax).
  unfold addPiece.
  change (set_active_piece_y 3
            (set_active_piece_x 3 (set_active_piece (Some (make_uptr type)) w)))
    with (spawned type w 3).
  destruct (spawn_blocked type w) eqn:Hblocked.
  - rewrite (spawn_loop_blocked type w Hblocked). cbn [mbind option_bind].
    destruct (lock_gives_in_game (spawned type w 0) (make_uptr type))
      as (w3 & Hlock & Hg3 & _ & Hnone3); try assumption; [reflexivity|].
    rewrite Hlock. cbn [mbind option_bind]. eexists. split; [reflexivity|].
    split; [|auto]. apply (in_game_ext w3); try reflexivity. exact Hg3.
  - assert (Hfound : ∃ y0, 0 ≤ y0 ≤ 2
              ∧ free_at (spawned type w y0) 3 y0 = true
              ∧ ∀ y, y0 < y ≤ 2 → collides_at (spawned type w y) 3 y = true).
    { assert (Hnot : ∀ y, 0 ≤ y ≤ 2 → free_at (spawned type w y) 3 y = false →
                collides_at (spawned type w y) 3 y = true).
      { intros y Hy. apply (not_free_collides _ (make_uptr type));
          [reflexivity|exact Hrect|lia|unfold UINT_MAX in *; lia]. }
      destruct (free_at (spawned type w 2) 3 2) eqn:H2.
      { exists 2. split; [lia|]. split; [exact H2|]. intros y Hy. lia. }
      destruct (free_at (spawned type w 1) 3 1) eqn:H1.
      { exists 1. split; [lia|]. split; [exact H1|]. intros y Hy.
        assert (y = 2) as -> by lia. apply Hnot; [lia|exact H2]. }
      destruct (free_at (spawned type w 0) 3 0) eqn:H0.
      { exists 0. split; [lia|]. split; [exact H0|]. intros y Hy.
        assert (y = 1 ∨ y = 2) as [-> | ->] by lia; apply Hnot; auto with lia. }
      exfalso. unfold spawn_blocked, spawn_rows in Hblocked. cbn [forallb] in Hblocked.
      rewrite (Hnot 2), (Hnot 1), (Hnot 0) in Hblocked by (auto with lia).
      discriminate. }
    destruct Hfound as (y0 & Hy0 & Hfree & Habove).
    destruct (spawn_loop_finds type w y0 Hrect Hh3 Hmax (proj1 Hy0) Hfree 3%nat 3)
      as (w' & Hloop & Hw' & Hplaced); [lia|lia| |].
    { intros y Hy. apply Habove. lia. }
    rewrite Hloop. cbn [mbind option_bind]. exists w'. split; [reflexivity|].
    split; [|split; [rewrite Hw'; reflexivity|exact Hplaced]].
    unfold in_game, pending_on_board. rewrite Hw'.
    cbn [pending_cleared_rows matrix keystates harddrop_locks_instantly gravity_delay
         gravity_timer active_piece spawned set_ghost_piece_y set_active_piece_y
         set_active_piece_x set_active_piece].
    split; [right; exists (make_uptr type); rewrite <- Hw'; exact Hplaced|].
    auto 10.
Qed.

(** A new playfield is as between two frames of a game. *)
Lemma Well_new_in_game : 0 < frame_duration_60Hz → in_game Well_new.
Proof.
  intros Hpos. unfold in_game, pending_on_board. cbn.
  split; [left; reflexivity|].
  split; [intros r Hr; apply elem_of_empty in Hr; destruct Hr|].
  split; [left; reflexivity|].
  split.
  { intros k Hk. unfold initial_keystates.
    repeat (apply elem_of_cons in Hk as [->|Hk]; [vm_compute; eauto|]).
    inversion Hk. }
  split; [reflexivity|]. split; [lia|]. split; [lia|].
  split; [exact rectangular_empty_matrix|]. vm_compute. split; [discriminate|reflexivity].
Qed.

End SpawnInGame.

Lemma in_game_falling_well : in_game falling_well.
Proof.
  unfold in_game, pending_on_board.
  split; [right; exists (demo_piece PieceType.T); exact placed_falling_well|].
  split; [exact pending_on_board_falling_well|].
  split; [left; reflexivity|].
  split.
  { intros k Hk.
    repeat (apply elem_of_cons in Hk as [->|Hk]; [vm_compute; eauto|]).
    inversion Hk. }
  split; [reflexivity|]. split; [reflexivity|]. split; [vm_compute; discriminate|].
  split; [exact rectangular_ledge_matrix|]. vm_compute. split; [discriminate|reflexivity].
Qed.

Lemma update_keeps_in_game_witness :
  ∃ w' : Well,
    update [mkInputEvent InputType.LEFT true; mkInputEvent InputType.GAME_HARDDROP true]
           falling_well = Some w'
    ∧ in_game w' ∧ gameover w' = gameover falling_well.
Proof.
  apply (update_keeps_in_game
           [mkInputEvent InputType.LEFT true; mkInputEvent InputType.GAME_HARDDROP true]
           falling_well).
  - vm_compute. discriminate.
  - exact in_game_falling_well.
  - split; [cbn; lia|]. intros p _. vm_compute. discriminate.
Defined.

Lemma addPiece_keeps_in_game_witness :
  ∃ w' : Well,
    addPiece PieceType.T (@Well_new demo) = Some w'
    ∧ in_game w'
    ∧ if spawn_blocked PieceType.T (@Well_new demo)
      then gameover w' = true ∧ active_piece w' = None
      else gameover w' = gameover (@Well_new demo)
           ∧ placed w' (@make_uptr demo PieceType.T).
Proof.
  apply (addPiece_keeps_in_game PieceType.T (@Well_new demo)).
  - apply (@Well_new_in_game demo). reflexivity.
  - reflexivity.
  - reflexivity.
Defined.

Section Setup.
Context `{Collaborators}.

(** X19: a new playfield.  With a frame duration above zero, the playfield
    that the constructor leaves is as between two frames of a game, whatever
    board of at least three rows, rectangular and far lower than the range
    of [unsigned], the class declares: no piece is active, no row is
    pending, the keys that have a state are released, the five keys that
    [handleKeys] reads among them, in the previous key states too, a hard
    drop locks, and the game is not over. *)
Theorem new_playfield_in_game (m : Matrix) :
  0 < frame_duration_60Hz → board_ok m →
  in_game (set_matrix m Well_new)
  ∧ active_piece (set_matrix m Well_new) = None
  ∧ pending_cleared_rows (set_matrix m Well_new) = ∅
  ∧ keys_ready (previous_keystates (set_matrix m Well_new))
  ∧ (∀ k : InputType.t, is_Some (keystates (set_matrix m Well_new) !! k) →
       keystates (set_matrix m Well_new) !! k = Some false)
  ∧ gameover (set_matrix m Well_new) = false.
Proof.
  intros Hpos Hboard.
  assert (Hready : keys_ready initial_keystates).
  { intros k Hk. unfold initial_keystates.
    repeat (apply elem_of_cons in Hk as [->|Hk]; [vm_compute; eauto|]).
    inversion Hk. }
  split; [|split; [reflexivity|split; [reflexivity|split; [exact Hready|split]]]].
  - unfold in_game, pending_on_board.
    cbn [active_piece pending_cleared_rows keystates harddrop_locks_instantly
         gravity_delay gravity_timer matrix set_matrix Well_new settled].
    split; [left; reflexivity|].
    split; [intros r Hr; apply elem_of_empty in Hr; destruct Hr|].
    split; [left; reflexivity|].
    split; [exact Hready|]. split; [reflexivity|]. split; [lia|]. split; [lia|].
    exact Hboard.
  - intros k [b Hb]. cbn [keystates set_matrix Well_new] in *.
    unfold initial_keystates in *.
    destruct k; vm_compute in Hb; try discriminate; injection Hb as <-; reflexivity.
  - reflexivity.
Qed.

(** X20: the speed of the fall.  [setGravity] never sets a gravity delay
    below [GRAVITY_20G], and sets the soft drop delay to a twentieth of the
    gravity delay; with [GRAVITY_20G] above zero a playfield that is as
    between two frames of a game stays so, so that the loop of
    [updateGravity] ends in the frames that follow. *)
Theorem setGravity_keeps_in_game (duration : Duration) (w : Well) :
  0 < GRAVITY_20G → in_game w →
  in_game (setGravity duration w)
  ∧ GRAVITY_20G ≤ gravity_delay (setGravity duration w)
  ∧ duration ≤ gravity_delay (setGravity duration w)
  ∧ softdrop_delay (setGravity duration w)
    = Z.quot (gravity_delay (setGravity duration w)) 20
  ∧ setGravity duration w
    = set_softdrop_delay (softdrop_delay (setGravity duration w))
        (set_gravity_delay (gravity_delay (setGravity duration w)) w).
Proof.
  intros Hpos (Hs & Hpend & Hnone & Hkeys & Hhard & Hdelay & Htimer & Hboard).
  unfold setGravity. cbn zeta.
  cbn [gravity_delay softdrop_delay set_gravity_delay set_softdrop_delay].
  split; [|split; [lia|split; [lia|split; reflexivity]]].
  unfold in_game, pending_on_board.
  cbn [active_piece pending_cleared_rows keystates harddrop_locks_instantly
       gravity_delay gravity_timer matrix set_gravity_delay set_softdrop_delay].
  split.
  { destruct Hs as [Hs|[p Hs]]; [left; exact Hs|right; exists p].
    apply (placed_ext w); try reflexivity. exact Hs. }
  split; [exact Hpend|]. split; [exact Hnone|]. split; [exact Hkeys|].
  split; [exact Hhard|]. split; [lia|]. split; [exact Htimer|exact Hboard].
Qed.

End Setup.

Lemma new_playfield_in_game_witness :
  in_game (set_matrix ledge_matrix (@Well_new demo))
  ∧ active_piece (set_matrix ledge_matrix (@Well_new demo)) = None
  ∧ pending_cleared_rows (set_matrix ledge_matrix (@Well_new demo)) = ∅
  ∧ keys_ready (previous_keystates (set_matrix ledge_matrix (@Well_new demo)))
  ∧ (∀ k : InputType.t,
       is_Some (keystates (set_matrix ledge_matrix (@Well_new demo)) !! k) →
       keystates (set_matrix ledge_matrix (@Well_new demo)) !! k = Some false)
  ∧ gameover (set_matrix ledge_matrix (@Well_new demo)) = false.
Proof.
  apply (@new_playfield_in_game demo ledge_matrix).
  - reflexivity.
  - split; [exact rectangular_ledge_matrix|]. vm_compute.
    split; [discriminate|reflexivity].
Defined.

Lemma setGravity_keeps_in_game_witness :
  in_game (setGravity 100 falling_well)
  ∧ @GRAVITY_20G demo ≤ gravity_delay (setGravity 100 falling_well)
  ∧ 100 ≤ gravity_delay (setGravity 100 falling_well)
  ∧ softdrop_delay (setGravity 100 falling_well)
    = Z.quot (gravity_delay (setGravity 100 falling_well)) 20
  ∧ setGravity 100 falling_well
    = set_softdrop_delay (softdrop_delay (setGravity 100 falling_well))
        (set_gravity_delay (gravity_delay (setGravity 100 falling_well)) falling_well).
Proof.
  apply (setGravity_keeps_in_game 100 falling_well).
  - reflexivity.
  - exact in_game_falling_well.
Defined.
